(** * Build-ID extraction of the Go binary parser (package [binary])

    A shallow embedding of [Parse], [getBuildID] and [readELF] of the
    binary parser, together with the properties of the build-ID scan.

    Conventions.
    - Go's [uint32]/[uint64] values are integers of [Z]; every operation
      that can wrap in Go is written with its reduction ([u32], [u64]).
    - A byte slice is a [list byte]; a Go [string] holding raw bytes (the
      build ID) is a [list byte] as well.  A slice expression that Go
      rejects at run time yields [Panicked].
    - The [for filesz >= 16] loop of [readELF] is not structurally
      decreasing (and does not terminate on every input), so it takes fuel.
    - The file handle ([dio.ReadSeekerAt]) is an in-memory file with a
      cursor and a log of the operations performed on it.
    - Module [utils] holds the helpers of package [utils]
      ([UniqueStrings], [UniqueLibraries], [MergeMaps], [PackageID]); a Go
      map used as a set is a [gset], and a map passed by reference is an
      address in a store of [gmap]s.
    - Module [legacy] holds the variant of the parser that reads the build
      ID from the section table. *)

From Stdlib Require Import ZArith Lia List String Ascii Bool.
From Stdlib.Strings Require Import Byte.
From stdpp Require Import base list strings gmap.

Local Open Scope Z_scope.

Set Warnings "-register-all,-clear-no-such-hyp".

(** ** Machine integers and bytes *)

Definition u32 (z : Z) : Z := z mod 2 ^ 32.
Definition u64 (z : Z) : Z := z mod 2 ^ 64.

(** [int64(x)] for a [uint64] [x]: reinterpretation in two's complement. *)
Definition int64 (z : Z) : Z :=
  let w := u64 z in if w <? 2 ^ 63 then w else w - 2 ^ 64.

(** [x &^ y], Go's bit-clear operator. *)
Definition andNot (x y : Z) : Z := Z.ldiff x y.

Definition byteZ (b : byte) : Z := Z.of_N (Byte.to_N b).

Definition gostring : Type := list byte.

Definition len {A : Type} (s : list A) : Z := Z.of_nat (length s).

#[global] Instance byte_eq_decision : EqDecision byte := Byte.byte_eq_dec.

Definition bytes_Equal (a b : list byte) : bool :=
  bool_decide (a = b).

(** ** Outcomes of a Go computation *)

Inductive outcome (A : Type) : Type :=
| Returned (a : A)
| Panicked
| OutOfFuel.
Arguments Returned {A} a.
Arguments Panicked {A}.
Arguments OutOfFuel {A}.

#[global] Instance outcome_ret : MRet outcome := @Returned.
#[global] Instance outcome_bind : MBind outcome := fun A B k m =>
  match m with
  | Returned a => k a
  | Panicked => Panicked
  | OutOfFuel => OutOfFuel
  end.

(** ** Slices

    Capacity is identified with length: [s[lo:hi]] is accepted when
    [0 <= lo <= hi <= len s].  Lemma [noteIter_keeps_length] shows that inside
    the note walk every slice is taken with [hi <= len], so the difference
    with Go's [hi <= cap] is never observed there. *)

Definition slice (s : list byte) (lo hi : Z) : outcome (list byte) :=
  if (0 <=? lo) && (lo <=? hi) && (hi <=? len s)
  then Returned (take (Z.to_nat (hi - lo)) (drop (Z.to_nat lo) s))
  else Panicked.

Definition sliceFrom (s : list byte) (lo : Z) : outcome (list byte) :=
  slice s lo (len s).

(** ** [encoding/binary]: [ByteOrder.Uint32] *)

Inductive ByteOrder : Type := LittleEndian | BigEndian.

Definition Uint32 (bo : ByteOrder) (b : list byte) : outcome Z :=
  match b with
  | b0 :: b1 :: b2 :: b3 :: _ =>
      Returned
        match bo with
        | LittleEndian =>
            Z.lor (Z.lor (Z.lor (byteZ b0) (Z.shiftl (byteZ b1) 8))
                         (Z.shiftl (byteZ b2) 16))
                  (Z.shiftl (byteZ b3) 24)
        | BigEndian =>
            Z.lor (Z.lor (Z.lor (byteZ b3) (Z.shiftl (byteZ b2) 8))
                         (Z.shiftl (byteZ b1) 16))
                  (Z.shiftl (byteZ b0) 24)
        end
  | _ => Panicked
  end.

(** ** Errors *)

Inductive error : Type :=
| errProgramNotSupported
| errBuildIDNotFound
| ErrUnrecognizedExe
| ErrNonGoBinary
| io_EOF
| io_ErrUnexpectedEOF
| errNegativePosition
| errOther (text : string).

Definition Error (e : error) : string :=
  match e with
  | errProgramNotSupported => "Program not supported"
  | errBuildIDNotFound => "Go BuildID not found"
  | ErrUnrecognizedExe => "unrecognized executable format"
  | ErrNonGoBinary => "non go binary"
  | io_EOF => "EOF"
  | io_ErrUnexpectedEOF => "unexpected EOF"
  | errNegativePosition => "bytes.Reader.Seek: negative position"
  | errOther text => text
  end.

(** ** The file handle

    [dio.ReadSeekerAt] is modelled as an in-memory reader (the behaviour
    of [bytes.Reader] and of a regular file): [ReadAt] does not move the
    cursor, [Read] advances it, [Seek] to a negative position fails.  The
    log records every call in order. *)

Inductive event : Type :=
| EvReadAt (off n : Z)
| EvRead (n : Z)
| EvSeek (off : Z).

Record handle : Type := mkHandle {
  content : list byte;
  cursor : Z;
  log : list event
}.

Definition zeros (n : nat) : list byte := repeat x00 n.

(** [r.ReadAt(buf, off)] with [len(buf) = n]: the buffer and the error. *)
Definition ReadAt (h : handle) (n off : Z) : (list byte * option error) * handle :=
  let got := take (Z.to_nat n) (drop (Z.to_nat off) (content h)) in
  let h' := mkHandle (content h) (cursor h) (log h ++ [EvReadAt off n]) in
  if len got <? n
  then ((got ++ zeros (Z.to_nat (n - len got)), Some io_EOF), h')
  else ((got, None), h').

(** [io.ReadFull(r, buf)] with [buf] a fresh buffer of [n] zero bytes. *)
Definition ReadFull (h : handle) (n : Z) : (list byte * option error) * handle :=
  if n <=? 0 then (([], None), h)
  else
    let got := take (Z.to_nat n) (drop (Z.to_nat (cursor h)) (content h)) in
    let h' := mkHandle (content h) (cursor h + len got) (log h ++ [EvRead n]) in
    if len got =? 0 then ((zeros (Z.to_nat n), Some io_EOF), h')
    else if len got <? n
    then ((got ++ zeros (Z.to_nat (n - len got)), Some io_ErrUnexpectedEOF), h')
    else ((got, None), h').

(** [r.Seek(off, io.SeekStart)]. *)
Definition Seek (h : handle) (off : Z) : option error * handle :=
  let h' := mkHandle (content h) (if off <? 0 then cursor h else off)
                     (log h ++ [EvSeek off]) in
  if off <? 0 then (Some errNegativePosition, h') else (None, h').

(** ** [debug/elf]: the part of [elf.File] that [readELF] consults *)

Record Prog : Type := mkProg {
  Typ : Z;      (* ProgHeader.Type, uint32 *)
  Off : Z;      (* uint64 *)
  Filesz : Z;   (* uint64 *)
  Align : Z     (* uint64 *)
}.

Record File : Type := mkFile {
  FileByteOrder : ByteOrder;
  Progs : list Prog
}.

Definition EI_CLASS : nat := 4.
Definition ELFCLASS32 : Z := 1.
Definition ELFCLASS64 : Z := 2.
Definition PT_NOTE : Z := 4.

(** ** Constants of the package *)

Definition readSize : Z := 32 * 1024.
Definition elfPrefix : list byte := [x7f; "E"; "L"; "F"]%byte.
Definition elfGoNote : list byte := ["G"; "o"; x00; x00]%byte.
Definition elfGNUNote : list byte := ["G"; "N"; "U"; x00]%byte.
Definition archMagic : list byte := ["!"; "<"; "a"; "r"; "c"; "h"; ">"; x0a]%byte.
Definition bigafMagic : list byte := ["<"; "b"; "i"; "g"; "a"; "f"; ">"; x0a]%byte.

Definition offsetToNoteData : Z := 16.
Definition offsetToNoteFields : Z := 12.
Definition sizeOfNoteNameAndValue : Z := 4.
Definition elfGoBuildIDTag : Z := 4.
Definition gnuBuildIDTag : Z := 3.

(** ** The note walk of [readELF] (the inner [for filesz >= 16] loop) *)

Inductive iterResult : Type :=
| IterReturn (buildid : gostring)
| IterBreak (gnu : gostring)
| IterNext (gnu : gostring) (filesz off : Z) (note : list byte).

(** The guard shared by the two [if] statements, without the tag and name
    tests: [nameSize == 4 && 16+valSize <= uint32(len(note))]. *)
Definition noteGuard (nameSize valSize : Z) (note : list byte) : bool :=
  (nameSize =? sizeOfNoteNameAndValue)
  && (u32 (offsetToNoteData + valSize) <=? u32 (len note)).

(** One iteration of the loop body. *)
Definition noteIter (bo : ByteOrder) (align : Z)
    (gnu : gostring) (filesz off : Z) (note : list byte) : outcome iterResult :=
  nameSize ← Uint32 bo note;
  n4 ← sliceFrom note sizeOfNoteNameAndValue;
  valSize ← Uint32 bo n4;
  n8 ← sliceFrom note 8;
  tag ← Uint32 bo n8;
  nname ← slice note offsetToNoteFields (offsetToNoteFields + sizeOfNoteNameAndValue);
  if noteGuard nameSize valSize note
     && (tag =? elfGoBuildIDTag) && bytes_Equal nname elfGoNote
  then
    v ← slice note offsetToNoteData (u32 (offsetToNoteData + valSize));
    Returned (IterReturn v)
  else
    gnu' ← (if noteGuard nameSize valSize note
                 && (tag =? gnuBuildIDTag) && bytes_Equal nname elfGNUNote
            then slice note offsetToNoteData (u32 (offsetToNoteData + valSize))
            else Returned gnu);
    let nameSize := andNot (u32 (nameSize + 3)) 3 in
    let valSize := andNot (u32 (valSize + 3)) 3 in
    let notesz := u32 (offsetToNoteFields + nameSize + valSize) in
    if filesz <=? notesz then Returned (IterBreak gnu')
    else
      let off := u64 (off + notesz) in
      let '(notesz, off) :=
        if align =? 0 then (notesz, off)
        else
          let alignedOff := andNot (u64 (off + align - 1)) (u64 (align - 1)) in
          (u64 (notesz + u64 (alignedOff - off)), alignedOff) in
      let filesz := u64 (filesz - notesz) in
      note' ← sliceFrom note notesz;
      Returned (IterNext gnu' filesz off note').

Inductive walkResult : Type :=
| WalkReturn (buildid : gostring)   (* readELF returns from inside the loop *)
| WalkDone (gnu : gostring).        (* the loop ends; [gnu] as it stands *)

Fixpoint noteLoop (fuel : nat) (bo : ByteOrder) (align : Z)
    (gnu : gostring) (filesz off : Z) (note : list byte) : outcome walkResult :=
  if filesz <? offsetToNoteData then Returned (WalkDone gnu)
  else
    match fuel with
    | O => OutOfFuel
    | S fuel' =>
        r ← noteIter bo align gnu filesz off note;
        match r with
        | IterReturn v => Returned (WalkReturn v)
        | IterBreak gnu' => Returned (WalkDone gnu')
        | IterNext gnu' filesz' off' note' =>
            noteLoop fuel' bo align gnu' filesz' off' note'
        end
    end.

(** ** [runtime/debug] and [types]: the records [Parse] reads and builds *)

Module debug.
Inductive Module_ : Type := mkModule {
  Path : string;
  Version : string;
  Sum : string;
  Replace : option Module_
}.

Record BuildInfo : Type := mkBuildInfo {
  GoVersion : string;
  Main : Module_;
  Deps : list Module_
}.
End debug.

Module types.
(** The fields of [types.Library] that [Parse] fills in; the others keep
    their zero value. *)
Record Library : Type := mkLibrary {
  Name : string;
  Version : string;
  BuildID : gostring;
  Warnings : list string
}.
End types.

(** ** [strings.HasSuffix], [bytes.HasPrefix] *)

Definition strings_HasSuffix (s suffix : string) : bool :=
  (String.length suffix <=? String.length s)%nat
  && String.eqb
       (substring (String.length s - String.length suffix) (String.length suffix) s)
       suffix.

Definition bytes_HasPrefix (s prefix : list byte) : bool :=
  (len prefix <=? len s) && bytes_Equal (take (length prefix) s) prefix.

(** convertError detects buildinfo.errUnrecognizedFormat and converts it to
    ErrUnrecognizedExe, and buildinfo.errNotGoExe to ErrNonGoBinary. *)
Definition convertError (err : error) : error :=
  let errText := Error err in
  if strings_HasSuffix errText "unrecognized file format" then ErrUnrecognizedExe
  else if strings_HasSuffix errText "not a Go executable" then ErrNonGoBinary
  else err.

(** ** [readELF] *)

(** [data[40..47] = 0; data[60] = 0; data[61] = 0]: an index out of range
    panics. *)
Definition clearShdr (data : list byte) : list byte :=
  foldl (fun d i => <[i := x00]> d) data
        [40; 41; 42; 43; 44; 45; 46; 47; 60; 61]%nat.

Definition zeroShdrFields (data : list byte) : outcome (list byte) :=
  if len data <=? 61 then Panicked else Returned (clearShdr data).

(** Lines 132-153: the bytes of the note segment [p], from the window when
    [p.Off+p.Filesz < len(data)], and read from the file at [p.Off]
    otherwise.  [make([]byte, n)] panics when [n] is not an [int] (the
    memory limit of the platform is not modelled). *)
Definition loadNote (h : handle) (data : list byte) (p : Prog)
    : outcome (list byte + error) * handle :=
  if u64 (Off p + Filesz p) <? len data
  then (note ← slice data (Off p) (u64 (Off p + Filesz p)); Returned (inl note), h)
  else
    let '(err, h1) := Seek h (int64 (Off p)) in
    match err with
    | Some e => (Returned (inr e), h1)
    | None =>
        if 2 ^ 63 <=? Filesz p then (Panicked, h1)
        else
          let '((note, err), h2) := ReadFull h1 (Filesz p) in
          match err with
          | Some e => (Returned (inr e), h2)
          | None => (Returned (inl note), h2)
          end
    end.

(** The body of the [for _, p := range ef.Progs] loop for a note segment
    of at least 16 bytes: load the note bytes, then walk them. *)
Definition scanSegment (fuel : nat) (bo : ByteOrder) (data : list byte)
    (p : Prog) (gnu : gostring) (h : handle)
    : outcome (walkResult + error) * handle :=
  match loadNote h data p with
  | (Returned (inr e), h1) => (Returned (inr e), h1)
  | (Returned (inl note), h1) =>
      (w ← noteLoop fuel bo (Align p) gnu (Filesz p) (Off p) note;
       Returned (inl w), h1)
  | (Panicked, h1) => (Panicked, h1)
  | (OutOfFuel, h1) => (OutOfFuel, h1)
  end.

(** The [for _, p := range ef.Progs] loop and the statements after it. *)
Fixpoint scanProgs (fuel : nat) (bo : ByteOrder) (data : list byte)
    (ps : list Prog) (gnu : gostring) (h : handle)
    : outcome (gostring * option error) * handle :=
  match ps with
  | [] =>
      if negb (bytes_Equal gnu []) then (Returned (gnu, None), h)
      else (Returned ([], None), h)
  | p :: ps' =>
      if negb (Typ p =? PT_NOTE) || (Filesz p <? offsetToNoteData)
      then scanProgs fuel bo data ps' gnu h
      else
        match scanSegment fuel bo data p gnu h with
        | (Returned (inr e), h1) => (Returned ([], Some e), h1)
        | (Returned (inl (WalkReturn v)), h1) => (Returned (v, None), h1)
        | (Returned (inl (WalkDone gnu')), h1) =>
            scanProgs fuel bo data ps' gnu' h1
        | (Panicked, h1) => (Panicked, h1)
        | (OutOfFuel, h1) => (OutOfFuel, h1)
        end
  end.

Section Parser.

(** [elf.NewFile(bytes.NewReader(data))] and [buildinfo.Read(r)] belong to
    the Go standard library; the parser is modelled over any decoder.
    [buildinfo.Read] takes an [io.ReaderAt]: it reads the bytes of the file
    and leaves the cursor where it is; its own reads are not logged. *)
Variable elf_NewFile : list byte -> error + File.
Variable buildinfo_Read : list byte -> error + debug.BuildInfo.

Definition readELF (fuel : nat) (r : handle) (data : list byte)
    : outcome (gostring * option error) * handle :=
  match data !! EI_CLASS with
  | None => (Panicked, r)
  | Some c =>
      if byteZ c =? ELFCLASS32
      then (Returned ([], Some errProgramNotSupported), r)
      else
        match (if byteZ c =? ELFCLASS64 then zeroShdrFields data
               else Returned data) with
        | Returned data' =>
            match elf_NewFile data' with
            | inl err => (Returned ([], Some err), r)
            | inr ef => scanProgs fuel (FileByteOrder ef) data' (Progs ef) [] r
            end
        | Panicked => (Panicked, r)
        | OutOfFuel => (OutOfFuel, r)
        end
  end.

Definition getBuildID (fuel : nat) (r : handle)
    : outcome (gostring * option error) * handle :=
  let '((buf, err), r1) := ReadAt r 8 0 in
  match err with
  | Some e => (Returned ([], Some e), r1)
  | None =>
      if negb (bytes_Equal buf archMagic) then
        if bytes_Equal buf bigafMagic
        then (Returned ([], Some errProgramNotSupported), r1)
        else
          let '((data, err), r2) := ReadFull r1 readSize in
          let err := match err with
                     | Some io_ErrUnexpectedEOF => None
                     | _ => err
                     end in
          match err with
          | Some e => (Returned ([], Some e), r2)
          | None =>
              if bytes_HasPrefix data elfPrefix then readELF fuel r2 data
              else (Returned ([], Some errProgramNotSupported), r2)
          end
      else (Returned ([], Some errProgramNotSupported), r1)
  end.

(** The [for _, dep := range info.Deps] loop of [Parse]. *)
Definition appendLibs (buildID : gostring) (warnings : list string)
    (libs : list types.Library) (dep : debug.Module_) : list types.Library :=
  if String.eqb (debug.Path dep) "" then libs
  else
    let mod_ := match debug.Replace dep with
                | Some m => m
                | None => dep
                end in
    libs ++ [types.mkLibrary (debug.Path mod_) (debug.Version mod_)
                             buildID warnings].

Definition Parse (fuel : nat) (r : handle)
    : outcome (list types.Library + error) * handle :=
  match buildinfo_Read (content r) with
  | inl err => (Returned (inr (convertError err)), r)
  | inr info =>
      let '(res, r1) :=
        if 0 <? len (debug.Deps info) then
          match getBuildID fuel r with
          | (Returned (buildID, Some err), r1) =>
              (Returned (buildID, [Error err]), r1)
          | (Returned (buildID, None), r1) => (Returned (buildID, []), r1)
          | (Panicked, r1) => (Panicked, r1)
          | (OutOfFuel, r1) => (OutOfFuel, r1)
          end
        else (Returned ([], []), r) in
      ('(buildID, warnings) ← res;
       Returned (inl (foldl (appendLibs buildID warnings) [] (debug.Deps info))),
       r1)
  end.

End Parser.

(** ** Specification side: note records and their layout in a segment *)

(** [align4 x] is the code's [(x + 3) &^ 3] on [uint32]. *)
Definition align4 (x : Z) : Z := andNot (u32 (x + 3)) 3.

(** The least multiple of [a] that is at least [x] ([x] itself when
    [a = 0], the case in which [readELF] skips the alignment step). *)
Definition roundUp (a x : Z) : Z :=
  if a =? 0 then x else a * ((x + a - 1) / a).

Definition isPow2 (a : Z) : Prop := exists k, 0 <= k /\ a = 2 ^ k.

Record NoteRecord : Type := mkNote {
  nName : list byte;
  nTag : Z;
  nDesc : list byte
}.

Definition isGo (r : NoteRecord) : bool :=
  bytes_Equal (nName r) elfGoNote && (nTag r =? elfGoBuildIDTag).

Definition isGNU (r : NoteRecord) : bool :=
  bytes_Equal (nName r) elfGNUNote && (nTag r =? gnuBuildIDTag).

(** [bs] is the image of the record [r]: three 32-bit fields (name size,
    value size, tag) in byte order [bo], then the name and the value, each
    padded to a multiple of four bytes. *)
Definition RecordAt (bo : ByteOrder) (r : NoteRecord) (bs : list byte) : Prop :=
  exists h1 h2 h3 pn pd,
    bs = h1 ++ h2 ++ h3 ++ (nName r ++ pn) ++ (nDesc r ++ pd)
    /\ length h1 = 4%nat /\ length h2 = 4%nat /\ length h3 = 4%nat
    /\ Uint32 bo h1 = Returned (len (nName r))
    /\ Uint32 bo h2 = Returned (len (nDesc r))
    /\ Uint32 bo h3 = Returned (nTag r)
    /\ len (nName r ++ pn) = roundUp 4 (len (nName r))
    /\ len (nDesc r ++ pd) = roundUp 4 (len (nDesc r)).

(** [NoteLayout bo align off bs recs]: the bytes [bs], found at file offset
    [off] in a segment of alignment [align], hold the records [recs] one
    after the other; a record that is followed by more bytes is followed
    by the padding that brings the offset to a multiple of [align]; fewer
    than 16 trailing bytes hold no record. *)
Inductive NoteLayout (bo : ByteOrder) (align : Z)
    : Z -> list byte -> list NoteRecord -> Prop :=
| NL_tail off tail :
    len tail < 16 -> NoteLayout bo align off tail []
| NL_last off r bs :
    RecordAt bo r bs -> NoteLayout bo align off bs [r]
| NL_more off r bs pad rest recs :
    RecordAt bo r bs ->
    off + len bs + len pad = roundUp align (off + len bs) ->
    NoteLayout bo align (off + len bs + len pad) rest recs ->
    NoteLayout bo align off (bs ++ pad ++ rest) (r :: recs).

(** What the walk is to make of a sequence of records: the value of the
    first toolchain-native record ends the scan; otherwise every
    generic-linker record replaces the remembered value. *)
Fixpoint walkSpec (gnu : gostring) (recs : list NoteRecord) : walkResult :=
  match recs with
  | [] => WalkDone gnu
  | r :: recs' =>
      if isGo r then WalkReturn (nDesc r)
      else walkSpec (if isGNU r then nDesc r else gnu) recs'
  end.

Definition resolveSpec (recs : list NoteRecord) : gostring :=
  match walkSpec [] recs with
  | WalkReturn v => v
  | WalkDone gnu => gnu
  end.

Definition isNoteSegment (p : Prog) : bool :=
  (Typ p =? PT_NOTE) && (offsetToNoteData <=? Filesz p).

(** The bytes of segment [p] as the window [data] and the file hold them:
    inside the window they are read from it, otherwise from the file. *)
Definition SegmentBytes (file data : list byte) (p : Prog)
    (bs : list byte) : Prop :=
  if Off p + Filesz p <? len data
  then bs = take (Z.to_nat (Filesz p)) (drop (Z.to_nat (Off p)) data)
  else Off p + Filesz p <= len file
       /\ bs = take (Z.to_nat (Filesz p)) (drop (Z.to_nat (Off p)) file).

(** Segment [p] of a well-formed file holds the records [recs]: a note
    segment of 16 bytes or more is laid out as [NoteLayout] says; the
    other segments are not scanned. *)
Definition SegmentRecords (file data : list byte) (bo : ByteOrder)
    (p : Prog) (recs : list NoteRecord) : Prop :=
  if isNoteSegment p
  then 0 <= Off p /\ Filesz p < 2 ^ 32 /\ Off p + Filesz p + Align p < 2 ^ 63
       /\ (Align p = 0 \/ isPow2 (Align p))
       /\ exists bs, SegmentBytes file data p bs
                     /\ NoteLayout bo (Align p) (Off p) bs recs
  else recs = [].

(** One unit of fuel per byte of the largest note segment is enough. *)
Definition FuelFor (fuel : nat) (ef : File) : Prop :=
  Forall (fun p => isNoteSegment p = true -> Filesz p <= Z.of_nat fuel)
         (Progs ef).

(** [data] is the window of a well-formed 64-bit ELF file: its class byte
    says [ELFCLASS64], the decoder [decode] accepts the window once its
    section-header fields are cleared and yields [ef], and the segments of
    [ef] hold the records [recss], segment by segment. *)
Definition ELF64Image (decode : list byte -> error + File)
    (file data : list byte) (ef : File)
    (recss : list (list NoteRecord)) : Prop :=
  (exists c, data !! EI_CLASS = Some c /\ byteZ c = ELFCLASS64)
  /\ 61 < len data
  /\ decode (clearShdr data) = inr ef
  /\ Forall2 (SegmentRecords file (clearShdr data) (FileByteOrder ef))
             (Progs ef) recss.

(** The module a dependency stands for: its replacement when it has one. *)
Definition effectiveModule (dep : debug.Module_) : debug.Module_ :=
  match debug.Replace dep with
  | Some m => m
  | None => dep
  end.

Definition hasPath (dep : debug.Module_) : bool :=
  negb (String.eqb (debug.Path dep) "").

(** The record emitted for a dependency. *)
Definition libraryOf (buildID : gostring) (warnings : list string)
    (dep : debug.Module_) : types.Library :=
  types.mkLibrary (debug.Path (effectiveModule dep))
                  (debug.Version (effectiveModule dep)) buildID warnings.

Definition warningsOf (err : option error) : list string :=
  match err with
  | Some e => [Error e]
  | None => []
  end.

(** ** A decoder to run the model on concrete images

    [leDecoder] reads the program header table of a little-endian ELF64
    image: [e_phoff] at 32, [e_phentsize] at 54, [e_phnum] at 56, and in
    each entry [p_type] at 0, [p_offset] at 8, [p_filesz] at 32 and
    [p_align] at 48.  It stands for [elf.NewFile] in the examples. *)

Definition leZ (bs : list byte) : Z :=
  foldr (fun b acc => byteZ b + 256 * acc) 0 bs.

Definition field (data : list byte) (off : Z) (n : nat) : Z :=
  leZ (take n (drop (Z.to_nat off) data)).

Definition leDecoder (data : list byte) : error + File :=
  if negb (bytes_HasPrefix data elfPrefix)
  then inl (errOther "bad magic number")
  else
    let phoff := field data 32 8 in
    let phentsize := field data 54 2 in
    let phnum := field data 56 2 in
    inr (mkFile LittleEndian
           (map (fun i : nat =>
                   let o := phoff + Z.of_nat i * phentsize in
                   mkProg (field data o 4) (field data (o + 8) 8)
                          (field data (o + 32) 8) (field data (o + 48) 8))
                (seq 0 (Z.to_nat phnum)))).

Definition byteOfZ (z : Z) : byte :=
  match Byte.of_N (Z.to_N (z mod 256)) with
  | Some b => b
  | None => x00
  end.

(** [n] bytes of [z], least significant first. *)
Fixpoint leBytes (n : nat) (z : Z) : list byte :=
  match n with
  | O => []
  | S n' => byteOfZ z :: leBytes n' (z / 256)
  end.

Definition pad4 (bs : list byte) : list byte :=
  bs ++ zeros (Z.to_nat (roundUp 4 (len bs) - len bs)).

(** The little-endian image of a note record. *)
Definition encodeNote (r : NoteRecord) : list byte :=
  leBytes 4 (len (nName r)) ++ leBytes 4 (len (nDesc r)) ++ leBytes 4 (nTag r)
  ++ pad4 (nName r) ++ pad4 (nDesc r).

(** An ELF64 header (64 bytes) announcing [phnum] program headers at
    offset 64, and a program header entry (56 bytes). *)
Definition elfHeader (phnum : Z) : list byte :=
  elfPrefix ++ [x02; x01; x01; x00] ++ zeros 8
  ++ leBytes 2 2 ++ leBytes 2 62 ++ leBytes 4 1
  ++ leBytes 8 0 ++ leBytes 8 64 ++ leBytes 8 4096
  ++ leBytes 4 0 ++ leBytes 2 64 ++ leBytes 2 56 ++ leBytes 2 phnum
  ++ leBytes 2 64 ++ leBytes 2 3 ++ leBytes 2 2.

Definition progHeader (p : Prog) : list byte :=
  leBytes 4 (Typ p) ++ leBytes 4 4 ++ leBytes 8 (Off p) ++ leBytes 8 0
  ++ leBytes 8 0 ++ leBytes 8 (Filesz p) ++ leBytes 8 (Filesz p)
  ++ leBytes 8 (Align p).

Definition openFile (bs : list byte) : handle := mkHandle bs 0 [].

(** ** Sample inputs *)

Definition sampleGo : NoteRecord :=
  mkNote elfGoNote elfGoBuildIDTag
    ["a"; "b"; "c"; "d"; "e"; "f"; "0"; "1"; "2"; "3"; "4"; "5"; "6"; "7";
     "8"; "9"]%byte.

Definition sampleGNU : NoteRecord :=
  mkNote elfGNUNote gnuBuildIDTag ["x"; "y"; "z"]%byte.

(** A note that is neither: the ABI tag, name "GNU\0" with tag 1. *)
Definition sampleABI : NoteRecord :=
  mkNote elfGNUNote 1 ["l"; "n"; "x"; "0"]%byte.

(** A file with one note segment at [off], of alignment [align], holding
    [notes]; the bytes between the program header and [off] are zero. *)
Definition noteFile (off align : Z) (notes : list byte) : list byte :=
  elfHeader 1
  ++ progHeader (mkProg PT_NOTE off (len notes) align)
  ++ zeros (Z.to_nat (off - 120))
  ++ notes.

(** The generic-linker note first, the toolchain-native note after it. *)
Definition bothNotes : list byte := encodeNote sampleGNU ++ encodeNote sampleGo.
Definition bothImage : list byte := noteFile 120 4 bothNotes ++ zeros 64.

(** The same notes at offset 50000, beyond the 32 KiB window. *)
Definition farImage : list byte := noteFile 50000 4 bothNotes.

(** Only the generic-linker note; only a note that is neither. *)
Definition gnuImage : list byte :=
  noteFile 120 4 (encodeNote sampleGNU) ++ zeros 64.
Definition abiImage : list byte :=
  noteFile 120 4 (encodeNote sampleABI) ++ zeros 64.

(** A note segment of 12 bytes: a record with no name and no value. *)
Definition shortImage : list byte :=
  noteFile 120 4 (encodeNote (mkNote [] 7 [])) ++ zeros 64.

(** [farImage] cut at 40000 bytes: the note segment is not in the file. *)
Definition cutImage : list byte := take (Z.to_nat 40000) farImage.

(** The window [getBuildID] hands to [readELF] for a file read from its
    start. *)
Definition windowOf (file : list byte) : list byte :=
  fst (fst (ReadFull (openFile file) readSize)).

(** A 20-byte note segment of alignment 64 at offset 120: a 16-byte record
    (name "GNU\0", tag 1, no value) and four more bytes. *)
Definition crashNotes : list byte :=
  encodeNote (mkNote elfGNUNote 1 []) ++ zeros 4.
Definition crashImage : list byte := noteFile 120 64 crashNotes.

(** A record whose name size is 0xFFFFFFF4: in [uint32] its computed size
    [12 + align4 nameSize + align4 valSize] is 0. *)
Definition stuckNotes : list byte :=
  leBytes 4 (2 ^ 32 - 12) ++ leBytes 4 0 ++ leBytes 4 1 ++ elfGNUNote
  ++ zeros 4.

(** An archive: the archive magic, then an ELF image as its member. *)
Definition archiveImage : list byte := archMagic ++ zeros 60 ++ bothImage.

Definition bigafImage : list byte := bigafMagic ++ zeros 60 ++ bothImage.

Definition sampleDeps : list debug.Module_ :=
  [debug.mkModule "" "Devel" "" None;
   debug.mkModule "github.com/a/b" "v1.2.3" "h1:x" None;
   debug.mkModule "github.com/c/d" "v0.1.0" "h1:y"
     (Some (debug.mkModule "github.com/fork/d" "v0.1.1" "h1:z" None))].

(** A stand-in for [buildinfo.Read] that reports [sampleDeps]. *)
Definition sampleRead (file : list byte) : error + debug.BuildInfo :=
  inr (debug.mkBuildInfo "go1.20" (debug.mkModule "example.com/m" "" "" None)
                         sampleDeps).

(** ** Auxiliary definitions for the proofs *)

(** [Uint32] as a positional sum of its four bytes. *)
Definition word32 (b0 b1 b2 b3 : byte) : Z :=
  byteZ b0 + byteZ b1 * 2 ^ 8 + byteZ b2 * 2 ^ 16 + byteZ b3 * 2 ^ 24.

(** The iteration once the three header fields are read. *)
Definition iterBody (align : Z) (gnu : gostring) (filesz off : Z)
    (note : list byte) (nameSize valSize tag : Z) : outcome iterResult :=
  let nname := take 4 (drop 12 note) in
  if noteGuard nameSize valSize note
     && (tag =? elfGoBuildIDTag) && bytes_Equal nname elfGoNote
  then
    v ← slice note offsetToNoteData (u32 (offsetToNoteData + valSize));
    Returned (IterReturn v)
  else
    gnu' ← (if noteGuard nameSize valSize note
               && (tag =? gnuBuildIDTag) && bytes_Equal nname elfGNUNote
            then slice note offsetToNoteData (u32 (offsetToNoteData + valSize))
            else Returned gnu);
    let notesz := u32 (offsetToNoteFields + align4 nameSize + align4 valSize) in
    if filesz <=? notesz then Returned (IterBreak gnu')
    else
      let off := u64 (off + notesz) in
      let '(notesz, off) :=
        if align =? 0 then (notesz, off)
        else
          let alignedOff := andNot (u64 (off + align - 1)) (u64 (align - 1)) in
          (u64 (notesz + u64 (alignedOff - off)), alignedOff) in
      let filesz := u64 (filesz - notesz) in
      note' ← sliceFrom note notesz;
      Returned (IterNext gnu' filesz off note').

(** The remembered generic-linker value after an iteration. *)
Definition gnuAfter (gnu : gostring) (note : list byte)
    (nameSize valSize tag : Z) : gostring :=
  if noteGuard nameSize valSize note
     && (tag =? gnuBuildIDTag)
     && bytes_Equal (take 4 (drop 12 note)) elfGNUNote
  then take (Z.to_nat valSize) (drop 16 note)
  else gnu.

Definition walkValue (w : walkResult) : gostring :=
  match w with
  | WalkReturn v => v
  | WalkDone gnu => gnu
  end.

(** Two handles over the same bytes with the same cursor. *)
Definition sameFile (h1 h2 : handle) : Prop :=
  content h1 = content h2 /\ cursor h1 = cursor h2.

(** Two runs with the same result that leave such handles behind. *)
Definition agree {A : Type} (x y : A * handle) : Prop :=
  fst x = fst y /\ sameFile (snd x) (snd y).

(** ** Auxiliary definitions for the further properties *)

(** The last byte of a string. *)
Fixpoint lastChar (s : string) : option ascii :=
  match s with
  | EmptyString => None
  | String c EmptyString => Some c
  | String _ s' => lastChar s'
  end.

(** * Package [utils] *)

Module utils.

(** [fmt.Sprintf("%s@%s", name, version)]. *)
Definition PackageID (name version : string) : string :=
  (name ++ "@" ++ version)%string.

(** The body of the loop of [UniqueStrings]: [results] and the set
    [uniq] of the strings seen so far. *)
Definition uniqueStringsStep (st : list string * gset string) (s : string)
    : list string * gset string :=
  let '(results, uniq) := st in
  if decide (s ∈ uniq) then (results, uniq)
  else (results ++ [s], {[ s ]} ∪ uniq).

Definition UniqueStrings (ss : list string) : list string :=
  fst (foldl uniqueStringsStep ([], ∅) ss).

(** The body of the loop of [UniqueLibraries]. *)
Definition uniqueLibrariesStep (st : list types.Library * gset string)
    (lib : types.Library) : list types.Library * gset string :=
  let '(uniqLibs, unique) := st in
  let identifier := (types.Name lib ++ "@" ++ types.Version lib)%string in
  if decide (identifier ∈ unique) then (uniqLibs, unique)
  else (uniqLibs ++ [lib], {[ identifier ]} ∪ unique).

Definition UniqueLibraries (libs : list types.Library) : list types.Library :=
  fst (foldl uniqueLibrariesStep ([], ∅) libs).

(** Go maps are references: a map value is [nil] or the address of a
    table in the store. *)

(** The entries of a map value; [nil] has none. *)
Definition entries (σ : gmap nat (gmap string string)) (m : option nat)
    : gmap string string :=
  match m with
  | Some a => default ∅ (σ !! a)
  | None => ∅
  end.

(** [MergeMaps(parent, child)]: the store after the call and the map
    returned.  The loop ranges over the entries [child] has when it
    starts. *)
Definition MergeMaps (σ : gmap nat (gmap string string))
    (parent child : option nat)
    : gmap nat (gmap string string) * option nat :=
  match parent with
  | None => (σ, child)
  | Some p =>
      (<[p := map_fold (fun k v (t : gmap string string) => <[k := v]> t)
                       (entries σ parent) (entries σ child)]> σ,
       Some p)
  end.

End utils.

(** * The section-based parser (the variant of package [binary] that
    reads the build ID from the section table) *)

Module legacy.

(** An [elf.Section]: its name and the bytes its [Data()] returns (the
    caller drops the error of [Data()]). *)
Record Section_ : Type := mkSection {
  SName : string;
  SData : list byte
}.

(** The state of the loop of [Parse]. *)
Record loopState : Type := mkLoop {
  libs : list types.Library;
  checkBuildID : bool;
  buildID : gostring;
  warnings : list string
}.

Section Parser.

(** [elf.NewFile(r)] reads the section table through the handle: it gives
    the table (or an error) and the handle as its reads leave it. *)
Variable elf_NewFile : handle -> (error + list Section_) * handle.
Variable buildinfo_Read : list byte -> error + debug.BuildInfo.

(** The [for _, section := range file.Sections] loop of [getBuildID] and
    the statement after it. *)
Fixpoint findBuildID (sections : list Section_)
    : outcome (gostring * option error) :=
  match sections with
  | [] => Returned ([], Some errBuildIDNotFound)
  | section :: rest =>
      if String.eqb (SName section) ".note.go.buildid"
      then (v ← sliceFrom (SData section) 16; Returned (v, None))
      else findBuildID rest
  end.

Definition getBuildID (r : handle)
    : outcome (gostring * option error) * handle :=
  let '(file, r1) := elf_NewFile r in
  match file with
  | inl err => (Returned ([], Some err), r1)
  | inr sections => (findBuildID sections, r1)
  end.

(** The body of the [for _, dep := range info.Deps] loop; the handle is
    threaded through the call of [getBuildID]. *)
Definition parseStep (st : loopState) (r : handle) (dep : debug.Module_)
    : outcome loopState * handle :=
  if String.eqb (debug.Path dep) "" then (Returned st, r)
  else
    let mod_ := match debug.Replace dep with
                | Some m => m
                | None => dep
                end in
    let '(resolved, r1) :=
      if negb (checkBuildID st)
      then
        let '(res, r1) := getBuildID r in
        (res ≫= (fun res =>
           Returned (mkLoop (libs st) true (fst res)
                            (match snd res with
                             | Some err => [Error err]
                             | None => warnings st
                             end))), r1)
      else (Returned st, r) in
    (resolved ≫= (fun st1 =>
       Returned (mkLoop (libs st1
                         ++ [types.mkLibrary (debug.Path mod_)
                               (debug.Version mod_) (buildID st1)
                               (warnings st1)])
                        (checkBuildID st1) (buildID st1) (warnings st1))),
     r1).

Fixpoint parseLoop (st : loopState) (r : handle) (deps : list debug.Module_)
    : outcome loopState * handle :=
  match deps with
  | [] => (Returned st, r)
  | dep :: rest =>
      match parseStep st r dep with
      | (Returned st', r1) => parseLoop st' r1 rest
      | (Panicked, r1) => (Panicked, r1)
      | (OutOfFuel, r1) => (OutOfFuel, r1)
      end
  end.

Definition Parse (r : handle)
    : outcome (list types.Library + error) * handle :=
  match buildinfo_Read (content r) with
  | inl err => (Returned (inr (convertError err)), r)
  | inr info =>
      let '(st, r1) :=
        parseLoop (mkLoop [] false [] []) r (debug.Deps info) in
      (st ≫= (fun st => Returned (inl (libs st))), r1)
  end.

End Parser.

End legacy.

(** ** Auxiliary definitions for the properties of [utils] *)

(** The elements of [l] whose key is not in [seen] and occurs for the
    first time. *)
Fixpoint firstOcc {A : Type} (key : A -> string) (seen : gset string)
    (l : list A) : list A :=
  match l with
  | [] => []
  | x :: l' =>
      if decide (key x ∈ seen) then firstOcc key seen l'
      else x :: firstOcc key ({[ key x ]} ∪ seen) l'
  end.

Definition identifierOf (lib : types.Library) : string :=
  utils.PackageID (types.Name lib) (types.Version lib).

(** The string has no [@]. *)
Fixpoint atFree (s : string) : bool :=
  match s with
  | EmptyString => true
  | String c s' => negb (Ascii.eqb c "@") && atFree s'
  end.

(** A section table for the examples: a string table and a build-ID
    section of 16 header bytes and the 3-byte value [abc]. *)
Definition sampleSections : list legacy.Section_ :=
  [legacy.mkSection ".shstrtab" [x00; x01];
   legacy.mkSection ".note.go.buildid" (zeros 16 ++ ["a"; "b"; "c"]%byte);
   legacy.mkSection ".note.go.buildid" [x00]].

(** A stand-in for [elf.NewFile] on a handle: it reports
    [sampleSections] and logs one read of the 64-byte header. *)
Definition sampleOpen (r : handle) : (error + list legacy.Section_) * handle :=
  (inr sampleSections,
   mkHandle (content r) (cursor r) (log r ++ [EvReadAt 0 64])).

(** The notes of [bothImage] in a segment that declares alignment 8: the
    toolchain-native record starts 20 bytes into the segment, at a file
    offset (140) that is a multiple of 4 and not of 8. *)
Definition skewImage : list byte := noteFile 120 8 bothNotes ++ zeros 64.

(** A file of 184 bytes with no note at all: its one program header
    announces a note segment of 20 bytes at offset 50000, beyond the end
    of the file. *)
Definition strayImage : list byte :=
  elfHeader 1 ++ progHeader (mkProg PT_NOTE 50000 20 4) ++ zeros 64.

(** * Properties *)

(** ** Machine arithmetic *)

Lemma u32_small (z : Z) : 0 <= z < 2 ^ 32 -> u32 z = z.
Proof. intros H. unfold u32. apply Z.mod_small. exact H. Qed.

Lemma u64_small (z : Z) : 0 <= z < 2 ^ 64 -> u64 z = z.
Proof. intros H. unfold u64. apply Z.mod_small. exact H. Qed.

Lemma andNot_pow2 (x k : Z) :
  0 <= k -> andNot x (2 ^ k - 1) = 2 ^ k * (x / 2 ^ k).
Proof.
  intros Hk. unfold andNot.
  replace (2 ^ k - 1) with (Z.ones k) by (rewrite Z.ones_equiv; lia).
  rewrite Z.ldiff_ones_r by exact Hk.
  rewrite Z.shiftl_mul_pow2, Z.shiftr_div_pow2 by exact Hk.
  lia.
Qed.

Lemma roundUp_0 (x : Z) : roundUp 0 x = x.
Proof. reflexivity. Qed.

Lemma roundUp_bounds (a x : Z) :
  0 < a -> x <= roundUp a x < x + a.
Proof.
  intros Ha. unfold roundUp.
  destruct (Z.eqb_spec a 0) as [->|_]; [lia|].
  pose proof (Z.div_mod (x + a - 1) a ltac:(lia)) as Hdm.
  pose proof (Z.mod_pos_bound (x + a - 1) a Ha) as Hb.
  lia.
Qed.

Lemma roundUp_multiple (a x : Z) : (a | roundUp a x) \/ a = 0.
Proof.
  unfold roundUp. destruct (Z.eqb_spec a 0) as [->|_]; [now right|].
  left. exists ((x + a - 1) / a). lia.
Qed.

(** [roundUp a x] is the least multiple of [a] from [x] on. *)
Lemma roundUp_least (a x m : Z) :
  0 < a -> (a | m) -> x <= m -> roundUp a x <= m.
Proof.
  intros Ha [q ->] Hx. unfold roundUp.
  destruct (Z.eqb_spec a 0) as [->|_]; [lia|].
  assert ((x + a - 1) / a <= q); [|nia].
  apply Z.lt_succ_r. apply Z.div_lt_upper_bound; lia.
Qed.

Lemma roundUp_ge (a x : Z) : 0 <= a -> x <= roundUp a x.
Proof.
  intros Ha. destruct (Z.eq_dec a 0) as [->|Hn]; [rewrite roundUp_0; lia|].
  apply roundUp_bounds. lia.
Qed.

Lemma align4_roundUp (x : Z) :
  0 <= x -> x + 3 < 2 ^ 32 -> align4 x = roundUp 4 x.
Proof.
  intros H0 H1. unfold align4. rewrite u32_small by lia.
  change 3 with (2 ^ 2 - 1) at 2. rewrite andNot_pow2 by lia.
  unfold roundUp. change (4 =? 0) with false. cbv iota.
  change (2 ^ 2) with 4. f_equal. f_equal. lia.
Qed.

Lemma alignedOff_roundUp (off a : Z) :
  isPow2 a -> 0 <= off -> off + a < 2 ^ 64 ->
  andNot (u64 (off + a - 1)) (u64 (a - 1)) = roundUp a off.
Proof.
  intros (k & Hk & ->) H0 H1.
  assert (0 < 2 ^ k) by (apply Z.pow_pos_nonneg; lia).
  rewrite !u64_small by lia. rewrite andNot_pow2 by exact Hk.
  unfold roundUp. destruct (Z.eqb_spec (2 ^ k) 0); [lia|reflexivity].
Qed.

(** ** Slices and byte order *)

Lemma len_nonneg {A : Type} (s : list A) : 0 <= len s.
Proof. unfold len. lia. Qed.

Lemma len_app {A : Type} (s t : list A) : len (s ++ t) = len s + len t.
Proof. unfold len. rewrite length_app. lia. Qed.

Lemma len_take {A : Type} (s : list A) (n : Z) :
  0 <= n <= len s -> len (take (Z.to_nat n) s) = n.
Proof. unfold len. intros H. rewrite length_take. lia. Qed.

Lemma len_drop {A : Type} (s : list A) (n : Z) :
  0 <= n <= len s -> len (drop (Z.to_nat n) s) = len s - n.
Proof. unfold len. intros H. rewrite length_drop. lia. Qed.

Lemma slice_ok (s : list byte) (lo hi : Z) :
  0 <= lo <= hi -> hi <= len s ->
  slice s lo hi = Returned (take (Z.to_nat (hi - lo)) (drop (Z.to_nat lo) s)).
Proof.
  intros H1 H2. unfold slice.
  destruct (Z.leb_spec 0 lo); [|lia].
  destruct (Z.leb_spec lo hi); [|lia].
  destruct (Z.leb_spec hi (len s)); [|lia].
  reflexivity.
Qed.

Lemma slice_panics (s : list byte) (lo hi : Z) :
  hi < lo \/ len s < hi -> slice s lo hi = Panicked.
Proof.
  intros H. unfold slice.
  destruct (Z.leb_spec 0 lo); [|reflexivity].
  destruct (Z.leb_spec lo hi); [|reflexivity].
  destruct (Z.leb_spec hi (len s)); [lia|reflexivity].
Qed.

Lemma sliceFrom_ok (s : list byte) (lo : Z) :
  0 <= lo <= len s -> sliceFrom s lo = Returned (drop (Z.to_nat lo) s).
Proof.
  intros H. unfold sliceFrom. rewrite slice_ok by lia.
  f_equal. apply take_ge. rewrite length_drop. unfold len. lia.
Qed.

Lemma Uint32_app (bo : ByteOrder) (h t : list byte) :
  length h = 4%nat -> Uint32 bo (h ++ t) = Uint32 bo h.
Proof.
  intros H. do 4 (destruct h as [|? h]; [discriminate|]).
  destruct h; [reflexivity|discriminate].
Qed.

Lemma byteZ_range (b : byte) : 0 <= byteZ b < 256.
Proof.
  unfold byteZ. pose proof (Byte.to_N_bounded b). lia.
Qed.

Lemma lor_shiftl_add (a b k : Z) :
  0 <= k -> 0 <= a < 2 ^ k -> Z.lor a (Z.shiftl b k) = a + b * 2 ^ k.
Proof.
  intros Hk Ha.
  assert (Hland : Z.land a (Z.shiftl b k) = 0).
  { apply Z.bits_inj'. intros n Hn.
    rewrite Z.land_spec, Z.bits_0.
    destruct (Z.lt_ge_cases n k) as [Hlt|Hge].
    - rewrite Z.shiftl_spec_low by exact Hlt. apply andb_false_r.
    - destruct (Z.eq_dec a 0) as [->|Hnz]; [now rewrite Z.bits_0|].
      rewrite (Z.bits_above_log2 a n); [reflexivity|lia|].
      apply Z.lt_le_trans with k; [|exact Hge].
      apply Z.log2_lt_pow2; lia. }
  rewrite <- Z.lxor_lor by exact Hland.
  rewrite <- Z.add_nocarry_lxor by exact Hland.
  rewrite Z.shiftl_mul_pow2 by exact Hk. reflexivity.
Qed.

Lemma lor_bytes (b0 b1 b2 b3 : byte) :
  Z.lor (Z.lor (Z.lor (byteZ b0) (Z.shiftl (byteZ b1) 8))
               (Z.shiftl (byteZ b2) 16))
        (Z.shiftl (byteZ b3) 24)
  = word32 b0 b1 b2 b3.
Proof.
  pose proof (byteZ_range b0). pose proof (byteZ_range b1).
  pose proof (byteZ_range b2). pose proof (byteZ_range b3).
  unfold word32.
  rewrite (lor_shiftl_add (byteZ b0)) by lia.
  rewrite (lor_shiftl_add (byteZ b0 + _)) by lia.
  rewrite (lor_shiftl_add (byteZ b0 + _ + _)) by lia.
  reflexivity.
Qed.

Lemma Uint32_sum (bo : ByteOrder) (b0 b1 b2 b3 : byte) (t : list byte) :
  Uint32 bo (b0 :: b1 :: b2 :: b3 :: t)
  = Returned match bo with
             | LittleEndian => word32 b0 b1 b2 b3
             | BigEndian => word32 b3 b2 b1 b0
             end.
Proof. destruct bo; cbn [Uint32]; rewrite lor_bytes; reflexivity. Qed.

Lemma word32_range (b0 b1 b2 b3 : byte) : 0 <= word32 b0 b1 b2 b3 < 2 ^ 32.
Proof.
  pose proof (byteZ_range b0). pose proof (byteZ_range b1).
  pose proof (byteZ_range b2). pose proof (byteZ_range b3).
  unfold word32. lia.
Qed.

Lemma Uint32_range (bo : ByteOrder) (b : list byte) (v : Z) :
  Uint32 bo b = Returned v -> 0 <= v < 2 ^ 32.
Proof.
  do 4 (destruct b as [|? b]; [discriminate|]).
  rewrite Uint32_sum. intros [= <-]. destruct bo; apply word32_range.
Qed.

Lemma Uint32_returns (bo : ByteOrder) (b : list byte) :
  4 <= len b -> exists v, Uint32 bo b = Returned v.
Proof.
  unfold len. intros H.
  do 4 (destruct b as [|? b]; [simpl in H; lia|]).
  rewrite Uint32_sum. eauto.
Qed.

Lemma bind_Returned {A B : Type} (a : A) (k : A -> outcome B) :
  (Returned a ≫= k) = k a.
Proof. reflexivity. Qed.

(** Case analysis on the first computation of a sequence that returns. *)
Ltac run_bind :=
  match goal with
  | |- (?m ≫= _) = Returned _ -> _ =>
      destruct m as [?| |];
      [rewrite bind_Returned
      |unfold mbind, outcome_bind; discriminate
      |unfold mbind, outcome_bind; discriminate]
  end.

(** ** One iteration of the note walk *)

Lemma noteIter_fields (bo : ByteOrder) (align : Z) (gnu : gostring)
    (filesz off : Z) (note : list byte) (nameSize valSize tag : Z) :
  16 <= len note ->
  Uint32 bo note = Returned nameSize ->
  Uint32 bo (drop 4 note) = Returned valSize ->
  Uint32 bo (drop 8 note) = Returned tag ->
  noteIter bo align gnu filesz off note
  = iterBody align gnu filesz off note nameSize valSize tag.
Proof.
  intros Hlen H1 H2 H3. unfold noteIter.
  rewrite H1, bind_Returned.
  unfold sizeOfNoteNameAndValue, offsetToNoteFields.
  rewrite (sliceFrom_ok note 4) by lia. rewrite bind_Returned.
  change (Z.to_nat 4) with 4%nat. rewrite H2, bind_Returned.
  rewrite (sliceFrom_ok note 8) by lia. rewrite bind_Returned.
  change (Z.to_nat 8) with 8%nat. rewrite H3, bind_Returned.
  rewrite (slice_ok note 12 (12 + 4)) by lia. rewrite bind_Returned.
  reflexivity.
Qed.

Lemma u32_le (z : Z) : 0 <= z -> u32 z <= z.
Proof. intros H. unfold u32. apply Z.mod_le; lia. Qed.

(** The value a matching record yields. *)
Lemma guarded_value (note : list byte) (nameSize valSize : Z) :
  0 <= valSize -> offsetToNoteData + valSize < 2 ^ 32 ->
  noteGuard nameSize valSize note = true ->
  slice note offsetToNoteData (u32 (offsetToNoteData + valSize))
  = Returned (take (Z.to_nat valSize) (drop 16 note)).
Proof.
  unfold noteGuard, offsetToNoteData. intros H0 H1 Hg.
  apply andb_true_iff in Hg as [_ Hle]. apply Z.leb_le in Hle.
  rewrite u32_small in Hle |- * by lia.
  pose proof (u32_le (len note) (len_nonneg note)).
  rewrite slice_ok by lia.
  replace (16 + valSize - 16) with valSize by lia. reflexivity.
Qed.

Lemma gnuAfter_ok (gnu : gostring) (note : list byte)
    (nameSize valSize tag : Z) :
  0 <= valSize ->
  (nameSize = 4 -> offsetToNoteData + valSize < 2 ^ 32) ->
  (if noteGuard nameSize valSize note && (tag =? gnuBuildIDTag)
      && bytes_Equal (take 4 (drop 12 note)) elfGNUNote
   then slice note offsetToNoteData (u32 (offsetToNoteData + valSize))
   else Returned gnu)
  = Returned (gnuAfter gnu note nameSize valSize tag).
Proof.
  intros Hv Hfit. unfold gnuAfter.
  destruct (noteGuard nameSize valSize note) eqn:Hg; [|reflexivity].
  destruct ((tag =? gnuBuildIDTag)
            && bytes_Equal (take 4 (drop 12 note)) elfGNUNote) eqn:Hc;
    rewrite <- andb_assoc, Hc; cbn [andb]; [|reflexivity].
  apply (guarded_value note nameSize); [lia| |exact Hg].
  apply Hfit. unfold noteGuard in Hg. apply andb_true_iff in Hg as [Hn4 _].
  apply Z.eqb_eq in Hn4. exact Hn4.
Qed.

Lemma iterBody_return (align : Z) (gnu : gostring) (filesz off : Z)
    (note : list byte) (nameSize valSize tag : Z) :
  0 <= valSize -> offsetToNoteData + valSize < 2 ^ 32 ->
  noteGuard nameSize valSize note && (tag =? elfGoBuildIDTag)
    && bytes_Equal (take 4 (drop 12 note)) elfGoNote = true ->
  iterBody align gnu filesz off note nameSize valSize tag
  = Returned (IterReturn (take (Z.to_nat valSize) (drop 16 note))).
Proof.
  intros Hv Hfit Hgo. unfold iterBody. rewrite Hgo.
  rewrite (guarded_value note nameSize); [reflexivity|lia|lia|].
  apply andb_true_iff in Hgo as [Hgo _].
  apply andb_true_iff in Hgo as [Hgo _]. exact Hgo.
Qed.

Lemma iterBody_break (align : Z) (gnu : gostring) (filesz off : Z)
    (note : list byte) (nameSize valSize tag : Z) :
  0 <= nameSize -> 0 <= valSize ->
  12 + roundUp 4 nameSize + roundUp 4 valSize < 2 ^ 32 ->
  noteGuard nameSize valSize note && (tag =? elfGoBuildIDTag)
    && bytes_Equal (take 4 (drop 12 note)) elfGoNote = false ->
  filesz <= 12 + roundUp 4 nameSize + roundUp 4 valSize ->
  iterBody align gnu filesz off note nameSize valSize tag
  = Returned (IterBreak (gnuAfter gnu note nameSize valSize tag)).
Proof.
  intros Hn Hv Hrec Hgo Hlast.
  pose proof (roundUp_bounds 4 nameSize ltac:(lia)) as Hrn.
  pose proof (roundUp_bounds 4 valSize ltac:(lia)) as Hrv.
  unfold iterBody. rewrite Hgo.
  rewrite gnuAfter_ok, bind_Returned.
  - rewrite !align4_roundUp by lia. unfold offsetToNoteFields.
    rewrite u32_small by lia.
    destruct (Z.leb_spec filesz (12 + roundUp 4 nameSize + roundUp 4 valSize));
      [reflexivity|lia].
  - exact Hv.
  - intros ->. change (roundUp 4 4) with 4 in *. unfold offsetToNoteData. lia.
Qed.

Lemma iterBody_advance (align : Z) (gnu : gostring) (filesz off : Z)
    (note : list byte) (nameSize valSize tag : Z) :
  filesz = len note ->
  0 <= nameSize -> 0 <= valSize ->
  12 + roundUp 4 nameSize + roundUp 4 valSize < 2 ^ 32 ->
  noteGuard nameSize valSize note && (tag =? elfGoBuildIDTag)
    && bytes_Equal (take 4 (drop 12 note)) elfGoNote = false ->
  12 + roundUp 4 nameSize + roundUp 4 valSize < filesz ->
  0 <= off -> off + filesz + align < 2 ^ 64 ->
  align = 0 \/ isPow2 align ->
  roundUp align (off + (12 + roundUp 4 nameSize + roundUp 4 valSize)) - off
    <= filesz ->
  iterBody align gnu filesz off note nameSize valSize tag
  = Returned
      (IterNext (gnuAfter gnu note nameSize valSize tag)
         (filesz - (roundUp align
                      (off + (12 + roundUp 4 nameSize + roundUp 4 valSize)) - off))
         (roundUp align (off + (12 + roundUp 4 nameSize + roundUp 4 valSize)))
         (drop (Z.to_nat
                  (roundUp align
                     (off + (12 + roundUp 4 nameSize + roundUp 4 valSize)) - off))
               note)).
Proof.
  intros Hfs Hn Hv Hrec Hgo Hmore Hoff Hwrap Halign Hfit.
  pose proof (roundUp_bounds 4 nameSize ltac:(lia)) as Hrn.
  pose proof (roundUp_bounds 4 valSize ltac:(lia)) as Hrv.
  set (rec := 12 + roundUp 4 nameSize + roundUp 4 valSize) in *.
  unfold iterBody. rewrite Hgo.
  rewrite gnuAfter_ok, bind_Returned; [|exact Hv|].
  2:{ intros ->. change (roundUp 4 4) with 4 in *.
      unfold offsetToNoteData. lia. }
  assert (0 <= align) as Halign0.
  { destruct Halign as [->|(k & Hk & ->)]; [lia|].
    apply Z.pow_nonneg; lia. }
  rewrite !align4_roundUp by lia.
  unfold offsetToNoteFields. fold rec.
  rewrite (u32_small rec) by lia.
  destruct (Z.leb_spec filesz rec) as [|_]; [lia|].
  rewrite (u64_small (off + rec)) by lia.
  destruct Halign as [->|Hpow].
  - change (0 =? 0) with true. cbv iota beta.
    rewrite roundUp_0 in *.
    replace (off + rec - off) with rec in * by lia.
    rewrite (u64_small (filesz - rec)) by lia.
    rewrite sliceFrom_ok by lia. reflexivity.
  - assert (0 < align) as Hpos.
    { destruct Hpow as (k & Hk & ->). apply Z.pow_pos_nonneg; lia. }
    destruct (Z.eqb_spec align 0) as [|_]; [lia|].
    rewrite alignedOff_roundUp by (try exact Hpow; lia).
    pose proof (roundUp_bounds align (off + rec) Hpos) as Hb.
    set (next := roundUp align (off + rec)) in *.
    rewrite (u64_small (next - (off + rec))) by lia.
    replace (rec + (next - (off + rec))) with (next - off) by lia.
    rewrite (u64_small (next - off)) by lia.
    rewrite (u64_small (filesz - (next - off))) by lia.
    rewrite sliceFrom_ok by lia. reflexivity.
Qed.

(** ** A record image under the walk *)

Lemma bytes_Equal_true (a b : list byte) : bytes_Equal a b = true <-> a = b.
Proof. unfold bytes_Equal. apply bool_decide_eq_true. Qed.

Lemma bytes_Equal_false (a b : list byte) : bytes_Equal a b = false <-> a <> b.
Proof. unfold bytes_Equal. apply bool_decide_eq_false. Qed.

Lemma RecordAt_len (bo : ByteOrder) (r : NoteRecord) (bs : list byte) :
  RecordAt bo r bs ->
  len bs = 12 + roundUp 4 (len (nName r)) + roundUp 4 (len (nDesc r)).
Proof.
  intros (h1 & h2 & h3 & pn & pd & -> & L1 & L2 & L3 & _ & _ & _ & Hn & Hd).
  rewrite !len_app, <- Hn, <- Hd, !len_app. unfold len. lia.
Qed.

Lemma RecordAt_fields (bo : ByteOrder) (r : NoteRecord) (bs rest : list byte) :
  RecordAt bo r bs ->
  Uint32 bo (bs ++ rest) = Returned (len (nName r))
  /\ Uint32 bo (drop 4 (bs ++ rest)) = Returned (len (nDesc r))
  /\ Uint32 bo (drop 8 (bs ++ rest)) = Returned (nTag r).
Proof.
  intros (h1 & h2 & h3 & pn & pd & -> & L1 & L2 & L3 & U1 & U2 & U3 & _).
  rewrite <- !app_assoc.
  rewrite (Uint32_app bo h1) by exact L1.
  rewrite (drop_app_length' h1 _ 4) by (symmetry; exact L1).
  rewrite (Uint32_app bo h2) by exact L2.
  replace (drop 8 (h1 ++ h2 ++ h3 ++ nName r ++ pn ++ nDesc r ++ pd ++ rest))
    with (h3 ++ nName r ++ pn ++ nDesc r ++ pd ++ rest).
  - rewrite (Uint32_app bo h3) by exact L3. auto.
  - rewrite (app_assoc h1 h2). symmetry. apply drop_app_length'.
    rewrite length_app. lia.
Qed.

(** With a four-byte name the image has no name padding: the name is at
    12..16 and the value from 16 on. *)
Lemma RecordAt_name4 (bo : ByteOrder) (r : NoteRecord) (bs rest : list byte) :
  RecordAt bo r bs -> len (nName r) = 4 ->
  take 4 (drop 12 (bs ++ rest)) = nName r
  /\ take (Z.to_nat (len (nDesc r))) (drop 16 (bs ++ rest)) = nDesc r
  /\ 16 + len (nDesc r) <= len bs.
Proof.
  intros HR H4. pose proof (RecordAt_len bo r bs HR) as Hlen.
  destruct HR as (h1 & h2 & h3 & pn & pd & -> & L1 & L2 & L3 & _ & _ & _ & Hn & Hd).
  rewrite H4 in Hn, Hlen. change (roundUp 4 4) with 4 in Hn, Hlen.
  assert (pn = []) as ->.
  { rewrite len_app in Hn. unfold len in *. destruct pn; [reflexivity|].
    simpl in Hn. lia. }
  rewrite app_nil_r in *.
  pose proof (roundUp_ge 4 (len (nDesc r)) ltac:(lia)) as Hge.
  assert (Hd12 : forall t, drop 12 (h1 ++ h2 ++ h3 ++ t) = t).
  { intros t. rewrite (app_assoc h1 h2), (app_assoc (h1 ++ h2) h3).
    apply drop_app_length'. rewrite !length_app. lia. }
  rewrite <- !app_assoc. split; [|split; [|lia]].
  - rewrite Hd12. apply take_app_length'. unfold len in H4. lia.
  - change 16%nat with (12 + 4)%nat. rewrite <- drop_drop, Hd12.
    rewrite (drop_app_length' (nName r) _ 4) by (unfold len in H4; lia).
    apply take_app_length'. unfold len. lia.
Qed.

Lemma RecordAt_guard (bo : ByteOrder) (r : NoteRecord) (bs rest : list byte) :
  RecordAt bo r bs -> len (bs ++ rest) < 2 ^ 32 ->
  noteGuard (len (nName r)) (len (nDesc r)) (bs ++ rest)
  = (len (nName r) =? 4).
Proof.
  intros HR Hlt. unfold noteGuard, sizeOfNoteNameAndValue, offsetToNoteData.
  destruct (Z.eqb_spec (len (nName r)) 4) as [H4|]; [|reflexivity].
  destruct (RecordAt_name4 bo r bs rest HR H4) as (_ & _ & Hfit).
  pose proof (len_nonneg (nDesc r)). pose proof (len_nonneg rest).
  rewrite len_app in Hlt |- *.
  rewrite !u32_small by lia.
  destruct (Z.leb_spec (16 + len (nDesc r)) (len bs + len rest)); [reflexivity|lia].
Qed.

Lemma name_len_4 (name pat : list byte) :
  length pat = 4%nat -> len name <> 4 -> bytes_Equal name pat = false.
Proof.
  intros Hp Hn. apply bytes_Equal_false. intros ->. unfold len in Hn. lia.
Qed.

Lemma RecordAt_isGo (bo : ByteOrder) (r : NoteRecord) (bs rest : list byte) :
  RecordAt bo r bs -> len (bs ++ rest) < 2 ^ 32 ->
  noteGuard (len (nName r)) (len (nDesc r)) (bs ++ rest)
    && (nTag r =? elfGoBuildIDTag)
    && bytes_Equal (take 4 (drop 12 (bs ++ rest))) elfGoNote
  = isGo r.
Proof.
  intros HR Hlt. rewrite (RecordAt_guard bo r bs rest HR Hlt). unfold isGo.
  destruct (Z.eqb_spec (len (nName r)) 4) as [H4|Hn4].
  - destruct (RecordAt_name4 bo r bs rest HR H4) as (-> & _ & _).
    cbn [andb]. apply andb_comm.
  - rewrite (name_len_4 (nName r) elfGoNote) by (try reflexivity; exact Hn4).
    reflexivity.
Qed.

Lemma RecordAt_gnuAfter (bo : ByteOrder) (r : NoteRecord) (bs rest : list byte)
    (gnu : gostring) :
  RecordAt bo r bs -> len (bs ++ rest) < 2 ^ 32 ->
  gnuAfter gnu (bs ++ rest) (len (nName r)) (len (nDesc r)) (nTag r)
  = if isGNU r then nDesc r else gnu.
Proof.
  intros HR Hlt. unfold gnuAfter.
  rewrite (RecordAt_guard bo r bs rest HR Hlt). unfold isGNU.
  destruct (Z.eqb_spec (len (nName r)) 4) as [H4|Hn4].
  - destruct (RecordAt_name4 bo r bs rest HR H4) as (-> & -> & _).
    cbn [andb]. rewrite andb_comm. reflexivity.
  - rewrite (name_len_4 (nName r) elfGNUNote) by (try reflexivity; exact Hn4).
    reflexivity.
Qed.

(** ** The walk over a laid-out segment *)

Lemma short_record (bo : ByteOrder) (r : NoteRecord) (bs : list byte) :
  RecordAt bo r bs -> len bs < 16 -> isGo r = false /\ isGNU r = false.
Proof.
  intros HR Hlt. pose proof (RecordAt_len bo r bs HR) as Hlen.
  pose proof (roundUp_ge 4 (len (nName r)) ltac:(lia)).
  pose proof (roundUp_ge 4 (len (nDesc r)) ltac:(lia)).
  pose proof (len_nonneg (nDesc r)).
  unfold isGo, isGNU.
  rewrite !name_len_4 by (try reflexivity; lia). auto.
Qed.

Lemma layout_short (bo : ByteOrder) (align off : Z) (bs : list byte)
    (recs : list NoteRecord) :
  NoteLayout bo align off bs recs -> len bs < 16 ->
  forall gnu, walkSpec gnu recs = WalkDone gnu.
Proof.
  induction 1 as [off tail Ht|off r bs HR|off r bs pad rest recs HR Hpad HL IH];
    intros Hlt gnu; cbn [walkSpec].
  - reflexivity.
  - destruct (short_record bo r bs HR Hlt) as [-> ->]. reflexivity.
  - rewrite !len_app in Hlt.
    pose proof (len_nonneg pad). pose proof (len_nonneg rest).
    pose proof (len_nonneg bs).
    destruct (short_record bo r bs HR ltac:(lia)) as [-> ->].
    apply IH. lia.
Qed.

Lemma noteLoop_short (fuel : nat) (bo : ByteOrder) (align : Z)
    (gnu : gostring) (filesz off : Z) (note : list byte) :
  filesz < 16 ->
  noteLoop fuel bo align gnu filesz off note = Returned (WalkDone gnu).
Proof.
  intros H. destruct fuel; cbn [noteLoop]; unfold offsetToNoteData;
    destruct (Z.ltb_spec filesz 16); (reflexivity || lia).
Qed.

Lemma noteLoop_step (fuel : nat) (bo : ByteOrder) (align : Z)
    (gnu : gostring) (filesz off : Z) (note : list byte) :
  16 <= filesz ->
  noteLoop (S fuel) bo align gnu filesz off note
  = (r ← noteIter bo align gnu filesz off note;
     match r with
     | IterReturn v => Returned (WalkReturn v)
     | IterBreak gnu' => Returned (WalkDone gnu')
     | IterNext gnu' filesz' off' note' =>
         noteLoop fuel bo align gnu' filesz' off' note'
     end).
Proof.
  intros H. cbn [noteLoop]. unfold offsetToNoteData.
  destruct (Z.ltb_spec filesz 16); [lia|reflexivity].
Qed.

(** One iteration on a record image followed by [rest]. *)
Lemma noteIter_record (bo : ByteOrder) (align : Z) (gnu : gostring)
    (off : Z) (r : NoteRecord) (bs rest : list byte) :
  RecordAt bo r bs ->
  16 <= len (bs ++ rest) < 2 ^ 32 ->
  0 <= off -> off + len (bs ++ rest) + align < 2 ^ 64 ->
  align = 0 \/ isPow2 align ->
  roundUp align (off + len bs) - off <= len (bs ++ rest) \/ rest = [] ->
  noteIter bo align gnu (len (bs ++ rest)) off (bs ++ rest)
  = Returned
      (if isGo r then IterReturn (nDesc r)
       else
         let gnu' := if isGNU r then nDesc r else gnu in
         if len rest =? 0 then IterBreak gnu'
         else
           IterNext gnu'
             (len (bs ++ rest) - (roundUp align (off + len bs) - off))
             (roundUp align (off + len bs))
             (drop (Z.to_nat (roundUp align (off + len bs) - off)) (bs ++ rest))).
Proof.
  intros HR Hlen Hoff Hwrap Halign Hfit.
  destruct (RecordAt_fields bo r bs rest HR) as (U1 & U2 & U3).
  pose proof (RecordAt_len bo r bs HR) as Hbs.
  pose proof (len_nonneg (nName r)) as Hn0.
  pose proof (len_nonneg (nDesc r)) as Hd0.
  pose proof (len_nonneg rest) as Hr0.
  pose proof (roundUp_ge 4 (len (nName r)) ltac:(lia)) as Hrn.
  pose proof (roundUp_ge 4 (len (nDesc r)) ltac:(lia)) as Hrd.
  assert (Hlt : len (bs ++ rest) < 2 ^ 32) by lia.
  pose proof (RecordAt_isGo bo r bs rest HR Hlt) as HGo.
  rewrite (noteIter_fields bo align gnu _ off _ _ _ _ (proj1 Hlen) U1 U2 U3).
  rewrite len_app in Hlen, Hwrap, Hfit.
  destruct (isGo r) eqn:Hgo.
  - rewrite iterBody_return; [|lia| |exact HGo].
    + destruct (RecordAt_name4 bo r bs rest HR) as (_ & -> & _); [|reflexivity].
      apply andb_true_iff in HGo as [HGo _].
      apply andb_true_iff in HGo as [HGo _].
      rewrite (RecordAt_guard bo r bs rest HR Hlt) in HGo.
      apply Z.eqb_eq in HGo. exact HGo.
    + apply andb_true_iff in HGo as [HGo _].
      apply andb_true_iff in HGo as [HGo _].
      rewrite (RecordAt_guard bo r bs rest HR Hlt) in HGo.
      apply Z.eqb_eq in HGo.
      destruct (RecordAt_name4 bo r bs rest HR HGo) as (_ & _ & Hf).
      unfold offsetToNoteData. lia.
  - cbv zeta. pose proof (RecordAt_gnuAfter bo r bs rest gnu HR Hlt) as HG.
    destruct (Z.eqb_spec (len rest) 0) as [Hz|Hnz].
    + rewrite iterBody_break; [rewrite HG; reflexivity|lia|lia|lia|exact HGo|].
      rewrite len_app. lia.
    + destruct Hfit as [Hfit| ->]; [|unfold len in Hnz; simpl in Hnz; lia].
      rewrite len_app. rewrite Hbs in *.
      rewrite iterBody_advance;
        [rewrite HG; reflexivity|rewrite len_app; lia|lia|lia|lia|exact HGo
        |lia|lia|lia|exact Halign|lia].
Qed.

(** The walk over a laid-out segment computes [walkSpec], with fuel to
    spare as soon as there is one unit per byte. *)
Lemma noteLoop_layout (bo : ByteOrder) (align off : Z) (bs : list byte)
    (recs : list NoteRecord) :
  NoteLayout bo align off bs recs ->
  forall (fuel : nat) (gnu : gostring),
    (length bs <= fuel)%nat ->
    len bs < 2 ^ 32 -> 0 <= off -> off + len bs + align < 2 ^ 64 ->
    align = 0 \/ isPow2 align ->
    noteLoop fuel bo align gnu (len bs) off bs = Returned (walkSpec gnu recs).
Proof.
  induction 1 as [off tail Ht|off r bs HR|off r bs pad rest recs HR Hpad HL IH];
    intros fuel gnu Hfuel Hlt Hoff Hwrap Halign.
  - rewrite noteLoop_short by exact Ht. reflexivity.
  - destruct (Z.lt_ge_cases (len bs) 16) as [Hs|Hge].
    + rewrite noteLoop_short by exact Hs. cbn [walkSpec].
      destruct (short_record bo r bs HR Hs) as [-> ->]. reflexivity.
    + destruct fuel as [|fuel]; [unfold len in Hge; lia|].
      rewrite noteLoop_step by exact Hge.
      rewrite <- (app_nil_r bs).
      rewrite (noteIter_record bo align gnu off r bs []);
        [|exact HR|rewrite app_nil_r; lia|exact Hoff|rewrite app_nil_r; lia
         |exact Halign|right; reflexivity].
      rewrite bind_Returned. cbn [walkSpec].
      destruct (isGo r); [reflexivity|]. reflexivity.
  - set (note := bs ++ pad ++ rest) in *.
    destruct (Z.lt_ge_cases (len note) 16) as [Hs|Hge].
    + rewrite noteLoop_short by exact Hs. f_equal. symmetry.
      apply (layout_short bo align off note); [|exact Hs].
      apply NL_more; assumption.
    + destruct fuel as [|fuel]; [unfold len in Hge; lia|].
      rewrite noteLoop_step by exact Hge.
      pose proof (len_nonneg bs). pose proof (len_nonneg pad).
      pose proof (len_nonneg rest).
      assert (Hnote : len note = len bs + len pad + len rest).
      { unfold note. rewrite !len_app. lia. }
      unfold note at 1 2.
      rewrite (noteIter_record bo align gnu off r bs (pad ++ rest));
        [|exact HR|fold note; lia|exact Hoff|fold note; lia|exact Halign
         |left; fold note; lia].
      rewrite bind_Returned. cbn [walkSpec]. fold note.
      destruct (isGo r); [reflexivity|]. cbv zeta.
      destruct (Z.eqb_spec (len (pad ++ rest)) 0) as [Hz|Hnz].
      * rewrite len_app in Hz. f_equal. symmetry.
        apply (layout_short bo align (off + len bs + len pad) rest);
          [exact HL|lia].
      * rewrite <- Hpad.
        replace (off + len bs + len pad - off) with (len bs + len pad) by lia.
        replace (len note - (len bs + len pad)) with (len rest) by lia.
        replace (drop (Z.to_nat (len bs + len pad)) note) with rest.
        2:{ unfold note. rewrite app_assoc. symmetry.
            apply drop_app_length'. rewrite length_app. unfold len. lia. }
        apply IH; [|lia|lia|lia|exact Halign].
        pose proof (RecordAt_len bo r bs HR) as Hbs.
        pose proof (roundUp_ge 4 (len (nName r)) ltac:(lia)).
        pose proof (roundUp_ge 4 (len (nDesc r)) ltac:(lia)).
        pose proof (len_nonneg (nName r)). pose proof (len_nonneg (nDesc r)).
        unfold note in Hfuel. rewrite !length_app in Hfuel.
        unfold len in *. lia.
Qed.

(** ** Loading a segment and scanning the program headers *)

Lemma loadNote_content (h : handle) (data : list byte) (p : Prog) :
  content (snd (loadNote h data p)) = content h.
Proof.
  unfold loadNote.
  destruct (u64 (Off p + Filesz p) <? len data); [reflexivity|].
  unfold Seek. destruct (int64 (Off p) <? 0); [reflexivity|].
  destruct (2 ^ 63 <=? Filesz p); [reflexivity|].
  unfold ReadFull. cbn [content cursor log].
  destruct (Filesz p <=? 0); [reflexivity|].
  repeat match goal with
         | |- context [if ?c then _ else _] => destruct c
         end; reflexivity.
Qed.

Lemma int64_small (z : Z) : 0 <= z < 2 ^ 63 -> int64 z = z.
Proof.
  intros H. unfold int64. rewrite u64_small by lia.
  destruct (Z.ltb_spec z (2 ^ 63)); [reflexivity|lia].
Qed.

(** The seek-and-read path of [loadNote], on a segment that the file
    holds entirely. *)
Lemma loadNote_seek (h : handle) (data : list byte) (p : Prog) :
  0 <= Off p -> 0 < Filesz p ->
  len data <= Off p + Filesz p ->
  Off p + Filesz p <= len (content h) -> Off p + Filesz p < 2 ^ 63 ->
  loadNote h data p
  = (Returned (inl (take (Z.to_nat (Filesz p))
                         (drop (Z.to_nat (Off p)) (content h)))),
     mkHandle (content h) (Off p + Filesz p)
              (log h ++ [EvSeek (Off p); EvRead (Filesz p)])).
Proof.
  intros Hoff Hsz Hout Hin Hmax. unfold loadNote.
  rewrite u64_small by lia.
  destruct (Z.ltb_spec (Off p + Filesz p) (len data)) as [|_]; [lia|].
  rewrite int64_small by lia. unfold Seek.
  destruct (Z.ltb_spec (Off p) 0) as [|_]; [lia|].
  destruct (Z.leb_spec (2 ^ 63) (Filesz p)) as [|_]; [lia|].
  unfold ReadFull. cbn [content cursor log].
  destruct (Z.leb_spec (Filesz p) 0) as [|_]; [lia|].
  rewrite len_take by (rewrite len_drop; lia).
  destruct (Z.eqb_spec (Filesz p) 0) as [|_]; [lia|].
  destruct (Z.ltb_spec (Filesz p) (Filesz p)) as [|_]; [lia|].
  rewrite <- app_assoc. reflexivity.
Qed.

(** The in-window path of [loadNote]. *)
Lemma loadNote_window (h : handle) (data : list byte) (p : Prog) :
  0 <= Off p -> 0 <= Filesz p -> Off p + Filesz p < len data ->
  Off p + Filesz p < 2 ^ 64 ->
  loadNote h data p
  = (Returned (inl (take (Z.to_nat (Filesz p))
                         (drop (Z.to_nat (Off p)) data))), h).
Proof.
  intros Hoff Hsz Hin Hmax. unfold loadNote.
  rewrite u64_small by lia.
  destruct (Z.ltb_spec (Off p + Filesz p) (len data)) as [_|]; [|lia].
  rewrite slice_ok by lia. rewrite bind_Returned.
  replace (Off p + Filesz p - Off p) with (Filesz p) by lia. reflexivity.
Qed.

Lemma isNoteSegment_skip (p : Prog) :
  negb (Typ p =? PT_NOTE) || (Filesz p <? offsetToNoteData)
  = negb (isNoteSegment p).
Proof.
  unfold isNoteSegment. rewrite negb_andb. f_equal.
  rewrite Z.leb_antisym. rewrite negb_involutive. reflexivity.
Qed.

Lemma SegmentBytes_load (h : handle) (data : list byte) (p : Prog)
    (bs : list byte) :
  0 <= Off p -> 0 < Filesz p -> Off p + Filesz p < 2 ^ 63 ->
  SegmentBytes (content h) data p bs ->
  fst (loadNote h data p) = Returned (inl bs) /\ len bs = Filesz p.
Proof.
  intros Hoff Hsz Hmax. unfold SegmentBytes.
  destruct (Z.ltb_spec (Off p + Filesz p) (len data)) as [Hin|Hout].
  - intros ->. rewrite loadNote_window by lia. split; [reflexivity|].
    apply len_take. rewrite len_drop; lia.
  - intros [Hfile ->]. rewrite loadNote_seek by lia. split; [reflexivity|].
    apply len_take. rewrite len_drop; lia.
Qed.

Lemma walkSpec_app (gnu : gostring) (a b : list NoteRecord) :
  walkSpec gnu (a ++ b)
  = match walkSpec gnu a with
    | WalkReturn v => WalkReturn v
    | WalkDone gnu' => walkSpec gnu' b
    end.
Proof.
  revert gnu. induction a as [|r a IH]; intros gnu; cbn [walkSpec app].
  - reflexivity.
  - destruct (isGo r); [reflexivity|]. apply IH.
Qed.

(** The scan of well-formed program headers: the result is [walkSpec] run
    over the records of all the segments, in order. *)
Lemma scanProgs_layout (fuel : nat) (bo : ByteOrder) (data : list byte)
    (ps : list Prog) (recss : list (list NoteRecord)) :
  forall (gnu : gostring) (h : handle),
    Forall2 (SegmentRecords (content h) data bo) ps recss ->
    Forall (fun p => isNoteSegment p = true -> Filesz p <= Z.of_nat fuel) ps ->
    fst (scanProgs fuel bo data ps gnu h)
    = Returned (walkValue (walkSpec gnu (concat recss)), None).
Proof.
  revert recss. induction ps as [|p ps IH]; intros recss gnu h HF Hfuel.
  - apply Forall2_nil_inv_l in HF as ->. cbn [scanProgs concat walkSpec walkValue].
    destruct (bytes_Equal gnu []) eqn:He; cbn [negb fst]; [|reflexivity].
    apply bytes_Equal_true in He as ->. reflexivity.
  - apply Forall2_cons_inv_l in HF as (recs & recss' & HS & HF & ->).
    apply Forall_cons in Hfuel as [Hf Hfuel].
    cbn [scanProgs concat]. rewrite isNoteSegment_skip, walkSpec_app.
    unfold SegmentRecords in HS.
    destruct (isNoteSegment p) eqn:Hnote; cbn [negb].
    + destruct HS as (Hoff & Hsz & Hmax & Halign & bs & Hbs & HL).
      assert (16 <= Filesz p) as H16.
      { unfold isNoteSegment, offsetToNoteData in Hnote.
        apply andb_true_iff in Hnote as [_ Hle]. apply Z.leb_le in Hle. exact Hle. }
      assert (0 <= Align p) as Ha0.
      { destruct Halign as [->|(k & Hk & ->)]; [lia|apply Z.pow_nonneg; lia]. }
      destruct (SegmentBytes_load h data p bs Hoff ltac:(lia) ltac:(lia) Hbs)
        as [Hload Hlen].
      pose proof (loadNote_content h data p) as Hc.
      unfold scanSegment.
      destruct (loadNote h data p) as [res h1]. cbn [fst snd] in Hload, Hc.
      subst res. rewrite <- Hlen.
      rewrite (noteLoop_layout bo (Align p) (Off p) bs recs HL);
        [|unfold len in *; specialize (Hf eq_refl); lia|lia|lia|lia|exact Halign].
      rewrite bind_Returned.
      destruct (walkSpec gnu recs) as [v|gnu']; [reflexivity|].
      apply IH; [rewrite Hc; exact HF|exact Hfuel].
    + subst recs. cbn [walkSpec]. apply IH; assumption.
Qed.

(** ** The little-endian encoder produces record images *)

Lemma byteZ_byteOfZ (z : Z) : byteZ (byteOfZ z) = z mod 256.
Proof.
  unfold byteZ, byteOfZ.
  pose proof (Z.mod_pos_bound z 256 ltac:(lia)) as Hb.
  destruct (Byte.of_N (Z.to_N (z mod 256))) as [b|] eqn:E.
  - apply Byte.to_of_N in E. rewrite E. lia.
  - apply Byte.of_N_None_iff in E. lia.
Qed.

Lemma Uint32_leBytes (v : Z) :
  0 <= v < 2 ^ 32 -> Uint32 LittleEndian (leBytes 4 v) = Returned v.
Proof.
  intros Hv. cbn [leBytes]. rewrite Uint32_sum. f_equal.
  unfold word32. rewrite !byteZ_byteOfZ.
  change (2 ^ 8) with 256. change (2 ^ 16) with (256 * 256).
  change (2 ^ 24) with (256 * 256 * 256).
  pose proof (Z.div_mod v 256 ltac:(lia)).
  pose proof (Z.div_mod (v / 256) 256 ltac:(lia)).
  pose proof (Z.div_mod (v / 256 / 256) 256 ltac:(lia)).
  assert (v / 256 / 256 / 256 < 256).
  { rewrite !Z.div_div by lia. apply Z.div_lt_upper_bound; lia. }
  assert (0 <= v / 256 / 256 / 256).
  { rewrite !Z.div_div by lia. apply Z.div_pos; lia. }
  rewrite (Z.mod_small (v / 256 / 256 / 256)) by lia. lia.
Qed.

Lemma length_leBytes (n : nat) (z : Z) : length (leBytes n z) = n.
Proof. revert z. induction n; intros z; cbn [leBytes length]; auto. Qed.

Lemma len_pad4 (bs : list byte) : len (pad4 bs) = roundUp 4 (len bs).
Proof.
  unfold pad4. rewrite len_app. unfold zeros, len at 2.
  rewrite repeat_length.
  pose proof (roundUp_ge 4 (len bs) ltac:(lia)). lia.
Qed.

Lemma encodeNote_RecordAt (r : NoteRecord) :
  len (nName r) < 2 ^ 32 -> len (nDesc r) < 2 ^ 32 -> 0 <= nTag r < 2 ^ 32 ->
  RecordAt LittleEndian r (encodeNote r).
Proof.
  intros Hn Hd Ht.
  pose proof (len_nonneg (nName r)). pose proof (len_nonneg (nDesc r)).
  exists (leBytes 4 (len (nName r))), (leBytes 4 (len (nDesc r))),
         (leBytes 4 (nTag r)),
         (zeros (Z.to_nat (roundUp 4 (len (nName r)) - len (nName r)))),
         (zeros (Z.to_nat (roundUp 4 (len (nDesc r)) - len (nDesc r)))).
  repeat split; try apply length_leBytes; try (apply Uint32_leBytes; lia);
    apply len_pad4.
Qed.

(** ** What [walkSpec] returns *)

Lemma walkSpec_native (gnu : gostring) (pre post : list NoteRecord)
    (g : NoteRecord) :
  Forall (fun x => isGo x = false) pre -> isGo g = true ->
  walkSpec gnu (pre ++ g :: post) = WalkReturn (nDesc g).
Proof.
  intros Hpre Hg. revert gnu.
  induction Hpre as [|x pre Hx _ IH]; intros gnu; cbn [walkSpec app].
  - rewrite Hg. reflexivity.
  - rewrite Hx. apply IH.
Qed.

Lemma walkSpec_none (gnu : gostring) (recs : list NoteRecord) :
  Forall (fun x => isGo x = false) recs ->
  Forall (fun x => isGNU x = false) recs ->
  walkSpec gnu recs = WalkDone gnu.
Proof.
  intros Hgo. revert gnu.
  induction Hgo as [|x recs Hx _ IH]; intros gnu Hgnu; cbn [walkSpec].
  - reflexivity.
  - apply Forall_cons in Hgnu as [Hn Hgnu]. rewrite Hx, Hn. apply IH. exact Hgnu.
Qed.

Lemma walkSpec_generic (gnu : gostring) (pre post : list NoteRecord)
    (n : NoteRecord) :
  Forall (fun x => isGo x = false) (pre ++ n :: post) ->
  isGNU n = true ->
  Forall (fun x => isGNU x = false) post ->
  walkSpec gnu (pre ++ n :: post) = WalkDone (nDesc n).
Proof.
  intros Hgo Hn Hpost. revert gnu Hgo.
  induction pre as [|x pre IH]; intros gnu Hgo; cbn [walkSpec app] in *.
  - apply Forall_cons in Hgo as [Hx Hgo]. rewrite Hx, Hn.
    apply walkSpec_none; assumption.
  - apply Forall_cons in Hgo as [Hx Hgo]. rewrite Hx. apply IH. exact Hgo.
Qed.

Lemma concat_map_nil {A B : Type} (l : list A) :
  concat (map (fun _ => @nil B) l) = [].
Proof. induction l as [|x l IH]; [reflexivity|exact IH]. Qed.

Lemma skipped_segments (file data : list byte) (bo : ByteOrder)
    (ps : list Prog) :
  Forall (fun p => isNoteSegment p = false) ps ->
  Forall2 (SegmentRecords file data bo) ps (map (fun _ => []) ps).
Proof.
  induction 1 as [|p ps Hp _ IH]; constructor; [|exact IH].
  unfold SegmentRecords. rewrite Hp. reflexivity.
Qed.

(** ** The handle: what a run depends on and what it leaves unchanged *)

Lemma ReadAt_agree (h1 h2 : handle) (n off : Z) :
  sameFile h1 h2 -> agree (ReadAt h1 n off) (ReadAt h2 n off).
Proof.
  intros [Ec Ep]. unfold ReadAt. rewrite Ec.
  destruct (len _ <? n); split; try split; cbn; auto.
Qed.

Lemma ReadFull_agree (h1 h2 : handle) (n : Z) :
  sameFile h1 h2 -> agree (ReadFull h1 n) (ReadFull h2 n).
Proof.
  intros [Ec Ep]. unfold ReadFull. rewrite Ec, Ep.
  destruct (n <=? 0); [split; [reflexivity|split; assumption]|].
  destruct (len _ =? 0); [split; try split; cbn; auto|].
  destruct (len _ <? n); split; try split; cbn; auto.
Qed.

Lemma Seek_agree (h1 h2 : handle) (off : Z) :
  sameFile h1 h2 -> agree (Seek h1 off) (Seek h2 off).
Proof.
  intros [Ec Ep]. unfold Seek. rewrite Ec, Ep.
  destruct (off <? 0); split; try split; cbn; auto.
Qed.

(** After its seek, [loadNote] reads at a cursor of its own: what it loads
    depends on the bytes of the file only. *)
Lemma loadNote_same_content (h1 h2 : handle) (data : list byte) (p : Prog) :
  content h1 = content h2 ->
  fst (loadNote h1 data p) = fst (loadNote h2 data p).
Proof.
  intros Hc. unfold loadNote.
  destruct (u64 (Off p + Filesz p) <? len data); [reflexivity|].
  unfold Seek. destruct (int64 (Off p) <? 0); [reflexivity|].
  destruct (2 ^ 63 <=? Filesz p); [reflexivity|].
  pose proof (ReadFull_agree
                (mkHandle (content h1) (int64 (Off p))
                          (log h1 ++ [EvSeek (int64 (Off p))]))
                (mkHandle (content h2) (int64 (Off p))
                          (log h2 ++ [EvSeek (int64 (Off p))]))
                (Filesz p) (conj Hc eq_refl)) as [E _].
  destruct (ReadFull (mkHandle (content h1) _ _) (Filesz p)) as [[b1 x1] m1].
  destruct (ReadFull (mkHandle (content h2) _ _) (Filesz p)) as [[b2 x2] m2].
  cbn [fst] in E. injection E as -> ->.
  destruct x2; reflexivity.
Qed.

Lemma scanSegment_same_content (fuel : nat) (bo : ByteOrder)
    (data : list byte) (p : Prog) (gnu : gostring) (h1 h2 : handle) :
  content h1 = content h2 ->
  fst (scanSegment fuel bo data p gnu h1)
  = fst (scanSegment fuel bo data p gnu h2).
Proof.
  intros Hc. unfold scanSegment.
  pose proof (loadNote_same_content h1 h2 data p Hc) as E.
  destruct (loadNote h1 data p) as [o1 k1].
  destruct (loadNote h2 data p) as [o2 k2].
  cbn [fst] in E. subst o2.
  destruct o1 as [[note|e]| |]; reflexivity.
Qed.

Lemma ReadAt_content (h : handle) (n off : Z) :
  content (snd (ReadAt h n off)) = content h.
Proof. unfold ReadAt. destruct (len _ <? n); reflexivity. Qed.

Lemma ReadFull_content (h : handle) (n : Z) :
  content (snd (ReadFull h n)) = content h.
Proof.
  unfold ReadFull. destruct (n <=? 0); [reflexivity|].
  destruct (len _ =? 0); [reflexivity|]. destruct (len _ <? n); reflexivity.
Qed.

Lemma scanSegment_content (fuel : nat) (bo : ByteOrder) (data : list byte)
    (p : Prog) (gnu : gostring) (h : handle) :
  content (snd (scanSegment fuel bo data p gnu h)) = content h.
Proof.
  unfold scanSegment. pose proof (loadNote_content h data p) as Hc.
  destruct (loadNote h data p) as [[[note|e]| |] h1]; exact Hc.
Qed.

Lemma scanProgs_content (fuel : nat) (bo : ByteOrder) (data : list byte)
    (ps : list Prog) :
  forall (gnu : gostring) (h : handle),
    content (snd (scanProgs fuel bo data ps gnu h)) = content h.
Proof.
  induction ps as [|p ps IH]; intros gnu h; cbn [scanProgs].
  - destruct (negb (bytes_Equal gnu [])); reflexivity.
  - destruct (negb (Typ p =? PT_NOTE) || (Filesz p <? offsetToNoteData));
      [apply IH|].
    pose proof (scanSegment_content fuel bo data p gnu h) as Hc.
    destruct (scanSegment fuel bo data p gnu h) as [[[[v|gnu']|e]| |] h1];
      try exact Hc.
    rewrite IH. exact Hc.
Qed.

Lemma scanProgs_same_content (fuel : nat) (bo : ByteOrder)
    (data : list byte) (ps : list Prog) :
  forall (gnu : gostring) (h1 h2 : handle),
    content h1 = content h2 ->
    fst (scanProgs fuel bo data ps gnu h1)
    = fst (scanProgs fuel bo data ps gnu h2).
Proof.
  induction ps as [|p ps IH]; intros gnu h1 h2 Hc; cbn [scanProgs].
  - destruct (negb (bytes_Equal gnu [])); reflexivity.
  - destruct (negb (Typ p =? PT_NOTE) || (Filesz p <? offsetToNoteData));
      [apply IH; exact Hc|].
    pose proof (scanSegment_same_content fuel bo data p gnu h1 h2 Hc) as E.
    pose proof (scanSegment_content fuel bo data p gnu h1) as C1.
    pose proof (scanSegment_content fuel bo data p gnu h2) as C2.
    destruct (scanSegment fuel bo data p gnu h1) as [o1 k1].
    destruct (scanSegment fuel bo data p gnu h2) as [o2 k2].
    cbn [fst snd] in E, C1, C2. subst o2.
    destruct o1 as [[[v|gnu']|e]| |]; try reflexivity.
    apply IH. congruence.
Qed.

(** The scan does not depend on which window holds the bytes of a
    segment, nor on whether it is the window or the file. *)
Lemma scanProgs_windows (fuel : nat) (bo : ByteOrder)
    (data1 data2 : list byte) (ps : list Prog) :
  forall (gnu : gostring) (h1 h2 : handle),
    content h1 = content h2 ->
    Forall (fun p =>
              isNoteSegment p = true ->
              0 <= Off p /\ Off p + Filesz p < 2 ^ 63
              /\ exists bs, SegmentBytes (content h1) data1 p bs
                            /\ SegmentBytes (content h1) data2 p bs) ps ->
    fst (scanProgs fuel bo data1 ps gnu h1)
    = fst (scanProgs fuel bo data2 ps gnu h2).
Proof.
  induction ps as [|p ps IH]; intros gnu h1 h2 Hc HF; cbn [scanProgs].
  - destruct (negb (bytes_Equal gnu [])); reflexivity.
  - apply Forall_cons in HF as [Hp HF]. rewrite isNoteSegment_skip.
    destruct (isNoteSegment p) eqn:Hnote; cbn [negb];
      [|apply IH; assumption].
    destruct (Hp eq_refl) as (Hoff & Hmax & bs & B1 & B2).
    assert (0 < Filesz p) as Hsz.
    { unfold isNoteSegment, offsetToNoteData in Hnote.
      apply andb_true_iff in Hnote as [_ Hle]. apply Z.leb_le in Hle. lia. }
    rewrite Hc in B2.
    destruct (SegmentBytes_load h1 data1 p bs Hoff Hsz Hmax B1) as [L1 _].
    destruct (SegmentBytes_load h2 data2 p bs Hoff Hsz Hmax B2) as [L2 _].
    pose proof (loadNote_content h1 data1 p) as C1.
    pose proof (loadNote_content h2 data2 p) as C2.
    unfold scanSegment.
    destruct (loadNote h1 data1 p) as [o1 k1].
    destruct (loadNote h2 data2 p) as [o2 k2].
    cbn [fst snd] in L1, L2, C1, C2. subst o1 o2.
    destruct (noteLoop fuel bo (Align p) gnu (Filesz p) (Off p) bs)
      as [[v|gnu']| |]; try reflexivity.
    rewrite !bind_Returned. apply IH; [congruence|].
    rewrite C1. exact HF.
Qed.

Section ResolverProperties.

Variable elf_NewFile : list byte -> error + File.
Variable buildinfo_Read : list byte -> error + debug.BuildInfo.

(** [readELF] on the window of a well-formed 64-bit ELF file. *)
Lemma readELF_layout (fuel : nat) (r : handle) (data : list byte)
    (ef : File) (recss : list (list NoteRecord)) :
  ELF64Image elf_NewFile (content r) data ef recss ->
  FuelFor fuel ef ->
  fst (readELF elf_NewFile fuel r data)
  = Returned (resolveSpec (concat recss), None).
Proof.
  intros ((c & Hc & Hclass) & Hlen & Hdec & HF) Hfuel.
  unfold readELF. rewrite Hc, Hclass. cbn [Z.eqb ELFCLASS64 ELFCLASS32 Pos.eqb].
  unfold zeroShdrFields.
  destruct (Z.leb_spec (len data) 61) as [|_]; [lia|].
  rewrite Hdec. apply scanProgs_layout; assumption.
Qed.

(** C1 (amended).  On a well-formed 64-bit ELF input (the decoder accepts
    the window; every note segment of 16 bytes or more is shorter than
    2^32 bytes, has alignment 0 or a power of two, is held by the window or
    by the file, and is a sequence of note records each followed by the
    padding that brings the file offset to a multiple of the segment
    alignment), the scan returns the value of the first toolchain-native
    note (tag 4, name "Go\0\0"), whatever generic-linker notes (tag 3,
    name "GNU\0") come before it in the segment list; and on such an input
    with a generic-linker note and no toolchain-native note, it returns
    the value of the (last) generic-linker note. *)
Theorem C1_native_note_preferred (fuel : nat) (r : handle) (data : list byte)
    (ef : File) (recss : list (list NoteRecord)) :
  ELF64Image elf_NewFile (content r) data ef recss ->
  FuelFor fuel ef ->
  (forall pre g post,
      concat recss = pre ++ g :: post ->
      isGo g = true -> Forall (fun x => isGo x = false) pre ->
      fst (readELF elf_NewFile fuel r data) = Returned (nDesc g, None))
  /\ (forall pre n post,
        concat recss = pre ++ n :: post ->
        Forall (fun x => isGo x = false) (concat recss) ->
        isGNU n = true -> Forall (fun x => isGNU x = false) post ->
        fst (readELF elf_NewFile fuel r data) = Returned (nDesc n, None)).
Proof.
  intros Himg Hfuel.
  pose proof (readELF_layout fuel r data ef recss Himg Hfuel) as Hres.
  split.
  - intros pre g post Heq Hg Hpre. rewrite Hres. unfold resolveSpec.
    rewrite Heq, (walkSpec_native [] pre post g Hpre Hg). reflexivity.
  - intros pre n post Heq Hgo Hn Hpost. rewrite Hres. unfold resolveSpec.
    rewrite Heq in Hgo |- *.
    rewrite (walkSpec_generic [] pre post n Hgo Hn Hpost). reflexivity.
Qed.

(** C5 (amended).  On a well-formed 64-bit ELF input (as for C1: every
    note segment of 16 bytes or more is held by the window or the file and
    is a sequence of records padded to the segment alignment) whose
    segments hold neither a toolchain-native nor a generic-linker note,
    the scan returns the empty build ID and no error; and so it does, with
    no condition on the layout, when the decoder accepts the window and
    every note segment is shorter than 16 bytes. *)
Theorem C5_no_note_empty_id (fuel : nat) (r : handle) (data : list byte)
    (ef : File) :
  (forall recss,
      ELF64Image elf_NewFile (content r) data ef recss ->
      FuelFor fuel ef ->
      Forall (fun x => isGo x = false) (concat recss) ->
      Forall (fun x => isGNU x = false) (concat recss) ->
      fst (readELF elf_NewFile fuel r data) = Returned ([], None))
  /\ ((exists c, data !! EI_CLASS = Some c /\ byteZ c = ELFCLASS64) ->
      61 < len data ->
      elf_NewFile (clearShdr data) = inr ef ->
      Forall (fun p => Typ p = PT_NOTE -> Filesz p < 16) (Progs ef) ->
      fst (readELF elf_NewFile fuel r data) = Returned ([], None)).
Proof.
  split.
  - intros recss Himg Hfuel Hgo Hgnu.
    rewrite (readELF_layout fuel r data ef recss Himg Hfuel).
    unfold resolveSpec. rewrite (walkSpec_none [] _ Hgo Hgnu). reflexivity.
  - intros Hclass Hlen Hdec Hshort.
    assert (Hskip : Forall (fun p => isNoteSegment p = false) (Progs ef)).
    { eapply Forall_impl; [exact Hshort|]. intros p Hp. unfold isNoteSegment.
      destruct (Z.eqb_spec (Typ p) PT_NOTE) as [Ht|]; [|reflexivity].
      specialize (Hp Ht). unfold offsetToNoteData.
      destruct (Z.leb_spec 16 (Filesz p)); [lia|reflexivity]. }
    rewrite (readELF_layout fuel r data ef (map (fun _ => []) (Progs ef))).
    + rewrite concat_map_nil. reflexivity.
    + split; [exact Hclass|]. split; [exact Hlen|]. split; [exact Hdec|].
      apply skipped_segments. exact Hskip.
    + unfold FuelFor. eapply Forall_impl; [exact Hskip|].
      intros p Hp Hn. rewrite Hp in Hn. discriminate.
Qed.

Lemma readELF_same_content (fuel : nat) (h1 h2 : handle) (data : list byte) :
  content h1 = content h2 ->
  fst (readELF elf_NewFile fuel h1 data)
  = fst (readELF elf_NewFile fuel h2 data).
Proof.
  intros Hc. unfold readELF.
  destruct (data !! EI_CLASS) as [c|]; [|reflexivity].
  destruct (byteZ c =? ELFCLASS32); [reflexivity|].
  destruct (if byteZ c =? ELFCLASS64 then zeroShdrFields data else Returned data)
    as [data'| |]; try reflexivity.
  destruct (elf_NewFile data') as [e|ef]; [reflexivity|].
  apply scanProgs_same_content. exact Hc.
Qed.

Lemma readELF_content (fuel : nat) (h : handle) (data : list byte) :
  content (snd (readELF elf_NewFile fuel h data)) = content h.
Proof.
  unfold readELF.
  destruct (data !! EI_CLASS) as [c|]; [|reflexivity].
  destruct (byteZ c =? ELFCLASS32); [reflexivity|].
  destruct (if byteZ c =? ELFCLASS64 then zeroShdrFields data else Returned data)
    as [data'| |]; try reflexivity.
  destruct (elf_NewFile data') as [e|ef]; [reflexivity|].
  apply scanProgs_content.
Qed.

(** The result of the resolver depends on the bytes of the file and on
    the cursor, and on nothing else. *)
Lemma getBuildID_agree (fuel : nat) (h1 h2 : handle) :
  sameFile h1 h2 ->
  fst (getBuildID elf_NewFile fuel h1) = fst (getBuildID elf_NewFile fuel h2).
Proof.
  intros Hs. unfold getBuildID.
  destruct (ReadAt_agree h1 h2 8 0 Hs) as [E Hs1].
  destruct (ReadAt h1 8 0) as [[buf e] k1].
  destruct (ReadAt h2 8 0) as [[buf2 e2] k2].
  cbn [fst snd] in E, Hs1. injection E as <- <-.
  destruct e; [reflexivity|].
  destruct (negb (bytes_Equal buf archMagic)); [|reflexivity].
  destruct (bytes_Equal buf bigafMagic); [reflexivity|].
  destruct (ReadFull_agree k1 k2 readSize Hs1) as [E Hs2].
  destruct (ReadFull k1 readSize) as [[data e] m1].
  destruct (ReadFull k2 readSize) as [[data2 e2] m2].
  cbn [fst snd] in E, Hs2. injection E as <- <-.
  destruct (match e with
            | Some io_ErrUnexpectedEOF => None
            | _ => e
            end); [reflexivity|].
  destruct (bytes_HasPrefix data elfPrefix); [|reflexivity].
  apply readELF_same_content. apply Hs2.
Qed.

Lemma getBuildID_content (fuel : nat) (h : handle) :
  content (snd (getBuildID elf_NewFile fuel h)) = content h.
Proof.
  unfold getBuildID. pose proof (ReadAt_content h 8 0) as H1.
  destruct (ReadAt h 8 0) as [[buf e] k1]. cbn [snd] in H1.
  destruct e; [exact H1|].
  destruct (negb (bytes_Equal buf archMagic)); [|exact H1].
  destruct (bytes_Equal buf bigafMagic); [exact H1|].
  pose proof (ReadFull_content k1 readSize) as H2.
  destruct (ReadFull k1 readSize) as [[data e] k2]. cbn [snd] in H2.
  destruct (match e with
            | Some io_ErrUnexpectedEOF => None
            | _ => e
            end); [cbn [snd]; congruence|].
  destruct (bytes_HasPrefix data elfPrefix); [|cbn [snd]; congruence].
  rewrite readELF_content. congruence.
Qed.

(** C9.  Resolving the build ID a second time on the handle the first call
    left behind, with the cursor put back where it was, gives the same
    result: the same build ID and the same error, or the same failure to
    return. *)
Theorem C9_getBuildID_idempotent (fuel : nat) (r : handle) :
  let run1 := getBuildID elf_NewFile fuel r in
  let r' := mkHandle (content (snd run1)) (cursor r) (log (snd run1)) in
  fst (getBuildID elf_NewFile fuel r') = fst run1.
Proof.
  cbv zeta. apply getBuildID_agree. split; cbn [content cursor].
  - apply getBuildID_content.
  - reflexivity.
Qed.

(** The 8-byte prefix read of [getBuildID] on a file of 8 bytes or more. *)
Lemma ReadAt_prefix (r : handle) (magic : list byte) :
  length magic = 8%nat -> take 8 (content r) = magic ->
  ReadAt r 8 0
  = ((magic, None), mkHandle (content r) (cursor r) (log r ++ [EvReadAt 0 8])).
Proof.
  intros Hl Hm. unfold ReadAt. change (Z.to_nat 0) with 0%nat.
  change (Z.to_nat 8) with 8%nat. rewrite drop_0, Hm.
  unfold len. rewrite Hl. reflexivity.
Qed.

(** C6.  On an input whose first 8 bytes are "<bigaf>\n" the resolver
    returns the not-supported error, and the only operation it performs
    on the handle is the 8-byte read at offset 0. *)
Theorem C6_bigaf_not_supported (fuel : nat) (r : handle) :
  take 8 (content r) = bigafMagic ->
  getBuildID elf_NewFile fuel r
  = (Returned ([], Some errProgramNotSupported),
     mkHandle (content r) (cursor r) (log r ++ [EvReadAt 0 8])).
Proof.
  intros Hm. unfold getBuildID.
  rewrite (ReadAt_prefix r bigafMagic eq_refl Hm). reflexivity.
Qed.

(** C3 (amended).  On an input whose first 8 bytes are "!<arch>\n" the
    resolver returns the not-supported error at once: the only operation
    on the handle is the 8-byte read at offset 0, and no member is
    inspected. *)
Theorem C3_archive_not_supported (fuel : nat) (r : handle) :
  take 8 (content r) = archMagic ->
  getBuildID elf_NewFile fuel r
  = (Returned ([], Some errProgramNotSupported),
     mkHandle (content r) (cursor r) (log r ++ [EvReadAt 0 8])).
Proof.
  intros Hm. unfold getBuildID.
  rewrite (ReadAt_prefix r archMagic eq_refl Hm). reflexivity.
Qed.

(** ** [Parse] *)

Lemma appendLibs_filter_map (buildID : gostring) (warnings : list string)
    (deps : list debug.Module_) :
  forall libs,
    foldl (appendLibs buildID warnings) libs deps
    = libs ++ map (libraryOf buildID warnings) (List.filter hasPath deps).
Proof.
  induction deps as [|dep deps IH]; intros libs; cbn [foldl List.filter map].
  - rewrite app_nil_r. reflexivity.
  - rewrite IH. unfold appendLibs, hasPath.
    destruct (String.eqb (debug.Path dep) ""); cbn [negb map].
    + reflexivity.
    + rewrite <- app_assoc. reflexivity.
Qed.

Lemma scanProgs_error_id (fuel : nat) (bo : ByteOrder) (data : list byte)
    (ps : list Prog) :
  forall (gnu : gostring) (h : handle) (id : gostring) (e : error),
    fst (scanProgs fuel bo data ps gnu h) = Returned (id, Some e) -> id = [].
Proof.
  induction ps as [|p ps IH]; intros gnu h id e; cbn [scanProgs].
  - destruct (negb (bytes_Equal gnu [])); cbn [fst]; discriminate.
  - destruct (negb (Typ p =? PT_NOTE) || (Filesz p <? offsetToNoteData));
      [apply IH|].
    destruct (scanSegment fuel bo data p gnu h) as [[[[v|gnu']|e']| |] h1];
      cbn [fst]; try discriminate.
    + apply IH.
    + intros [= <- _]. reflexivity.
Qed.

(** Every error return of the resolver carries the empty build ID. *)
Lemma getBuildID_error_id (fuel : nat) (r : handle) (id : gostring) (e : error) :
  fst (getBuildID elf_NewFile fuel r) = Returned (id, Some e) -> id = [].
Proof.
  unfold getBuildID.
  destruct (ReadAt r 8 0) as [[buf e1] k1].
  destruct e1; [cbn [fst]; intros [= <- _]; reflexivity|].
  destruct (negb (bytes_Equal buf archMagic));
    [|cbn [fst]; intros [= <- _]; reflexivity].
  destruct (bytes_Equal buf bigafMagic);
    [cbn [fst]; intros [= <- _]; reflexivity|].
  destruct (ReadFull k1 readSize) as [[data e2] k2].
  destruct (match e2 with
            | Some io_ErrUnexpectedEOF => None
            | _ => e2
            end); [cbn [fst]; intros [= <- _]; reflexivity|].
  destruct (bytes_HasPrefix data elfPrefix);
    [|cbn [fst]; intros [= <- _]; reflexivity].
  unfold readELF.
  destruct (data !! EI_CLASS) as [c|]; [|discriminate].
  destruct (byteZ c =? ELFCLASS32); [cbn [fst]; intros [= <- _]; reflexivity|].
  destruct (if byteZ c =? ELFCLASS64 then zeroShdrFields data else Returned data)
    as [data'| |]; try discriminate.
  destruct (elf_NewFile data') as [e3|ef];
    [cbn [fst]; intros [= <- _]; reflexivity|].
  apply scanProgs_error_id.
Qed.

Lemma Parse_returns (fuel : nat) (r r1 : handle) (info : debug.BuildInfo)
    (id : gostring) (err : option error) :
  buildinfo_Read (content r) = inr info ->
  getBuildID elf_NewFile fuel r = (Returned (id, err), r1) ->
  fst (Parse elf_NewFile buildinfo_Read fuel r)
  = Returned
      (inl (map (libraryOf (if 0 <? len (debug.Deps info) then id else [])
                           (if 0 <? len (debug.Deps info)
                            then warningsOf err else []))
                (List.filter hasPath (debug.Deps info)))).
Proof.
  intros Hread Hid. unfold Parse. rewrite Hread.
  destruct (0 <? len (debug.Deps info)).
  - rewrite Hid. destruct err as [e|]; cbn [fst warningsOf];
      rewrite bind_Returned, appendLibs_filter_map; reflexivity.
  - cbn [fst]. rewrite bind_Returned, appendLibs_filter_map. reflexivity.
Qed.

(** C7.  The dependency loop of [Parse] emits one record per dependency
    with a non-empty path, in list order, named and versioned after the
    replacement when there is one and after the dependency otherwise, and
    none for a dependency with an empty path; and this is the list [Parse]
    returns whenever the module metadata is read and the build-ID
    resolution, when it runs, returns. *)
Theorem C7_one_record_per_dependency (fuel : nat) (r : handle)
    (info : debug.BuildInfo) :
  (forall buildID warnings deps,
      foldl (appendLibs buildID warnings) [] deps
      = map (libraryOf buildID warnings) (List.filter hasPath deps))
  /\ (buildinfo_Read (content r) = inr info ->
      debug.Deps info = []
      \/ (exists res, fst (getBuildID elf_NewFile fuel r) = Returned res) ->
      exists buildID warnings,
        fst (Parse elf_NewFile buildinfo_Read fuel r)
        = Returned (inl (map (libraryOf buildID warnings)
                             (List.filter hasPath (debug.Deps info))))).
Proof.
  split.
  - intros buildID warnings deps. apply (appendLibs_filter_map _ _ deps []).
  - intros Hread [Hnil|[[id err] Hres]].
    + exists [], []. unfold Parse. rewrite Hread, Hnil. cbn. reflexivity.
    + destruct (getBuildID elf_NewFile fuel r) as [o r1] eqn:Hrun.
      cbn [fst] in Hres. subst o.
      eexists _, _. apply (Parse_returns fuel r r1 info id err Hread Hrun).
Qed.

(** C4.  When the module metadata is read and the build-ID resolution
    returns an error, [Parse] does not fail: it returns the record of
    every dependency, each with the error text as its one warning and the
    empty build ID. *)
Theorem C4_resolution_error_is_warning (fuel : nat) (r : handle)
    (info : debug.BuildInfo) (id : gostring) (e : error) :
  buildinfo_Read (content r) = inr info ->
  fst (getBuildID elf_NewFile fuel r) = Returned (id, Some e) ->
  exists libs,
    fst (Parse elf_NewFile buildinfo_Read fuel r) = Returned (inl libs)
    /\ libs = map (libraryOf [] (if 0 <? len (debug.Deps info)
                                 then [Error e] else []))
                  (List.filter hasPath (debug.Deps info))
    /\ Forall (fun lib => types.BuildID lib = []
                          /\ types.Warnings lib = [Error e]) libs.
Proof.
  intros Hread Hres.
  pose proof (getBuildID_error_id fuel r id e Hres) as ->.
  destruct (getBuildID elf_NewFile fuel r) as [o r1] eqn:Hrun.
  cbn [fst] in Hres. subst o.
  pose proof (Parse_returns fuel r r1 info [] (Some e) Hread Hrun) as HP.
  eexists. split; [exact HP|]. split.
  - destruct (0 <? len (debug.Deps info)); reflexivity.
  - destruct (debug.Deps info) as [|d ds]; [constructor|].
    change (0 <? len (d :: ds)) with true. cbv iota.
    apply Forall_forall. intros lib Hin.
    apply list_elem_of_In, in_map_iff in Hin as (dep & <- & _).
    split; reflexivity.
Qed.



(** The window of a non-empty file read from its start: the first 32 KiB
    of the file, filled up with zero bytes when the file is shorter. *)
Lemma window_spec (r : handle) :
  cursor r = 0 -> 0 < len (content r) ->
  exists e pad,
    fst (ReadFull r readSize) = (windowOf (content r), e)
    /\ (e = None \/ e = Some io_ErrUnexpectedEOF)
    /\ windowOf (content r) = take (Z.to_nat readSize) (content r) ++ pad.
Proof.
  intros Hcur Hpos.
  destruct (ReadFull_agree r (openFile (content r)) readSize) as [E _];
    [split; [reflexivity|exact Hcur]|].
  rewrite E. unfold windowOf, ReadFull, openFile. cbn [content cursor log].
  change (readSize <=? 0) with false. cbv iota.
  change (Z.to_nat 0) with 0%nat. rewrite drop_0.
  set (got := take (Z.to_nat readSize) (content r)).
  assert (0 < len got) as Hgot.
  { unfold got, len in *. rewrite length_take. unfold readSize. lia. }
  destruct (Z.eqb_spec (len got) 0) as [|_]; [lia|].
  destruct (Z.ltb_spec (len got) readSize) as [Hlt|Hge]; cbn [fst snd].
  - eexists _, _. split; [reflexivity|]. split; [auto|reflexivity].
  - exists None, []. split; [reflexivity|]. split; [auto|].
    rewrite app_nil_r. reflexivity.
Qed.

Lemma elf_prefix_not_archive (file : list byte) :
  bytes_HasPrefix file elfPrefix = true ->
  bytes_Equal (take 8 file) archMagic = false
  /\ bytes_Equal (take 8 file) bigafMagic = false.
Proof.
  unfold bytes_HasPrefix. intros H. apply andb_true_iff in H as [_ H].
  apply bytes_Equal_true in H.
  do 4 (destruct file as [|? file]; [discriminate|]).
  injection H as -> -> -> ->.
  split; apply bytes_Equal_false; discriminate.
Qed.

(** On a file that starts with the ELF magic and is read from its start,
    the resolver is [readELF] on the window. *)
Lemma getBuildID_elf (fuel : nat) (r : handle) :
  cursor r = 0 -> 8 <= len (content r) ->
  bytes_HasPrefix (content r) elfPrefix = true ->
  fst (getBuildID elf_NewFile fuel r)
  = fst (readELF elf_NewFile fuel r (windowOf (content r))).
Proof.
  intros Hcur Hlen Hmagic. unfold getBuildID.
  destruct (elf_prefix_not_archive (content r) Hmagic) as [Harch Hbig].
  pose proof (ReadAt_content r 8 0) as Hc1.
  assert (HR : fst (ReadAt r 8 0) = (take 8 (content r), None)
               /\ cursor (snd (ReadAt r 8 0)) = 0).
  { unfold ReadAt. change (Z.to_nat 0) with 0%nat. change (Z.to_nat 8) with 8%nat.
    rewrite drop_0.
    assert (len (take 8 (content r)) = 8) as ->
      by (unfold len in *; rewrite length_take; lia).
    change (8 <? 8) with false. cbn [fst snd cursor]. auto. }
  destruct (ReadAt r 8 0) as [[buf e] r1]. cbn [fst snd] in HR, Hc1.
  destruct HR as [[= -> ->] Hcur1].
  rewrite Harch, Hbig. cbn [negb].
  destruct (window_spec r1 Hcur1 ltac:(rewrite Hc1; lia)) as (e & pad & HW & He & Hpad).
  pose proof (ReadFull_content r1 readSize) as Hc2.
  destruct (ReadFull r1 readSize) as [[data e'] r2]. cbn [fst snd] in HW, Hc2.
  injection HW as -> ->.
  assert (match e with
          | Some io_ErrUnexpectedEOF => None
          | _ => e
          end = None) as -> by (destruct He as [-> | ->]; reflexivity).
  rewrite Hc1 in *.
  assert (bytes_HasPrefix (windowOf (content r)) elfPrefix = true) as ->.
  { unfold bytes_HasPrefix in *. apply andb_true_iff in Hmagic as [_ Hm].
    apply andb_true_iff. split.
    - rewrite Hpad, len_app. apply Z.leb_le.
      pose proof (len_nonneg pad).
      assert (4 <= len (take (Z.to_nat readSize) (content r))).
      { unfold len in *. rewrite length_take. unfold readSize. lia. }
      change (len elfPrefix) with 4. lia.
    - rewrite Hpad. rewrite take_app_le.
      + rewrite take_take. unfold readSize.
        change (length elfPrefix) with 4%nat in *.
        replace (Nat.min 4 (Z.to_nat (32 * 1024))) with 4%nat by lia.
        exact Hm.
      + rewrite length_take. change (length elfPrefix) with 4%nat.
        unfold len, readSize in *. lia. }
  apply readELF_same_content. exact Hc2.
Qed.

(** The resolver on a well-formed 64-bit ELF file read from its start. *)
Lemma getBuildID_layout (fuel : nat) (r : handle) (ef : File)
    (recss : list (list NoteRecord)) :
  cursor r = 0 -> 8 <= len (content r) ->
  bytes_HasPrefix (content r) elfPrefix = true ->
  ELF64Image elf_NewFile (content r) (windowOf (content r)) ef recss ->
  FuelFor fuel ef ->
  fst (getBuildID elf_NewFile fuel r)
  = Returned (resolveSpec (concat recss), None).
Proof.
  intros Hcur Hlen Hmagic Himg Hfuel.
  rewrite getBuildID_elf by assumption.
  apply (readELF_layout fuel r _ ef recss); assumption.
Qed.

End ResolverProperties.

(** ** The advance of the walk *)

(** C2 (amended).  When a record is not the toolchain-native note and more
    than its size remains, the walk advances past it by
    [12 + align4 nameSize + align4 valSize] bytes plus the padding that
    brings the running offset to the next multiple of the segment
    alignment (no padding when the alignment is 0): the next iteration
    sees the note bytes from there on, the remaining size less the
    advance, and the rounded offset. *)
Theorem C2_record_advance (bo : ByteOrder) (align : Z) (gnu : gostring)
    (filesz off : Z) (note : list byte) (nameSize valSize tag : Z) :
  filesz = len note -> 16 <= filesz ->
  Uint32 bo note = Returned nameSize ->
  Uint32 bo (drop 4 note) = Returned valSize ->
  Uint32 bo (drop 8 note) = Returned tag ->
  noteGuard nameSize valSize note && (tag =? elfGoBuildIDTag)
    && bytes_Equal (take 4 (drop 12 note)) elfGoNote = false ->
  12 + align4 nameSize + align4 valSize < 2 ^ 32 ->
  nameSize + 3 < 2 ^ 32 -> valSize + 3 < 2 ^ 32 ->
  12 + align4 nameSize + align4 valSize < filesz ->
  0 <= off -> off + filesz + align < 2 ^ 64 ->
  align = 0 \/ isPow2 align ->
  roundUp align (off + (12 + align4 nameSize + align4 valSize)) - off
    <= filesz ->
  let size := 12 + align4 nameSize + align4 valSize in
  let next := roundUp align (off + size) in
  (exists gnu',
      noteIter bo align gnu filesz off note
      = Returned (IterNext gnu' (filesz - (next - off)) next
                           (drop (Z.to_nat (next - off)) note)))
  /\ size <= next - off < size + Z.max align 1
  /\ (align <> 0 -> (align | next)).
Proof.
  intros Hfs H16 U1 U2 U3 Hgo Hsize Hn3 Hv3 Hmore Hoff Hwrap Halign Hfit.
  pose proof (Uint32_range bo _ _ U1) as Hn.
  pose proof (Uint32_range bo _ _ U2) as Hv.
  rewrite !align4_roundUp in * by lia. cbv zeta.
  split; [|split].
  - eexists.
    rewrite (noteIter_fields bo align gnu filesz off note nameSize valSize tag)
      by (try assumption; lia).
    apply iterBody_advance; (assumption || lia).
  - destruct Halign as [->|Hpow].
    + rewrite roundUp_0. lia.
    + assert (0 < align) as Hpos.
      { destruct Hpow as (k & Hk & ->). apply Z.pow_pos_nonneg; lia. }
      pose proof (roundUp_bounds align
                    (off + (12 + roundUp 4 nameSize + roundUp 4 valSize)) Hpos).
      lia.
  - intros Hnz. destruct (roundUp_multiple align
      (off + (12 + roundUp 4 nameSize + roundUp 4 valSize))) as [Hd|]; [exact Hd|lia].
Qed.

(** After an iteration that continues, the remaining size is again the
    length of the remaining note bytes: every slice of the next iteration
    is taken within the length of its slice. *)
Lemma noteIter_keeps_length (bo : ByteOrder) (align : Z) (gnu gnu' : gostring)
    (filesz off filesz' off' : Z) (note note' : list byte) :
  filesz = len note -> filesz < 2 ^ 64 ->
  noteIter bo align gnu filesz off note
  = Returned (IterNext gnu' filesz' off' note') ->
  filesz' = len note'.
Proof.
  intros Hfs Hmax. unfold noteIter.
  do 6 run_bind.
  match goal with |- (if ?c then _ else _) = _ -> _ => destruct c end.
  { run_bind. discriminate. }
  run_bind. cbv zeta.
  destruct (filesz <=? _); [discriminate|].
  destruct (if align =? 0 then _ else _) as [notesz off1].
  unfold sliceFrom, slice.
  destruct (0 <=? notesz) eqn:E0; [|discriminate].
  destruct (notesz <=? len note) eqn:E1; [|discriminate].
  destruct (len note <=? len note); [|discriminate].
  cbn [andb]. rewrite bind_Returned. intros [= _ <- _ <-].
  apply Z.leb_le in E0, E1.
  rewrite take_ge by (rewrite length_drop; unfold len; lia).
  rewrite len_drop by lia. rewrite u64_small by lia. lia.
Qed.

Lemma slice_inv (s t : list byte) (lo hi : Z) :
  slice s lo hi = Returned t ->
  0 <= lo <= hi /\ hi <= len s
  /\ t = take (Z.to_nat (hi - lo)) (drop (Z.to_nat lo) s).
Proof.
  unfold slice.
  destruct (Z.leb_spec 0 lo); [|discriminate].
  destruct (Z.leb_spec lo hi); [|discriminate].
  destruct (Z.leb_spec hi (len s)); [|discriminate].
  cbn [andb]. intros [= <-]. repeat split; lia.
Qed.

Lemma sliceFrom_inv (s t : list byte) (lo : Z) :
  sliceFrom s lo = Returned t ->
  0 <= lo <= len s /\ t = drop (Z.to_nat lo) s.
Proof.
  unfold sliceFrom. intros H. apply slice_inv in H as (H1 & H2 & ->).
  split; [lia|]. apply take_ge. rewrite length_drop. unfold len. lia.
Qed.

(** A slice [note[16 : 16+valSize]] that Go accepts lies within the note
    bytes: the sum did not wrap around. *)
Lemma value_slice_in_bounds (bo : ByteOrder) (note b v : list byte)
    (valSize : Z) :
  Uint32 bo b = Returned valSize ->
  slice note offsetToNoteData (u32 (offsetToNoteData + valSize)) = Returned v ->
  16 + valSize <= len note /\ v = take (Z.to_nat valSize) (drop 16 note).
Proof.
  intros HU HS. apply Uint32_range in HU.
  apply slice_inv in HS as (H1 & H2 & ->).
  unfold offsetToNoteData, u32 in *.
  destruct (Z.lt_ge_cases (16 + valSize) (2 ^ 32)) as [Hlt|Hge].
  - rewrite Z.mod_small in * by lia.
    replace (16 + valSize - 16) with valSize by lia. split; [lia|reflexivity].
  - exfalso.
    replace (16 + valSize) with (16 + valSize - 2 ^ 32 + 1 * 2 ^ 32) in H1 by lia.
    rewrite Z.mod_add in H1 by lia. rewrite Z.mod_small in H1 by lia. lia.
Qed.

(** The toolchain-native value the walk returns was read within the note
    bytes. *)
Lemma noteIter_return_in_bounds (bo : ByteOrder) (align : Z) (gnu : gostring)
    (filesz off : Z) (note : list byte) (v : gostring) :
  noteIter bo align gnu filesz off note = Returned (IterReturn v) ->
  exists valSize,
    Uint32 bo (drop 4 note) = Returned valSize
    /\ 16 + valSize <= len note
    /\ v = take (Z.to_nat valSize) (drop 16 note).
Proof.
  unfold noteIter. run_bind.
  match goal with
  | |- (?m ≫= _) = _ -> _ => destruct m as [n4| |] eqn:S4
  end; [rewrite bind_Returned|discriminate|discriminate].
  apply sliceFrom_inv in S4 as [_ ->].
  match goal with
  | |- (?m ≫= _) = _ -> _ => destruct m as [valSize| |] eqn:U2
  end; [rewrite bind_Returned|discriminate|discriminate].
  do 3 run_bind.
  match goal with |- (if ?c then _ else _) = _ -> _ => destruct c end.
  - match goal with
    | |- (?m ≫= _) = _ -> _ => destruct m as [w| |] eqn:SV
    end; [rewrite bind_Returned|discriminate|discriminate].
    intros [= <-]. exists valSize. split; [exact U2|].
    exact (value_slice_in_bounds bo note _ w valSize U2 SV).
  - run_bind. cbv zeta.
    destruct (filesz <=? _); [discriminate|].
    destruct (if align =? 0 then _ else _) as [notesz off1].
    run_bind. discriminate.
Qed.

(** So was the generic-linker value an iteration remembers, when it is
    not the one it started with. *)
Lemma noteIter_gnu_in_bounds (bo : ByteOrder) (align : Z) (gnu g : gostring)
    (filesz off : Z) (note : list byte) (res : iterResult) :
  noteIter bo align gnu filesz off note = Returned res ->
  (res = IterBreak g \/ exists fs o n, res = IterNext g fs o n) ->
  g = gnu
  \/ exists valSize,
       Uint32 bo (drop 4 note) = Returned valSize
       /\ 16 + valSize <= len note
       /\ g = take (Z.to_nat valSize) (drop 16 note).
Proof.
  unfold noteIter. run_bind.
  match goal with
  | |- (?m ≫= _) = _ -> _ => destruct m as [n4| |] eqn:S4
  end; [rewrite bind_Returned|discriminate|discriminate].
  apply sliceFrom_inv in S4 as [_ ->].
  match goal with
  | |- (?m ≫= _) = _ -> _ => destruct m as [valSize| |] eqn:U2
  end; [rewrite bind_Returned|discriminate|discriminate].
  do 3 run_bind.
  match goal with |- (if ?c then _ else _) = _ -> _ => destruct c end.
  - run_bind. intros [= <-] [H|(fs & o & n & H)]; discriminate.
  - match goal with
    | |- ((if ?c then _ else _) ≫= _) = _ -> _ => destruct c
    end.
    + match goal with
      | |- (?m ≫= _) = _ -> _ => destruct m as [w| |] eqn:SV
      end; [rewrite bind_Returned|discriminate|discriminate].
      pose proof (value_slice_in_bounds bo note _ w valSize U2 SV) as Hw.
      cbv zeta. intros Hres Hg. right. exists valSize. split; [exact U2|].
      assert (w = g) as <-; [|exact Hw].
      destruct (filesz <=? _).
      * injection Hres as <-.
        destruct Hg as [[= ->]|(fs & o & n & [=])]. reflexivity.
      * destruct (if align =? 0 then _ else _) as [notesz off1].
        revert Hres. run_bind. intros [= <-].
        destruct Hg as [[=]|(fs & o & n & [= -> _ _ _])]. reflexivity.
    + rewrite bind_Returned. cbv zeta. intros Hres Hg. left.
      destruct (filesz <=? _).
      * injection Hres as <-.
        destruct Hg as [[= ->]|(fs & o & n & [=])]. reflexivity.
      * destruct (if align =? 0 then _ else _) as [notesz off1].
        revert Hres. run_bind. intros [= <-].
        destruct Hg as [[=]|(fs & o & n & [= -> _ _ _])]. reflexivity.
Qed.

(** ** Inputs on which the walk does not return *)

(** C10 (as the code behaves).  On [crashImage], a 64-bit ELF file whose
    20-byte note segment has alignment 64, the first record is 16 bytes
    long and four bytes remain; the padding to the next multiple of 64 is
    added to the advance after the size check, and [note[notesz:]] is taken
    beyond the end of the note buffer: the resolver panics, and [Parse]
    with it. *)
Theorem C10_alignment_padding_overruns (fuel : nat) :
  noteIter LittleEndian 64 [] 20 120 crashNotes = Panicked
  /\ fst (getBuildID leDecoder (S fuel) (openFile crashImage)) = Panicked
  /\ fst (Parse leDecoder sampleRead (S fuel) (openFile crashImage)) = Panicked.
Proof. repeat split; vm_compute; reflexivity. Qed.

(** A value size of 0xFFFFFFF0 or more passes the guard
    [16+valSize <= uint32(len(note))] by wrapping around, and the slice
    [note[16:16+valSize]] panics. *)
Lemma noteIter_value_size_wraps :
  noteIter LittleEndian 4 [] 20 120
    (leBytes 4 4 ++ leBytes 4 (2 ^ 32 - 16) ++ leBytes 4 elfGoBuildIDTag
     ++ elfGoNote ++ zeros 4)
  = Panicked.
Proof. vm_compute. reflexivity. Qed.

(** On [stuckNotes] the computed record size is 0 and the offset is
    aligned: an iteration leaves the state of the walk as it found it. *)
Lemma noteIter_stuck :
  noteIter LittleEndian 4 [] 20 120 stuckNotes
  = Returned (IterNext [] 20 120 stuckNotes).
Proof. vm_compute. reflexivity. Qed.

(** Hence no amount of fuel lets the walk return on it: the loop of
    [readELF] does not terminate on this input. *)
Lemma noteLoop_diverges (fuel : nat) :
  noteLoop fuel LittleEndian 4 [] 20 120 stuckNotes = OutOfFuel.
Proof.
  induction fuel as [|fuel IH]; [reflexivity|].
  rewrite noteLoop_step by lia.
  rewrite noteIter_stuck, bind_Returned. exact IH.
Qed.

(** ** The properties on the sample inputs *)

Lemma sample_records :
  RecordAt LittleEndian sampleGNU (encodeNote sampleGNU)
  /\ RecordAt LittleEndian sampleGo (encodeNote sampleGo)
  /\ RecordAt LittleEndian sampleABI (encodeNote sampleABI).
Proof.
  repeat split; apply encodeNote_RecordAt; vm_compute; intuition discriminate.
Qed.

Lemma bothNotes_layout (off : Z) :
  NoteLayout LittleEndian 4 (4 * off) bothNotes [sampleGNU; sampleGo].
Proof.
  destruct sample_records as (HG & HN & _).
  apply (NL_more LittleEndian 4 (4 * off) sampleGNU (encodeNote sampleGNU) []
           (encodeNote sampleGo) [sampleGo]).
  - exact HG.
  - change (len (encodeNote sampleGNU)) with 20. change (len []) with 0.
    unfold roundUp. change (4 =? 0) with false. cbv iota.
    replace (4 * off + 20 + 4 - 1) with (3 + (off + 5) * 4) by lia.
    rewrite Z.div_add by lia. change (3 / 4) with 0. lia.
  - apply NL_last. exact HN.
Qed.

(** A file with one note segment, as [leDecoder] and the scan see it. *)
Lemma noteFile_image (file data : list byte) (off filesz : Z)
    (recs : list NoteRecord) (bs : list byte) :
  data !! EI_CLASS = Some x02 -> 61 < len data ->
  leDecoder (clearShdr data)
  = inr (mkFile LittleEndian [mkProg PT_NOTE off filesz 4]) ->
  0 <= off -> 16 <= filesz < 2 ^ 32 -> off + filesz + 4 < 2 ^ 63 ->
  SegmentBytes file (clearShdr data) (mkProg PT_NOTE off filesz 4) bs ->
  NoteLayout LittleEndian 4 off bs recs ->
  ELF64Image leDecoder file data
    (mkFile LittleEndian [mkProg PT_NOTE off filesz 4]) [recs].
Proof.
  intros Hc Hlen Hdec Hoff Hsz Hmax Hbs HL.
  split; [exists x02; split; [exact Hc|reflexivity]|].
  split; [exact Hlen|]. split; [exact Hdec|].
  constructor; [|constructor].
  unfold SegmentRecords, isNoteSegment, offsetToNoteData. cbn [Typ Off Filesz Align].
  change (PT_NOTE =? PT_NOTE) with true.
  destruct (Z.leb_spec 16 filesz) as [_|]; [|lia]. cbn [andb].
  split; [lia|]. split; [lia|]. split; [lia|].
  split; [right; exists 2; split; [lia|reflexivity]|].
  exists bs. split; assumption.
Qed.

Lemma bothImage_wf :
  ELF64Image leDecoder bothImage bothImage
    (mkFile LittleEndian [mkProg PT_NOTE 120 52 4]) [[sampleGNU; sampleGo]].
Proof.
  apply (noteFile_image bothImage bothImage 120 52 _ bothNotes);
    try (vm_compute; reflexivity); try lia.
  exact (bothNotes_layout 30).
Qed.

Lemma gnuImage_wf :
  ELF64Image leDecoder gnuImage gnuImage
    (mkFile LittleEndian [mkProg PT_NOTE 120 20 4]) [[sampleGNU]].
Proof.
  apply (noteFile_image gnuImage gnuImage 120 20 _ (encodeNote sampleGNU));
    try (vm_compute; reflexivity); try lia.
  apply NL_last. apply sample_records.
Qed.

Lemma abiImage_wf :
  ELF64Image leDecoder abiImage abiImage
    (mkFile LittleEndian [mkProg PT_NOTE 120 20 4]) [[sampleABI]].
Proof.
  apply (noteFile_image abiImage abiImage 120 20 _ (encodeNote sampleABI));
    try (vm_compute; reflexivity); try lia.
  apply NL_last. apply sample_records.
Qed.

Lemma one_segment_fuel (bo : ByteOrder) (p : Prog) (fuel : nat) :
  Filesz p <= Z.of_nat fuel -> FuelFor fuel (mkFile bo [p]).
Proof. intros H. constructor; [intros _; exact H|constructor]. Qed.

Lemma C1_witness :
  fst (readELF leDecoder 52 (openFile bothImage) bothImage)
  = Returned (nDesc sampleGo, None)
  /\ fst (readELF leDecoder 52 (openFile gnuImage) gnuImage)
     = Returned (nDesc sampleGNU, None).
Proof.
  split.
  - apply (proj1 (C1_native_note_preferred leDecoder 52 (openFile bothImage)
                    bothImage _ _ bothImage_wf
                    (one_segment_fuel LittleEndian (mkProg PT_NOTE 120 52 4) 52
                       ltac:(cbn; lia)))
             [sampleGNU] sampleGo []).
    + reflexivity.
    + reflexivity.
    + repeat constructor.
  - apply (proj2 (C1_native_note_preferred leDecoder 52 (openFile gnuImage)
                    gnuImage _ _ gnuImage_wf
                    (one_segment_fuel LittleEndian (mkProg PT_NOTE 120 20 4) 52
                       ltac:(cbn; lia)))
             [] sampleGNU []).
    + reflexivity.
    + repeat constructor.
    + reflexivity.
    + constructor.
Defined.

(** C1 (as stated) fails on [skewImage], a 64-bit ELF file whose note
    segment holds a generic-linker record and, right after it, a
    toolchain-native record, in a segment that declares alignment 8.  The
    second record starts at file offset 140; after the first one the walk
    rounds its offset up to 144 and reads the next header 4 bytes into
    the toolchain-native record, which it does not recognise: the
    resolver returns the value of the generic-linker note. *)
Lemma C1_counterexample :
  leDecoder (clearShdr (windowOf skewImage))
  = inr (mkFile LittleEndian [mkProg PT_NOTE 120 52 8])
  /\ take 52 (drop 120 skewImage)
     = encodeNote sampleGNU ++ encodeNote sampleGo
  /\ RecordAt LittleEndian sampleGNU (encodeNote sampleGNU)
  /\ RecordAt LittleEndian sampleGo (encodeNote sampleGo)
  /\ isGNU sampleGNU = true /\ isGo sampleGo = true
  /\ noteIter LittleEndian 8 [] 52 120
       (encodeNote sampleGNU ++ encodeNote sampleGo)
     = Returned
         (IterNext (nDesc sampleGNU) 28 144
            (drop 24 (encodeNote sampleGNU ++ encodeNote sampleGo)))
  /\ fst (getBuildID leDecoder 52 (openFile skewImage))
     = Returned (nDesc sampleGNU, None)
  /\ nDesc sampleGNU <> nDesc sampleGo.
Proof.
  destruct sample_records as (HG & HN & _).
  split; [vm_compute; reflexivity|]. split; [vm_compute; reflexivity|].
  split; [exact HG|]. split; [exact HN|].
  split; [reflexivity|]. split; [reflexivity|].
  split; [vm_compute; reflexivity|]. split; [vm_compute; reflexivity|].
  discriminate.
Qed.

Lemma C5_witness :
  fst (readELF leDecoder 52 (openFile abiImage) abiImage) = Returned ([], None)
  /\ fst (readELF leDecoder 52 (openFile shortImage) shortImage)
     = Returned ([], None).
Proof.
  split.
  - apply (proj1 (C5_no_note_empty_id leDecoder 52 (openFile abiImage)
                    abiImage _) _ abiImage_wf
             (one_segment_fuel LittleEndian (mkProg PT_NOTE 120 20 4) 52
                       ltac:(cbn; lia))).
    + repeat constructor.
    + repeat constructor.
  - apply (proj2 (C5_no_note_empty_id leDecoder 52 (openFile shortImage)
                    shortImage (mkFile LittleEndian [mkProg PT_NOTE 120 12 4]))).
    + exists x02. split; reflexivity.
    + vm_compute. reflexivity.
    + vm_compute. reflexivity.
    + constructor; [|constructor]. intros _. cbn. lia.
Defined.

(** C5 (as stated) fails on [strayImage], a 64-bit ELF file of 184 bytes
    that holds no note: its program header announces a note segment of 20
    bytes at offset 50000, the scan seeks there and reads nothing, and the
    resolver returns [io.EOF].  It fails on [crashImage] as well, whose
    one record is neither note: there the resolver panics. *)
Lemma C5_counterexample :
  len strayImage = 184
  /\ leDecoder (clearShdr (windowOf strayImage))
     = inr (mkFile LittleEndian [mkProg PT_NOTE 50000 20 4])
  /\ fst (getBuildID leDecoder 52 (openFile strayImage))
     = Returned ([], Some io_EOF)
  /\ log (snd (getBuildID leDecoder 52 (openFile strayImage)))
     = [EvReadAt 0 8; EvRead readSize; EvSeek 50000; EvRead 20]
  /\ crashNotes = encodeNote (mkNote elfGNUNote 1 []) ++ zeros 4
  /\ isGo (mkNote elfGNUNote 1 []) = false
  /\ isGNU (mkNote elfGNUNote 1 []) = false
  /\ fst (getBuildID leDecoder 52 (openFile crashImage)) = Panicked.
Proof. repeat split; vm_compute; reflexivity. Qed.

Lemma C6_witness :
  take 8 bigafImage = bigafMagic
  /\ getBuildID leDecoder 52 (openFile bigafImage)
     = (Returned ([], Some errProgramNotSupported),
        mkHandle bigafImage 0 [EvReadAt 0 8]).
Proof.
  split; [reflexivity|].
  apply (C6_bigaf_not_supported leDecoder 52 (openFile bigafImage)).
  reflexivity.
Defined.

Lemma C3_witness :
  take 8 archiveImage = archMagic
  /\ getBuildID leDecoder 52 (openFile archiveImage)
     = (Returned ([], Some errProgramNotSupported),
        mkHandle archiveImage 0 [EvReadAt 0 8]).
Proof.
  split; [reflexivity|].
  apply (C3_archive_not_supported leDecoder 52 (openFile archiveImage)).
  reflexivity.
Defined.

(** C3 (as stated) fails on [archiveImage]: the file starts with the
    archive magic and its member is an ELF image with a toolchain-native
    note, yet the resolver fails at once, having read the 8-byte prefix
    and nothing of the member. *)
Lemma C3_counterexample :
  take 8 archiveImage = archMagic
  /\ drop 68 archiveImage = bothImage
  /\ fst (getBuildID leDecoder 52 (openFile bothImage))
     = Returned (nDesc sampleGo, None)
  /\ fst (getBuildID leDecoder 52 (openFile archiveImage))
     = Returned ([], Some errProgramNotSupported)
  /\ log (snd (getBuildID leDecoder 52 (openFile archiveImage)))
     = [EvReadAt 0 8].
Proof. repeat split; vm_compute; reflexivity. Qed.

Lemma C4_witness :
  fst (getBuildID leDecoder 52 (openFile cutImage)) = Returned ([], Some io_EOF)
  /\ fst (Parse leDecoder sampleRead 52 (openFile cutImage))
     = Returned
         (inl [types.mkLibrary "github.com/a/b" "v1.2.3" [] ["EOF"%string];
               types.mkLibrary "github.com/fork/d" "v0.1.1" [] ["EOF"%string]]).
Proof.
  assert (Hid : fst (getBuildID leDecoder 52 (openFile cutImage))
                = Returned ([], Some io_EOF)) by (vm_compute; reflexivity).
  split; [exact Hid|].
  destruct (C4_resolution_error_is_warning leDecoder sampleRead 52
              (openFile cutImage) _ [] io_EOF eq_refl Hid)
    as (libs & HP & Hlibs & _).
  rewrite HP, Hlibs. reflexivity.
Defined.

Lemma C7_witness :
  exists buildID warnings,
    fst (Parse leDecoder sampleRead 52 (openFile bothImage))
    = Returned
        (inl [types.mkLibrary "github.com/a/b" "v1.2.3" buildID warnings;
              types.mkLibrary "github.com/fork/d" "v0.1.1" buildID warnings]).
Proof.
  apply (proj2 (C7_one_record_per_dependency leDecoder sampleRead 52
                  (openFile bothImage) _) eq_refl).
  right. eexists. vm_compute. reflexivity.
Defined.


Lemma C2_witness :
  exists gnu',
    noteIter LittleEndian 4 [] 52 120 (encodeNote sampleABI ++ encodeNote sampleGo)
    = Returned (IterNext gnu' 32 140 (encodeNote sampleGo)).
Proof.
  apply (C2_record_advance LittleEndian 4 [] 52 120
           (encodeNote sampleABI ++ encodeNote sampleGo) 4 4 1);
    try reflexivity; try lia.
  - right. exists 2. split; [lia|reflexivity].
  - vm_compute. discriminate.
Defined.

(** C2 (as stated) fails: on a record with a 4-byte name and a 4-byte
    value the formula [16 + align4 nameSize + align4 valSize] gives 24,
    while the walk advances by 20 bytes, to the record that starts there;
    24 bytes on, it would be inside that record. *)
Lemma C2_counterexample :
  Uint32 LittleEndian (encodeNote sampleABI ++ encodeNote sampleGo) = Returned 4
  /\ Uint32 LittleEndian (drop 4 (encodeNote sampleABI ++ encodeNote sampleGo))
     = Returned 4
  /\ 16 + align4 4 + align4 4 = 24
  /\ noteIter LittleEndian 4 [] 52 120
       (encodeNote sampleABI ++ encodeNote sampleGo)
     = Returned
         (IterNext [] (52 - 20) (120 + 20)
            (drop 20 (encodeNote sampleABI ++ encodeNote sampleGo)))
  /\ drop 20 (encodeNote sampleABI ++ encodeNote sampleGo)
     <> drop 24 (encodeNote sampleABI ++ encodeNote sampleGo).
Proof.
  repeat split; try (vm_compute; reflexivity).
  vm_compute. discriminate.
Qed.

(** ** The scenarios of the specification, end to end *)

(** One note segment with a Go-tagged note of value "abcdef0123456789"
    (after a generic-linker note): the resolved build ID is that value,
    and the resolver read the prefix and the window only. *)
Example scenario_go_note :
  fst (getBuildID leDecoder 52 (openFile bothImage))
  = Returned (nDesc sampleGo, None)
  /\ log (snd (getBuildID leDecoder 52 (openFile bothImage)))
     = [EvReadAt 0 8; EvRead readSize].
Proof. split; vm_compute; reflexivity. Qed.

(** The note payload lies at file offset 50000, beyond the window: the
    resolver seeks to it, reads its 52 bytes and returns the same value. *)
Example scenario_far_note :
  fst (getBuildID leDecoder 52 (openFile farImage))
  = Returned (nDesc sampleGo, None)
  /\ log (snd (getBuildID leDecoder 52 (openFile farImage)))
     = [EvReadAt 0 8; EvRead readSize; EvSeek 50000; EvRead 52].
Proof. split; vm_compute; reflexivity. Qed.

(** A module list with an entry of empty path and version "Devel" and two
    valid entries: a record for each valid entry only, the second under
    the name of its replacement. *)
Example scenario_placeholder_dependency :
  fst (Parse leDecoder sampleRead 52 (openFile bothImage))
  = Returned
      (inl [types.mkLibrary "github.com/a/b" "v1.2.3" (nDesc sampleGo) [];
            types.mkLibrary "github.com/fork/d" "v0.1.1" (nDesc sampleGo) []]).
Proof. vm_compute. reflexivity. Qed.

(** A file whose note segment lies beyond its end: the resolution fails
    with an I/O error, which [Parse] turns into a warning. *)
Example scenario_cut_file :
  fst (getBuildID leDecoder 52 (openFile cutImage))
  = Returned ([], Some io_EOF).
Proof. vm_compute. reflexivity. Qed.

(** * Further properties of the binary parser *)

(** ** The resolver on files that are not ELF objects *)

Section ResolverEdges.

Variable elf_NewFile : list byte -> error + File.

(** X1.  On a file of fewer than 8 bytes (the empty file included) the
    resolver returns [io.EOF] with the empty build ID, whatever the cursor:
    the 8-byte read at offset 0 is its only operation on the handle. *)
Theorem X1_short_file_EOF (fuel : nat) (r : handle) :
  len (content r) < 8 ->
  getBuildID elf_NewFile fuel r
  = (Returned ([], Some io_EOF),
     mkHandle (content r) (cursor r) (log r ++ [EvReadAt 0 8])).
Proof.
  intros Hlen. unfold getBuildID, ReadAt.
  change (Z.to_nat 0) with 0%nat. rewrite drop_0.
  assert (len (take (Z.to_nat 8) (content r)) < 8) as Hgot.
  { unfold len in *. rewrite length_take. lia. }
  destruct (Z.ltb_spec (len (take (Z.to_nat 8) (content r))) 8); [|lia].
  reflexivity.
Qed.

Lemma zeros_cons (n : nat) : zeros (S n) = x00 :: zeros n.
Proof. reflexivity. Qed.

(** The magic test on a buffer filled up with zero bytes is the magic test
    on the bytes read. *)
Lemma HasPrefix_padded (w : list byte) (k : nat) :
  bytes_HasPrefix (w ++ zeros k) elfPrefix = true ->
  bytes_HasPrefix w elfPrefix = true.
Proof.
  unfold bytes_HasPrefix. intros H. apply andb_true_iff in H as [_ H].
  apply bytes_Equal_true in H. change (length elfPrefix) with 4%nat in *.
  apply andb_true_iff.
  destruct w as [|a [|b [|c [|d w]]]]; cbn [app take] in H.
  - destruct k as [|k]; [discriminate|]. rewrite zeros_cons in H. discriminate.
  - destruct k as [|k]; [discriminate|]. rewrite zeros_cons in H. discriminate.
  - destruct k as [|k]; [discriminate|]. rewrite zeros_cons in H. discriminate.
  - destruct k as [|k]; [discriminate|]. rewrite zeros_cons in H. discriminate.
  - split; [|apply bytes_Equal_true; exact H].
    change (len elfPrefix) with 4. unfold len. cbn [length].
    apply Z.leb_le. lia.
Qed.

Lemma HasPrefix_window (w : list byte) (n k : nat) :
  (4 <= n)%nat ->
  bytes_HasPrefix w elfPrefix = false ->
  bytes_HasPrefix (take n w ++ zeros k) elfPrefix = false.
Proof.
  intros Hn Hmagic.
  destruct (bytes_HasPrefix (take n w ++ zeros k) elfPrefix) eqn:E;
    [|reflexivity].
  apply HasPrefix_padded in E.
  unfold bytes_HasPrefix in E.
  apply andb_true_iff in E as [_ E]. apply bytes_Equal_true in E.
  rewrite take_take in E. change (length elfPrefix) with 4%nat in E.
  rewrite Nat.min_l in E by exact Hn.
  rewrite <- Hmagic. symmetry. unfold bytes_HasPrefix.
  apply andb_true_iff. split.
  - pose proof (f_equal length E) as EL. rewrite length_take in EL.
    change (length elfPrefix) with 4%nat in EL.
    change (len elfPrefix) with 4. unfold len. apply Z.leb_le. lia.
  - apply bytes_Equal_true. exact E.
Qed.

Lemma readSize_ge_4 : (4 <= Z.to_nat readSize)%nat.
Proof. unfold readSize. lia. Qed.

(** X2.  The resolver reads its window at the cursor, not at offset 0.  On
    a file of 8 bytes or more that does not start with an archive magic:
    with the cursor at or past the end of the file it returns [io.EOF]; and
    when the bytes at the cursor do not start with the ELF magic it
    returns the not-supported error (so also on an ELF file whose handle was
    not rewound). *)
Theorem X2_window_read_at_cursor (fuel : nat) (r : handle) :
  8 <= len (content r) -> 0 <= cursor r ->
  take 8 (content r) <> archMagic -> take 8 (content r) <> bigafMagic ->
  (len (content r) <= cursor r ->
   fst (getBuildID elf_NewFile fuel r) = Returned ([], Some io_EOF))
  /\ (bytes_HasPrefix (drop (Z.to_nat (cursor r)) (content r)) elfPrefix = false ->
      cursor r < len (content r) ->
      fst (getBuildID elf_NewFile fuel r)
      = Returned ([], Some errProgramNotSupported)).
Proof.
  intros Hlen Hcur Harch Hbig.
  assert (HR : ReadAt r 8 0
               = ((take 8 (content r), None),
                  mkHandle (content r) (cursor r) (log r ++ [EvReadAt 0 8]))).
  { unfold ReadAt. change (Z.to_nat 0) with 0%nat.
    change (Z.to_nat 8) with 8%nat. rewrite drop_0.
    assert (len (take 8 (content r)) = 8) as ->
      by (unfold len in *; rewrite length_take; lia).
    reflexivity. }
  apply bytes_Equal_false in Harch, Hbig.
  unfold getBuildID. rewrite HR, Harch, Hbig. cbn [negb].
  unfold ReadFull. cbn [content cursor log].
  change (readSize <=? 0) with false. cbv iota.
  set (got := take (Z.to_nat readSize) (drop (Z.to_nat (cursor r)) (content r))).
  split.
  - intros Hend.
    assert (got = []) as ->.
    { unfold got. rewrite drop_ge by (unfold len in *; lia). apply take_nil. }
    reflexivity.
  - intros Hmagic Hin.
    assert (0 < len got) as Hgot.
    { unfold got, len in *. rewrite length_take, length_drop.
      unfold readSize. lia. }
    destruct (Z.eqb_spec (len got) 0) as [|_]; [lia|].
    assert (Hw : forall k, bytes_HasPrefix (got ++ zeros k) elfPrefix = false).
    { intros k. apply HasPrefix_window; [exact readSize_ge_4|exact Hmagic]. }
    destruct (Z.ltb_spec (len got) readSize); cbn [fst].
    + rewrite Hw. reflexivity.
    + specialize (Hw 0%nat). change (zeros 0) with (@nil byte) in Hw.
      rewrite app_nil_r in Hw. rewrite Hw. reflexivity.
Qed.

End ResolverEdges.

Lemma X1_witness :
  getBuildID leDecoder 52 (openFile (take 7 bothImage))
  = (Returned ([], Some io_EOF),
     mkHandle (take 7 bothImage) 0 [EvReadAt 0 8]).
Proof.
  apply (X1_short_file_EOF leDecoder 52 (openFile (take 7 bothImage))).
  vm_compute. reflexivity.
Defined.

Lemma X2_witness :
  fst (getBuildID leDecoder 52 (mkHandle bothImage (len bothImage) []))
  = Returned ([], Some io_EOF)
  /\ fst (getBuildID leDecoder 52 (mkHandle bothImage 4 []))
     = Returned ([], Some errProgramNotSupported).
Proof.
  assert (Hlen : len bothImage = 236) by (vm_compute; reflexivity).
  split.
  - apply (X2_window_read_at_cursor leDecoder 52
             (mkHandle bothImage (len bothImage) []));
      cbn [content cursor]; rewrite ?Hlen;
      [lia|lia|discriminate|discriminate|lia].
  - apply (X2_window_read_at_cursor leDecoder 52 (mkHandle bothImage 4 []));
      cbn [content cursor]; rewrite ?Hlen;
      [lia|lia|discriminate|discriminate|vm_compute; reflexivity|lia].
Defined.

(** ** The walk on arbitrary note bytes *)

(** The note bytes of the next iteration are a suffix of the note bytes. *)
Lemma noteIter_next_suffix (bo : ByteOrder) (align : Z) (gnu gnu' : gostring)
    (filesz off filesz' off' : Z) (note note' : list byte) :
  noteIter bo align gnu filesz off note
  = Returned (IterNext gnu' filesz' off' note') ->
  exists k, 0 <= k <= len note /\ note' = drop (Z.to_nat k) note.
Proof.
  unfold noteIter. do 6 run_bind.
  match goal with |- (if ?c then _ else _) = _ -> _ => destruct c end.
  { run_bind. discriminate. }
  run_bind. cbv zeta.
  destruct (filesz <=? _); [discriminate|].
  destruct (if align =? 0 then _ else _) as [notesz off1].
  match goal with
  | |- (?m ≫= _) = _ -> _ => destruct m as [n'| |] eqn:S
  end; [rewrite bind_Returned|discriminate|discriminate].
  intros [= _ _ _ <-]. apply sliceFrom_inv in S as [Hk ->].
  exists notesz. split; [exact Hk|reflexivity].
Qed.

(** X3.  Whatever the note bytes, the alignment and the sizes written in
    them, a build ID the walk returns or remembers is a contiguous slice of
    the note bytes it was given (or the value remembered before the
    walk). *)
Theorem X3_walk_value_is_slice (fuel : nat) (bo : ByteOrder) (align : Z) :
  forall (gnu : gostring) (filesz off : Z) (note : list byte) (w : walkResult),
    noteLoop fuel bo align gnu filesz off note = Returned w ->
    w = WalkDone gnu
    \/ exists k n, 0 <= k /\ 0 <= n /\ k + n <= len note
                   /\ walkValue w = take (Z.to_nat n) (drop (Z.to_nat k) note).
Proof.
  induction fuel as [|fuel IH]; intros gnu filesz off note w; cbn [noteLoop].
  - destruct (filesz <? offsetToNoteData); [|discriminate].
    intros [= <-]. left. reflexivity.
  - destruct (filesz <? offsetToNoteData); [intros [= <-]; left; reflexivity|].
    destruct (noteIter bo align gnu filesz off note) as [res| |] eqn:Hit;
      [rewrite bind_Returned|discriminate|discriminate].
    destruct res as [v|g|g fs o n'].
    + intros [= <-]. right.
      apply noteIter_return_in_bounds in Hit as (vs & HU & Hb & ->).
      apply Uint32_range in HU.
      exists 16, vs. repeat split; try lia; try reflexivity.
    + intros [= <-].
      destruct (noteIter_gnu_in_bounds bo align gnu g filesz off note _ Hit
                  (or_introl eq_refl)) as [->|(vs & HU & Hb & ->)].
      * left. reflexivity.
      * right. apply Uint32_range in HU.
        exists 16, vs. repeat split; try lia; try reflexivity.
    + intros Hrest.
      destruct (noteIter_next_suffix _ _ _ _ _ _ _ _ _ _ Hit) as (k & Hk & ->).
      destruct (noteIter_gnu_in_bounds bo align gnu g filesz off note _ Hit
                  (or_intror (ex_intro _ fs (ex_intro _ o
                     (ex_intro _ _ eq_refl))))) as [->|(vs & HU & Hb & Hg)].
      * destruct (IH _ _ _ _ _ Hrest) as [->|(k' & n & H1 & H2 & H3 & ->)];
          [left; reflexivity|].
        right. rewrite len_drop in H3 by lia.
        exists (k + k'), n. repeat split; try lia.
        rewrite drop_drop. f_equal. f_equal. lia.
      * destruct (IH _ _ _ _ _ Hrest) as [->|(k' & n & H1 & H2 & H3 & ->)].
        -- right. apply Uint32_range in HU.
           exists 16, vs. repeat split; try lia; try exact Hg.
        -- right. rewrite len_drop in H3 by lia.
           exists (k + k'), n. repeat split; try lia.
           rewrite drop_drop. f_equal. f_equal. lia.
Qed.

Lemma X3_witness :
  exists k n, 0 <= k /\ 0 <= n /\ k + n <= len bothNotes
              /\ nDesc sampleGo = take (Z.to_nat n) (drop (Z.to_nat k) bothNotes).
Proof.
  destruct (X3_walk_value_is_slice 52 LittleEndian 4 [] 52 120 bothNotes
              (WalkReturn (nDesc sampleGo)) eq_refl)
    as [H|H]; [discriminate H|exact H].
Defined.

(** X4.  The walk keeps the remaining size equal to the length of the
    remaining note bytes: after an iteration that continues, [filesz] is
    again [len(note)]. *)
Theorem X4_remaining_size_is_length (bo : ByteOrder) (align : Z)
    (gnu gnu' : gostring) (filesz off filesz' off' : Z)
    (note note' : list byte) :
  filesz = len note -> filesz < 2 ^ 64 ->
  noteIter bo align gnu filesz off note
  = Returned (IterNext gnu' filesz' off' note') ->
  filesz' = len note' /\ filesz' <= filesz.
Proof.
  intros Hfs Hmax Hit.
  pose proof (noteIter_keeps_length _ _ _ _ _ _ _ _ _ _ Hfs Hmax Hit) as Hl.
  split; [exact Hl|].
  destruct (noteIter_next_suffix _ _ _ _ _ _ _ _ _ _ Hit) as (k & Hk & ->).
  rewrite Hl, len_drop by lia. lia.
Qed.

Lemma X4_witness :
  32 = len (encodeNote sampleGo) /\ 32 <= 52.
Proof.
  apply (X4_remaining_size_is_length LittleEndian 4 [] [] 52 120 32 140
           (encodeNote sampleABI ++ encodeNote sampleGo) (encodeNote sampleGo));
    [reflexivity|lia|vm_compute; reflexivity].
Defined.

Lemma roundUp_aligned (a x : Z) : 0 < a -> (a | x) -> roundUp a x = x.
Proof.
  intros Ha [q ->]. unfold roundUp.
  destruct (Z.eqb_spec a 0) as [|_]; [lia|].
  replace (q * a + a - 1) with ((a - 1) + q * a) by lia.
  rewrite Z.div_add by lia. rewrite Z.div_small by lia. lia.
Qed.




(** The computed size of a record is a multiple of 4, also when it wraps. *)
Lemma record_size_multiple_of_4 (nameSize valSize : Z) :
  (4 | u32 (12 + align4 nameSize + align4 valSize)).
Proof.
  assert (forall a b, (4 | u32 (12 + 4 * a + 4 * b))) as H.
  { intros a b.
    replace (12 + 4 * a + 4 * b) with (4 * (3 + a + b)) by lia.
    unfold u32. change (2 ^ 32) with (4 * 2 ^ 30).
    rewrite Z.mul_mod_distr_l by lia.
    exists ((3 + a + b) mod 2 ^ 30). lia. }
  unfold align4. change 3 with (2 ^ 2 - 1) at 2 4.
  rewrite !andNot_pow2 by lia. apply H.
Qed.

(** X6.  An iteration of the walk returns (it does not panic) on any note
    bytes when the segment alignment adds no padding (alignment 0, or 1, 2
    or 4 at an aligned offset) and the value size read is below
    0xFFFFFFF0; if the walk continues, the offset is still aligned and the
    remaining size has gone down by what the offset has gone up. *)
Theorem X6_iteration_returns_without_padding (bo : ByteOrder) (align : Z)
    (gnu : gostring) (filesz off : Z) (note : list byte) :
  filesz = len note -> 16 <= filesz ->
  0 <= off -> off + filesz + align < 2 ^ 64 ->
  align = 0 \/ ((align = 1 \/ align = 2 \/ align = 4) /\ (align | off)) ->
  (forall valSize,
      Uint32 bo (drop 4 note) = Returned valSize -> valSize < 2 ^ 32 - 16) ->
  exists res,
    noteIter bo align gnu filesz off note = Returned res
    /\ match res with
       | IterNext _ filesz' off' note' =>
           filesz' = len note' /\ off' + filesz' = off + filesz
           /\ off <= off' /\ (align <> 0 -> (align | off'))
       | _ => True
       end.
Proof.
  intros Hfs H16 Hoff Hwrap Halign Hval.
  assert (0 <= align) as Hal0 by lia.
  destruct (Uint32_returns bo note ltac:(lia)) as [ns U1].
  destruct (Uint32_returns bo (drop 4 note)) as [vs U2].
  { change 4%nat with (Z.to_nat 4). rewrite len_drop; lia. }
  destruct (Uint32_returns bo (drop 8 note)) as [tag U3].
  { change 8%nat with (Z.to_nat 8). rewrite len_drop; lia. }
  pose proof (Hval vs U2) as Hvs.
  pose proof (Uint32_range bo _ _ U2) as Hv0.
  rewrite (noteIter_fields bo align gnu filesz off note ns vs tag)
    by (try assumption; lia).
  destruct (noteGuard ns vs note && (tag =? elfGoBuildIDTag)
            && bytes_Equal (take 4 (drop 12 note)) elfGoNote) eqn:Hgo.
  { rewrite iterBody_return by (try assumption; unfold offsetToNoteData; lia).
    eexists. split; [reflexivity|exact I]. }
  unfold iterBody. rewrite Hgo.
  rewrite gnuAfter_ok by (unfold offsetToNoteData; lia).
  rewrite bind_Returned. unfold offsetToNoteFields.
  destruct (record_size_multiple_of_4 ns vs) as [q Hq].
  set (s := u32 (12 + align4 ns + align4 vs)) in *.
  assert (0 <= s < 2 ^ 32) as Hs by (apply Z.mod_pos_bound; lia).
  destruct (Z.leb_spec filesz s) as [|Hmore].
  { eexists. split; [reflexivity|exact I]. }
  rewrite (u64_small (off + s)) by lia.
  assert (Hslice : sliceFrom note s = Returned (drop (Z.to_nat s) note))
    by (apply sliceFrom_ok; lia).
  assert (Hlen' : filesz - s = len (drop (Z.to_nat s) note))
    by (rewrite len_drop; lia).
  destruct Halign as [->|[Hal Hdiv]].
  - change (0 =? 0) with true. cbv iota beta.
    rewrite (u64_small (filesz - s)) by lia. rewrite Hslice, bind_Returned.
    eexists. split; [reflexivity|]. cbv beta iota.
    repeat split; try lia.
  - assert (isPow2 align) as Hpow.
    { destruct Hal as [->|[->| ->]];
        [exists 0|exists 1|exists 2]; split; (lia || reflexivity). }
    assert (0 < align) as Hpos by lia.
    assert ((align | off + s)) as Hdiv'.
    { apply Z.divide_add_r; [exact Hdiv|].
      apply Z.divide_trans with 4; [|exists q; lia].
      destruct Hal as [->|[->| ->]];
        [exists 4|exists 2|exists 1]; reflexivity. }
    destruct (Z.eqb_spec align 0) as [|_]; [lia|].
    rewrite alignedOff_roundUp by (try exact Hpow; lia).
    rewrite roundUp_aligned by assumption.
    rewrite Z.sub_diag. change (u64 0) with 0. rewrite Z.add_0_r.
    rewrite (u64_small s) by lia.
    rewrite (u64_small (filesz - s)) by lia. rewrite Hslice, bind_Returned.
    eexists. split; [reflexivity|]. cbv beta iota.
    repeat split; try lia; try (intros _; exact Hdiv').
Qed.

Lemma X6_witness :
  exists res,
    noteIter LittleEndian 4 [] 52 120 bothNotes = Returned res
    /\ match res with
       | IterNext _ filesz' off' note' =>
           filesz' = len note' /\ off' + filesz' = 120 + 52
           /\ 120 <= off' /\ (4 <> 0 -> (4 | off'))
       | _ => True
       end.
Proof.
  apply (X6_iteration_returns_without_padding LittleEndian 4 [] 52 120
           bothNotes); [reflexivity|lia|lia|lia| |].
  - right. split; [lia|]. exists 30. reflexivity.
  - intros valSize H. vm_compute in H. injection H as <-. lia.
Defined.

(** ** The edited copy of the ELF header *)

Lemma length_clearShdr (data : list byte) :
  length (clearShdr data) = length data.
Proof. unfold clearShdr. cbn [foldl]. rewrite !length_insert. reflexivity. Qed.

(** The bytes of the cleared copy: zero at offsets 40-47, 60 and 61, the
    bytes of the window elsewhere. *)
Lemma clearShdr_lookup (data : list byte) (i : nat) :
  clearShdr data !! i
  = if decide ((40 <= i <= 47)%nat \/ i = 60%nat \/ i = 61%nat)
    then (if decide (i < length data)%nat then Some x00 else None)
    else data !! i.
Proof.
  unfold clearShdr. cbn [foldl].
  rewrite !list_lookup_insert. rewrite !length_insert.
  destruct (decide ((40 <= i <= 47)%nat \/ i = 60%nat \/ i = 61%nat))
    as [Hi|Hi].
  - destruct (decide (i < length data)%nat) as [Hlt|Hge].
    + repeat case_decide; try reflexivity; lia.
    + repeat case_decide; try lia. apply lookup_ge_None_2. lia.
  - repeat case_decide; try reflexivity; lia.
Qed.

Section HeaderCopy.

Variable elf_NewFile : list byte -> error + File.

(** X7.  What [readELF] decodes and scans is the window with the section
    header fields cleared, and only those.  On a window of more than 61
    bytes whose class byte is not [ELFCLASS32], the program headers are
    decoded from, and the in-window note segments sliced from, a copy
    [data'] of the window; for class [ELFCLASS64] the copy has zero bytes
    at offsets 40-47, 60 and 61 and the bytes of the window everywhere
    else (so every note segment that starts at offset 62 or later is
    unchanged), and for any other class it is the window itself. *)
Theorem X7_only_shdr_fields_cleared (fuel : nat) (r : handle)
    (data : list byte) (c : byte) :
  data !! EI_CLASS = Some c -> byteZ c <> ELFCLASS32 -> 61 < len data ->
  exists data' : list byte,
    readELF elf_NewFile fuel r data
    = match elf_NewFile data' with
      | inl err => (Returned ([], Some err), r)
      | inr ef => scanProgs fuel (FileByteOrder ef) data' (Progs ef) [] r
      end
    /\ length data' = length data
    /\ (byteZ c = ELFCLASS64 ->
        (forall i : nat,
            (40 <= i <= 47)%nat \/ i = 60%nat \/ i = 61%nat ->
            data' !! i = Some x00)
        /\ (forall i : nat,
              ~ ((40 <= i <= 47)%nat \/ i = 60%nat \/ i = 61%nat) ->
              data' !! i = data !! i)
        /\ (forall off : nat, (62 <= off)%nat ->
              drop off data' = drop off data))
    /\ (byteZ c <> ELFCLASS64 -> data' = data).
Proof.
  intros Hc H32 Hlen. unfold readELF. rewrite Hc.
  destruct (Z.eqb_spec (byteZ c) ELFCLASS32) as [|_]; [contradiction|].
  destruct (Z.eqb_spec (byteZ c) ELFCLASS64) as [H64|H64].
  - exists (clearShdr data). unfold zeroShdrFields.
    destruct (Z.leb_spec (len data) 61) as [|_]; [lia|].
    split; [reflexivity|]. split; [apply length_clearShdr|].
    split; [|intros H; contradiction].
    intros _. split; [|split].
    + intros i Hi. rewrite clearShdr_lookup.
      rewrite decide_True by exact Hi.
      rewrite decide_True by (unfold len in Hlen; lia). reflexivity.
    + intros i Hi. rewrite clearShdr_lookup.
      rewrite decide_False by exact Hi. reflexivity.
    + intros off Hoff. unfold clearShdr. cbn [foldl].
      rewrite !drop_insert_lt by lia. reflexivity.
  - exists data. split; [reflexivity|]. split; [reflexivity|].
    split; [intros H; contradiction|intros _; reflexivity].
Qed.

End HeaderCopy.

Lemma X7_witness :
  exists data' : list byte,
    readELF leDecoder 52 (openFile bothImage) (windowOf bothImage)
    = match leDecoder data' with
      | inl err => (Returned ([], Some err), openFile bothImage)
      | inr ef =>
          scanProgs 52 (FileByteOrder ef) data' (Progs ef) []
            (openFile bothImage)
      end
    /\ length data' = length (windowOf bothImage)
    /\ (byteZ x02 = ELFCLASS64 ->
        (forall i : nat,
            (40 <= i <= 47)%nat \/ i = 60%nat \/ i = 61%nat ->
            data' !! i = Some x00)
        /\ (forall i : nat,
              ~ ((40 <= i <= 47)%nat \/ i = 60%nat \/ i = 61%nat) ->
              data' !! i = windowOf bothImage !! i)
        /\ (forall off : nat, (62 <= off)%nat ->
              drop off data' = drop off (windowOf bothImage)))
    /\ (byteZ x02 <> ELFCLASS64 -> data' = windowOf bothImage).
Proof.
  apply (X7_only_shdr_fields_cleared leDecoder 52 (openFile bothImage)
           (windowOf bothImage) x02).
  - vm_compute. reflexivity.
  - discriminate.
  - assert (Hwin : len (windowOf bothImage) = 32768)
      by (vm_compute; reflexivity).
    rewrite Hwin. lia.
Defined.

Section ResolverOutcomes.

Variable elf_NewFile : list byte -> error + File.

(** X8.  A 32-bit ELF file is refused without being decoded: on a handle
    at the start of a file of 8 bytes or more that begins with the ELF
    magic and has class byte 1, the resolver returns the not-supported
    error, whatever the decoder would say. *)
Theorem X8_class32_not_supported (fuel : nat) (r : handle) :
  cursor r = 0 -> 8 <= len (content r) ->
  bytes_HasPrefix (content r) elfPrefix = true ->
  content r !! EI_CLASS = Some x01 ->
  fst (getBuildID elf_NewFile fuel r)
  = Returned ([], Some errProgramNotSupported).
Proof.
  intros Hcur Hlen Hmagic Hclass.
  rewrite getBuildID_elf by assumption.
  destruct (window_spec r Hcur ltac:(lia)) as (e & pad & _ & _ & Hw).
  unfold readELF. rewrite Hw.
  rewrite lookup_app_l
    by (rewrite length_take; unfold len, readSize, EI_CLASS in *; lia).
  rewrite lookup_take_lt by (unfold readSize, EI_CLASS; lia).
  rewrite Hclass. reflexivity.
Qed.

(** X9.  The resolver never returns a build ID together with an error:
    whenever it returns an error, the build ID is the empty string. *)
Theorem X9_error_has_empty_id (fuel : nat) (r : handle) (id : gostring)
    (e : error) :
  fst (getBuildID elf_NewFile fuel r) = Returned (id, Some e) -> id = [].
Proof. apply getBuildID_error_id. Qed.

End ResolverOutcomes.

Lemma X8_witness :
  fst (getBuildID leDecoder 52
         (openFile (elfPrefix ++ [x01; x01; x01; x00] ++ zeros 56)))
  = Returned ([], Some errProgramNotSupported).
Proof.
  apply (X8_class32_not_supported leDecoder 52
           (openFile (elfPrefix ++ [x01; x01; x01; x00] ++ zeros 56)));
    try reflexivity.
  vm_compute. discriminate.
Defined.

Lemma X9_witness :
  exists id e,
    fst (getBuildID leDecoder 52 (openFile cutImage)) = Returned (id, Some e)
    /\ id = [].
Proof.
  exists [], io_EOF. split; [vm_compute; reflexivity|].
  apply (X9_error_has_empty_id leDecoder 52 (openFile cutImage) [] io_EOF).
  vm_compute. reflexivity.
Defined.

(** X10.  The scan of the program headers gives the same result for two
    windows, and whether a segment is read from a window or from the file,
    as long as each note segment of 16 bytes or more has the same bytes
    wherever it is read. *)
Theorem X10_scan_independent_of_window (fuel : nat) (bo : ByteOrder)
    (data1 data2 : list byte) (ps : list Prog) (gnu : gostring)
    (h1 h2 : handle) :
  content h1 = content h2 ->
  Forall (fun p =>
            isNoteSegment p = true ->
            0 <= Off p /\ Off p + Filesz p < 2 ^ 63
            /\ exists bs, SegmentBytes (content h1) data1 p bs
                          /\ SegmentBytes (content h1) data2 p bs) ps ->
  fst (scanProgs fuel bo data1 ps gnu h1)
  = fst (scanProgs fuel bo data2 ps gnu h2).
Proof. apply scanProgs_windows. Qed.

Lemma X10_witness :
  fst (scanProgs 52 LittleEndian (windowOf farImage)
         [mkProg PT_NOTE 50000 52 4] [] (openFile farImage))
  = fst (scanProgs 52 LittleEndian (farImage ++ [x00])
           [mkProg PT_NOTE 50000 52 4] [] (openFile farImage)).
Proof.
  apply (X10_scan_independent_of_window 52 LittleEndian (windowOf farImage)
           (farImage ++ [x00]) [mkProg PT_NOTE 50000 52 4] []
           (openFile farImage) (openFile farImage) eq_refl).
  constructor; [|constructor]. intros _. cbn [Off Filesz].
  split; [lia|]. split; [lia|]. exists bothNotes.
  assert (Hlen : len farImage = 50052) by (vm_compute; reflexivity).
  assert (Hwin : len (windowOf farImage) = 32768) by (vm_compute; reflexivity).
  unfold SegmentBytes. cbn [Off Filesz content openFile].
  rewrite len_app, Hlen, Hwin. change (len [x00]) with 1.
  change (50000 + 52 <? 32768) with false.
  change (50000 + 52 <? 50052 + 1) with true. cbv iota.
  split; [split; [lia|vm_compute; reflexivity]|vm_compute; reflexivity].
Defined.

(** ** The cursor after a resolution *)

Lemma loadNote_cursor (h h1 : handle) (data : list byte) (p : Prog)
    (x : list byte + error) :
  len (content h) <= len data -> len (content h) <= cursor h ->
  offsetToNoteData <= Filesz p ->
  loadNote h data p = (Returned x, h1) ->
  len (content h1) <= cursor h1.
Proof.
  intros Hdata Hcur Hfs. unfold loadNote, offsetToNoteData in *.
  destruct (Z.ltb_spec (u64 (Off p + Filesz p)) (len data)) as [|Hout].
  { intros [= _ <-]. exact Hcur. }
  unfold Seek. set (o := int64 (Off p)).
  destruct (Z.ltb_spec o 0) as [|Ho].
  { intros [= _ <-]. exact Hcur. }
  destruct (Z.leb_spec (2 ^ 63) (Filesz p)) as [|Hf]; [discriminate|].
  assert (o = u64 (Off p) /\ o < 2 ^ 63) as [Ho1 Ho2].
  { unfold o, int64 in *. cbv zeta in *.
    destruct (Z.ltb_spec (u64 (Off p)) (2 ^ 63)); [split; [reflexivity|lia]|].
    pose proof (Z.mod_pos_bound (Off p) (2 ^ 64) ltac:(lia)).
    unfold u64 in *. lia. }
  assert (Hsum : u64 (Off p + Filesz p) = o + Filesz p).
  { rewrite Ho1. unfold u64. rewrite <- Z.add_mod_idemp_l by lia.
    apply Z.mod_small. unfold u64 in *. lia. }
  unfold ReadFull. cbn [content cursor log].
  destruct (Z.leb_spec (Filesz p) 0); [lia|].
  set (got := take (Z.to_nat (Filesz p)) (drop (Z.to_nat o) (content h))).
  assert (Hgot : len (content h) <= o + len got).
  { unfold got, len in *. rewrite length_take, length_drop. lia. }
  destruct (len got =? 0); [intros [= _ <-]; exact Hgot|].
  destruct (len got <? Filesz p); intros [= _ <-]; exact Hgot.
Qed.

Lemma scanProgs_cursor (fuel : nat) (bo : ByteOrder) (data : list byte)
    (ps : list Prog) :
  forall (gnu : gostring) (h h1 : handle) (res : gostring * option error),
    len (content h) <= len data -> len (content h) <= cursor h ->
    scanProgs fuel bo data ps gnu h = (Returned res, h1) ->
    len (content h1) <= cursor h1.
Proof.
  induction ps as [|p ps IH]; intros gnu h h1 res Hdata Hcur; cbn [scanProgs].
  - destruct (negb (bytes_Equal gnu [])); intros [= _ <-]; exact Hcur.
  - destruct (negb (Typ p =? PT_NOTE)); cbn [orb]; [apply IH; assumption|].
    destruct (Z.ltb_spec (Filesz p) offsetToNoteData) as [|Hfs];
      [apply IH; assumption|].
    unfold scanSegment.
    pose proof (loadNote_cursor h (snd (loadNote h data p)) data p) as HL.
    pose proof (loadNote_content h data p) as HC.
    destruct (loadNote h data p) as [[[note|e]| |] h2]; cbn [snd] in HL, HC;
      try discriminate.
    + specialize (HL (inl note) Hdata Hcur Hfs eq_refl).
      destruct (noteLoop fuel bo (Align p) gnu (Filesz p) (Off p) note)
        as [[v|gnu']| |]; cbn; try discriminate.
      * intros [= _ <-]. exact HL.
      * apply IH; [rewrite HC; exact Hdata|exact HL].
    + specialize (HL (inr e) Hdata Hcur Hfs eq_refl).
      intros [= _ <-]. exact HL.
Qed.

Lemma len_zeros (n : nat) : len (zeros n) = Z.of_nat n.
Proof. unfold len, zeros. rewrite repeat_length. reflexivity. Qed.

(** A read of [n] bytes on a file of at most [n] bytes fills a buffer of
    [n] bytes and leaves the cursor at or past the end of the file. *)
Lemma ReadFull_cursor (h : handle) (n : Z) :
  0 < n -> 0 <= cursor h -> len (content h) <= n ->
  len (fst (fst (ReadFull h n))) = n
  /\ len (content (snd (ReadFull h n))) <= cursor (snd (ReadFull h n)).
Proof.
  intros Hn Hc Hlen. unfold ReadFull.
  destruct (Z.leb_spec n 0); [lia|].
  set (got := take (Z.to_nat n) (drop (Z.to_nat (cursor h)) (content h))).
  assert (Hgot : len got = Z.min n (Z.max 0 (len (content h) - cursor h))).
  { unfold got, len in *. rewrite length_take, length_drop. lia. }
  destruct (Z.eqb_spec (len got) 0) as [H0|H0]; cbn [fst snd content cursor].
  - rewrite len_zeros. lia.
  - destruct (Z.ltb_spec (len got) n); cbn [fst snd content cursor].
    + rewrite len_app, len_zeros. lia.
    + lia.
Qed.

Section ResolverCursor.

Variable elf_NewFile : list byte -> error + File.

Lemma readELF_cursor (fuel : nat) (h h1 : handle) (data : list byte)
    (res : gostring * option error) :
  len (content h) <= len data -> len (content h) <= cursor h ->
  readELF elf_NewFile fuel h data = (Returned res, h1) ->
  len (content h1) <= cursor h1.
Proof.
  intros Hdata Hcur. unfold readELF.
  destruct (data !! EI_CLASS) as [c|]; [|discriminate].
  destruct (byteZ c =? ELFCLASS32); [intros [= _ <-]; exact Hcur|].
  assert (forall data', (if byteZ c =? ELFCLASS64 then zeroShdrFields data
                         else Returned data) = Returned data' ->
                        len data' = len data) as Hsame.
  { intros data'. destruct (byteZ c =? ELFCLASS64); [|congruence].
    unfold zeroShdrFields. destruct (len data <=? 61); [discriminate|].
    intros [= <-]. unfold len. rewrite length_clearShdr. reflexivity. }
  destruct (if byteZ c =? ELFCLASS64 then zeroShdrFields data else Returned data)
    as [data'| |]; try discriminate.
  specialize (Hsame data' eq_refl).
  destruct (elf_NewFile data') as [e|ef]; [intros [= _ <-]; exact Hcur|].
  apply scanProgs_cursor; [rewrite Hsame; exact Hdata|exact Hcur].
Qed.

(** With the cursor at or past the end of a file that is not an archive,
    the resolver returns [io.EOF]. *)
Lemma getBuildID_past_end (fuel : nat) (r : handle) :
  8 <= len (content r) -> len (content r) <= cursor r ->
  take 8 (content r) <> archMagic -> take 8 (content r) <> bigafMagic ->
  fst (getBuildID elf_NewFile fuel r) = Returned ([], Some io_EOF).
Proof.
  intros Hlen Hcur Harch Hbig.
  rewrite (surjective_pairing (getBuildID elf_NewFile fuel r)).
  unfold getBuildID.
  rewrite (ReadAt_prefix r (take 8 (content r)))
    by (try reflexivity; rewrite length_take; unfold len in *; lia).
  apply bytes_Equal_false in Harch, Hbig. rewrite Harch, Hbig. cbn [negb].
  unfold ReadFull. cbn [content cursor log].
  change (readSize <=? 0) with false. cbv iota.
  rewrite drop_ge by (unfold len in *; lia). rewrite take_nil.
  reflexivity.
Qed.

Lemma getBuildID_cursor (fuel : nat) (r r1 : handle)
    (res : gostring * option error) :
  8 <= len (content r) <= readSize -> 0 <= cursor r ->
  take 8 (content r) <> archMagic -> take 8 (content r) <> bigafMagic ->
  getBuildID elf_NewFile fuel r = (Returned res, r1) ->
  len (content r1) <= cursor r1.
Proof.
  intros Hlen Hcur Harch Hbig. unfold getBuildID.
  rewrite (ReadAt_prefix r (take 8 (content r)))
    by (try reflexivity; rewrite length_take; unfold len in *; lia).
  apply bytes_Equal_false in Harch, Hbig. rewrite Harch, Hbig. cbn [negb].
  set (r0 := mkHandle (content r) (cursor r) (log r ++ [EvReadAt 0 8])).
  destruct (ReadFull_cursor r0 readSize) as [Hd Hc];
    [unfold readSize; lia|exact Hcur|cbn [content r0]; lia|].
  pose proof (ReadFull_content r0 readSize) as Hcont.
  destruct (ReadFull r0 readSize) as [[data e] r2].
  cbn [fst snd] in Hd, Hc, Hcont.
  destruct (match e with
            | Some io_ErrUnexpectedEOF => None
            | _ => e
            end); [intros [= _ <-]; exact Hc|].
  destruct (bytes_HasPrefix data elfPrefix); [|intros [= _ <-]; exact Hc].
  apply readELF_cursor; [|exact Hc].
  rewrite Hcont, Hd. cbn [content r0]. lia.
Qed.

(** X11.  A resolution leaves the cursor at or past the end of a file that
    fits in the 32 KiB window, so the handle has to be rewound before it
    is resolved again: on a file of 8 to 32768 bytes that is not an
    archive, a second resolution on the handle the first one returned
    gives [io.EOF] and the empty build ID, whatever the first one found. *)
Theorem X11_second_resolution_needs_rewind (fuel fuel' : nat) (r r1 : handle)
    (res : gostring * option error) :
  8 <= len (content r) <= readSize -> 0 <= cursor r ->
  take 8 (content r) <> archMagic -> take 8 (content r) <> bigafMagic ->
  getBuildID elf_NewFile fuel r = (Returned res, r1) ->
  fst (getBuildID elf_NewFile fuel' r1) = Returned ([], Some io_EOF).
Proof.
  intros Hlen Hcur Harch Hbig Hrun.
  pose proof (getBuildID_cursor fuel r r1 res Hlen Hcur Harch Hbig Hrun) as Hc.
  pose proof (getBuildID_content elf_NewFile fuel r) as Hcont.
  rewrite Hrun in Hcont. cbn [snd] in Hcont. rewrite Hcont in Hc.
  apply getBuildID_past_end; rewrite ?Hcont; try assumption; lia.
Qed.

End ResolverCursor.

Lemma X11_witness :
  fst (getBuildID leDecoder 52 (openFile bothImage))
  = Returned (nDesc sampleGo, None)
  /\ fst (getBuildID leDecoder 52
            (snd (getBuildID leDecoder 52 (openFile bothImage))))
     = Returned ([], Some io_EOF).
Proof.
  split; [vm_compute; reflexivity|].
  assert (Hlen : len bothImage = 236) by (vm_compute; reflexivity).
  apply (X11_second_resolution_needs_rewind leDecoder 52 52
           (openFile bothImage)
           (snd (getBuildID leDecoder 52 (openFile bothImage)))
           (nDesc sampleGo, None));
    cbn [content cursor openFile]; rewrite ?Hlen.
  - unfold readSize. lia.
  - lia.
  - discriminate.
  - discriminate.
  - vm_compute. reflexivity.
Defined.

(** ** [convertError] *)

Lemma append_cons (c : ascii) (p q : string) :
  (String c p ++ q)%string = String c (p ++ q).
Proof. reflexivity. Qed.

Lemma append_nil (q : string) : (EmptyString ++ q)%string = q.
Proof. reflexivity. Qed.

Lemma string_length_app (p q : string) :
  String.length (p ++ q)%string = (String.length p + String.length q)%nat.
Proof.
  induction p as [|c p IH]; [reflexivity|].
  rewrite append_cons. cbn [String.length Nat.add]. rewrite IH. reflexivity.
Qed.

Lemma substring_all (q : string) : substring 0 (String.length q) q = q.
Proof.
  induction q as [|c q IH]; [reflexivity|].
  cbn [String.length substring]. rewrite IH. reflexivity.
Qed.

Lemma substring_app_suffix (p q : string) :
  substring (String.length p) (String.length q) (p ++ q)%string = q.
Proof.
  induction p as [|c p IH]; [rewrite append_nil; apply substring_all|].
  rewrite append_cons. cbn [String.length substring]. exact IH.
Qed.

Lemma substring_split (s : string) :
  forall n : nat, (n <= String.length s)%nat ->
    s = (substring 0 n s ++ substring n (String.length s - n) s)%string.
Proof.
  induction s as [|c s IH]; intros n Hn.
  - cbn [String.length] in Hn. assert (n = 0%nat) as -> by lia. reflexivity.
  - destruct n as [|n].
    + cbn [substring]. rewrite append_nil, Nat.sub_0_r.
      cbn [String.length substring]. rewrite substring_all. reflexivity.
    + cbn [String.length] in *. cbn [substring Nat.sub].
      rewrite append_cons. f_equal. apply IH. lia.
Qed.

(** [strings.HasSuffix s suffix] holds exactly when [s] ends with
    [suffix]. *)
Lemma HasSuffix_spec (s suffix : string) :
  strings_HasSuffix s suffix = true <-> exists p, s = (p ++ suffix)%string.
Proof.
  unfold strings_HasSuffix. split.
  - intros H. apply andb_true_iff in H as [Hle Heq].
    apply Nat.leb_le in Hle. apply String.eqb_eq in Heq.
    exists (substring 0 (String.length s - String.length suffix) s).
    pose proof (substring_split s (String.length s - String.length suffix)
                  ltac:(lia)) as Hs.
    replace (String.length s - (String.length s - String.length suffix))%nat
      with (String.length suffix) in Hs by lia.
    rewrite Heq in Hs. exact Hs.
  - intros [p ->]. rewrite string_length_app. apply andb_true_iff. split.
    + apply Nat.leb_le. lia.
    + replace (String.length p + String.length suffix - String.length suffix)%nat
        with (String.length p) by lia.
      rewrite substring_app_suffix. apply String.eqb_refl.
Qed.

Lemma lastChar_app (p q : string) :
  q <> EmptyString -> lastChar (p ++ q)%string = lastChar q.
Proof.
  intros Hq. induction p as [|c p IH]; [reflexivity|].
  rewrite append_cons. cbn [lastChar].
  destruct (p ++ q)%string eqn:E; [|exact IH].
  destruct p; [rewrite append_nil in E; contradiction|discriminate].
Qed.

(** A text ending with one of the two suffixes does not end with the
    other: the order of the two tests of [convertError] is immaterial. *)
Lemma suffixes_exclusive (s : string) :
  strings_HasSuffix s "unrecognized file format" = true ->
  strings_HasSuffix s "not a Go executable" = true -> False.
Proof.
  intros H1 H2. apply HasSuffix_spec in H1 as [p1 E1], H2 as [p2 E2].
  pose proof (f_equal lastChar E1) as L1.
  pose proof (f_equal lastChar E2) as L2.
  rewrite lastChar_app in L1, L2 by discriminate.
  rewrite L1 in L2. discriminate L2.
Qed.

(** X12.  [convertError] recognises the two metadata errors by the end of
    their text, so under any wrapping prefix; it converts no other error;
    and converting twice is converting once. *)
Theorem X12_convertError_by_suffix (e : error) :
  (convertError e = ErrUnrecognizedExe
   <-> e = ErrUnrecognizedExe
       \/ exists p, Error e = (p ++ "unrecognized file format")%string)
  /\ (convertError e = ErrNonGoBinary
      <-> e = ErrNonGoBinary
          \/ exists p, Error e = (p ++ "not a Go executable")%string)
  /\ (convertError e = e \/ convertError e = ErrUnrecognizedExe
      \/ convertError e = ErrNonGoBinary)
  /\ convertError (convertError e) = convertError e.
Proof.
  pose proof (HasSuffix_spec (Error e) "unrecognized file format") as S1.
  pose proof (HasSuffix_spec (Error e) "not a Go executable") as S2.
  pose proof (suffixes_exclusive (Error e)) as Hex.
  remember (convertError e) as ce eqn:Hce.
  assert (Hagain : ce = e -> convertError ce = ce) by (intros ->; auto).
  unfold convertError in Hce. cbv zeta in Hce.
  destruct (strings_HasSuffix (Error e) "unrecognized file format") eqn:H1;
    [|destruct (strings_HasSuffix (Error e) "not a Go executable") eqn:H2];
    subst ce.
  - split; [|split; [|split]].
    + split; [intros _; right; apply S1; reflexivity|reflexivity].
    + split; [discriminate|].
      intros [->|Hs]; [discriminate H1|].
      exfalso. apply Hex; [reflexivity|apply S2; exact Hs].
    + right. left. reflexivity.
    + reflexivity.
  - split; [|split; [|split]].
    + split; [discriminate|].
      intros [->|Hs]; [discriminate H2|]. apply S1 in Hs. discriminate Hs.
    + split; [intros _; right; apply S2; reflexivity|reflexivity].
    + right. right. reflexivity.
    + reflexivity.
  - split; [|split; [|split]].
    + split; [intros ->; left; reflexivity|].
      intros [->|Hs]; [reflexivity|]. apply S1 in Hs. discriminate Hs.
    + split; [intros ->; left; reflexivity|].
      intros [->|Hs]; [reflexivity|]. apply S2 in Hs. discriminate Hs.
    + left. reflexivity.
    + apply Hagain. reflexivity.
Qed.

(** ** [Parse] on a handle that was parsed before *)

Section ParseAgain.

Variable elf_NewFile : list byte -> error + File.
Variable buildinfo_Read : list byte -> error + debug.BuildInfo.

(** X13.  [Parse] does not rewind the handle.  On a file of 8 to 32768
    bytes that is not an archive and whose metadata lists a dependency, a
    [Parse] that returned leaves a handle on which the next [Parse] still
    succeeds but reports every dependency with the empty build ID and the
    warning [EOF], whatever build ID the first one reported. *)
Theorem X13_parse_again_loses_build_id (fuel fuel' : nat) (r r1 : handle)
    (info : debug.BuildInfo) (libs : list types.Library) :
  8 <= len (content r) <= readSize -> 0 <= cursor r ->
  take 8 (content r) <> archMagic -> take 8 (content r) <> bigafMagic ->
  buildinfo_Read (content r) = inr info -> debug.Deps info <> [] ->
  Parse elf_NewFile buildinfo_Read fuel r = (Returned (inl libs), r1) ->
  fst (Parse elf_NewFile buildinfo_Read fuel' r1)
  = Returned (inl (map (libraryOf [] ["EOF"%string])
                       (List.filter hasPath (debug.Deps info)))).
Proof.
  intros Hlen Hcur Harch Hbig Hread Hdeps Hrun.
  assert (Hpos : (0 <? len (debug.Deps info)) = true).
  { destruct (debug.Deps info); [contradiction|].
    unfold len. cbn [length]. apply Z.ltb_lt. lia. }
  unfold Parse in Hrun. rewrite Hread, Hpos in Hrun.
  pose proof (getBuildID_cursor elf_NewFile fuel r) as Hc.
  pose proof (getBuildID_content elf_NewFile fuel r) as Hcont.
  destruct (getBuildID elf_NewFile fuel r) as [o r2].
  assert (exists res, o = Returned res /\ r2 = r1) as (res & -> & ->).
  { destruct o as [[id [e|]]| |]; cbn in Hrun;
      try discriminate; injection Hrun as _ <-; eauto. }
  specialize (Hc r1 res Hlen Hcur Harch Hbig eq_refl).
  cbn [snd] in Hcont. rewrite Hcont in Hc.
  pose proof (getBuildID_past_end elf_NewFile fuel' r1) as Hend.
  rewrite Hcont in Hend.
  specialize (Hend ltac:(lia) Hc Harch Hbig).
  rewrite <- Hcont in Hread.
  rewrite (Parse_returns elf_NewFile buildinfo_Read fuel' r1
             (snd (getBuildID elf_NewFile fuel' r1)) info [] (Some io_EOF)
             Hread).
  - rewrite Hpos. reflexivity.
  - destruct (getBuildID elf_NewFile fuel' r1) as [o3 r3].
    cbn [fst snd] in *. rewrite Hend. reflexivity.
Qed.

End ParseAgain.

Lemma X13_witness :
  fst (Parse leDecoder sampleRead 52 (openFile bothImage))
  = Returned
      (inl [types.mkLibrary "github.com/a/b" "v1.2.3" (nDesc sampleGo) [];
            types.mkLibrary "github.com/fork/d" "v0.1.1" (nDesc sampleGo) []])
  /\ fst (Parse leDecoder sampleRead 52
            (snd (Parse leDecoder sampleRead 52 (openFile bothImage))))
     = Returned
         (inl [types.mkLibrary "github.com/a/b" "v1.2.3" [] ["EOF"%string];
               types.mkLibrary "github.com/fork/d" "v0.1.1" [] ["EOF"%string]]).
Proof.
  split; [vm_compute; reflexivity|].
  assert (Hlen : len bothImage = 236) by (vm_compute; reflexivity).
  apply (X13_parse_again_loses_build_id leDecoder sampleRead 52 52
           (openFile bothImage)
           (snd (Parse leDecoder sampleRead 52 (openFile bothImage)))
           (debug.mkBuildInfo "go1.20"
              (debug.mkModule "example.com/m" EmptyString EmptyString None)
              sampleDeps)
           [types.mkLibrary "github.com/a/b" "v1.2.3" (nDesc sampleGo) [];
            types.mkLibrary "github.com/fork/d" "v0.1.1" (nDesc sampleGo) []]);
    cbn [content cursor openFile]; rewrite ?Hlen.
  - unfold readSize. lia.
  - lia.
  - discriminate.
  - discriminate.
  - reflexivity.
  - discriminate.
  - vm_compute. reflexivity.
Defined.

(** * Properties of package [utils] *)

Section FirstOccurrences.

Context {A : Type} (key : A -> string).

Lemma firstOcc_union (l : list A) :
  forall S T : gset string,
    firstOcc key (S ∪ T) l
    = filter (fun x => key x ∉ S) (firstOcc key T l).
Proof.
  induction l as [|x l IH]; intros S T; cbn [firstOcc]; [reflexivity|].
  destruct (decide (key x ∈ T)) as [HT|HT].
  - rewrite decide_True by set_solver. apply IH.
  - destruct (decide (key x ∈ S)) as [HS|HS].
    + rewrite decide_True by set_solver.
      rewrite filter_cons_False by (intros H; apply H; exact HS).
      rewrite <- IH. f_equal. set_solver.
    + rewrite decide_False by set_solver.
      rewrite filter_cons_True by exact HS.
      f_equal. rewrite <- IH. f_equal. set_solver.
Qed.

Lemma firstOcc_elem (l : list A) :
  forall (seen : gset string) (x : A),
    x ∈ firstOcc key seen l -> x ∈ l /\ key x ∉ seen.
Proof.
  induction l as [|y l IH]; intros seen x; cbn [firstOcc].
  - intros H. inversion H.
  - destruct (decide (key y ∈ seen)) as [Hy|Hy].
    + intros H. apply IH in H as [H1 H2]. split; [right; exact H1|exact H2].
    + intros H. apply elem_of_cons in H as [->|H].
      * split; [left|exact Hy].
      * apply IH in H as [H1 H2]. split; [right; exact H1|set_solver].
Qed.

Lemma firstOcc_keys (l : list A) :
  forall (seen : gset string) (x : A),
    x ∈ l -> key x ∉ seen -> key x ∈ key <$> firstOcc key seen l.
Proof.
  induction l as [|y l IH]; intros seen x Hx Hk; cbn [firstOcc].
  - inversion Hx.
  - apply elem_of_cons in Hx as [->|Hx].
    + rewrite decide_False by exact Hk. rewrite fmap_cons. left.
    + destruct (decide (key y ∈ seen)) as [Hy|Hy]; [apply IH; assumption|].
      rewrite fmap_cons. destruct (decide (key x = key y)) as [->|Hne].
      * left.
      * right. apply IH; [exact Hx|set_solver].
Qed.

Lemma firstOcc_NoDup (l : list A) :
  forall seen : gset string, NoDup (key <$> firstOcc key seen l).
Proof.
  induction l as [|y l IH]; intros seen; cbn [firstOcc]; [constructor|].
  destruct (decide (key y ∈ seen)); [apply IH|].
  rewrite fmap_cons. constructor; [|apply IH].
  intros H. apply list_elem_of_fmap in H as (x & Hk & Hx).
  apply firstOcc_elem in Hx as [_ Hx]. set_solver.
Qed.

Lemma firstOcc_sublist (l : list A) :
  forall seen : gset string, firstOcc key seen l `sublist_of` l.
Proof.
  induction l as [|y l IH]; intros seen; cbn [firstOcc]; [constructor|].
  destruct (decide (key y ∈ seen)).
  - apply sublist_cons. apply IH.
  - apply sublist_skip. apply IH.
Qed.

Lemma firstOcc_id (l : list A) :
  forall seen : gset string,
    NoDup (key <$> l) -> (forall x, x ∈ l -> key x ∉ seen) ->
    firstOcc key seen l = l.
Proof.
  induction l as [|y l IH]; intros seen Hnd Hseen; cbn [firstOcc];
    [reflexivity|].
  rewrite fmap_cons in Hnd. apply NoDup_cons in Hnd as [Hy Hnd].
  rewrite decide_False by (apply Hseen; left).
  f_equal. apply IH; [exact Hnd|].
  intros x Hx. assert (key x ∉ seen) by (apply Hseen; right; exact Hx).
  assert (key x <> key y).
  { intros E. apply Hy. rewrite <- E. apply list_elem_of_fmap.
    exists x. split; [reflexivity|exact Hx]. }
  set_solver.
Qed.

(** The loop that appends an element when its key is not in the set, and
    then adds the key to the set. *)
Lemma foldl_firstOcc
    (step : list A * gset string -> A -> list A * gset string) :
  (forall res U x,
      step (res, U) x
      = if decide (key x ∈ U) then (res, U)
        else (res ++ [x], {[ key x ]} ∪ U)) ->
  forall (l : list A) (res : list A) (U : gset string),
    fst (foldl step (res, U) l) = res ++ firstOcc key U l.
Proof.
  intros Hstep l. induction l as [|x l IH]; intros res U;
    cbn [foldl firstOcc].
  - rewrite app_nil_r. reflexivity.
  - rewrite Hstep. destruct (decide (key x ∈ U)); [apply IH|].
    rewrite IH, <- app_assoc. reflexivity.
Qed.

End FirstOccurrences.

Lemma UniqueStrings_firstOcc (ss : list string) :
  utils.UniqueStrings ss = firstOcc id ∅ ss.
Proof.
  unfold utils.UniqueStrings.
  rewrite (foldl_firstOcc id utils.uniqueStringsStep); [reflexivity|].
  intros res U x. reflexivity.
Qed.

Lemma UniqueLibraries_firstOcc (libs : list types.Library) :
  utils.UniqueLibraries libs = firstOcc identifierOf ∅ libs.
Proof.
  unfold utils.UniqueLibraries.
  rewrite (foldl_firstOcc identifierOf utils.uniqueLibrariesStep);
    [reflexivity|].
  intros res U x. reflexivity.
Qed.

Lemma firstOcc_cons {A : Type} (key : A -> string) (x : A) (l : list A) :
  firstOcc key ∅ (x :: l)
  = x :: filter (fun y => key y <> key x) (firstOcc key ∅ l).
Proof.
  cbn [firstOcc]. rewrite decide_False by set_solver. f_equal.
  rewrite firstOcc_union. apply list_filter_iff. intros y. set_solver.
Qed.

(** X14.  [UniqueStrings] returns every string of its argument once, in
    the order of the first occurrences: the result has no duplicates and
    the elements of the argument, it is the argument with the later
    occurrences removed, it is the argument itself when that has no
    duplicates, and applying the function twice changes nothing more. *)
Theorem X14_UniqueStrings_first_occurrences (s : string) (ss : list string) :
  NoDup (utils.UniqueStrings ss)
  /\ (forall t, t ∈ utils.UniqueStrings ss <-> t ∈ ss)
  /\ utils.UniqueStrings ss `sublist_of` ss
  /\ utils.UniqueStrings (s :: ss)
     = s :: filter (fun t => t <> s) (utils.UniqueStrings ss)
  /\ (NoDup ss -> utils.UniqueStrings ss = ss)
  /\ utils.UniqueStrings (utils.UniqueStrings ss) = utils.UniqueStrings ss.
Proof.
  rewrite !UniqueStrings_firstOcc.
  pose proof (firstOcc_NoDup id ss ∅) as Hnd. rewrite list_fmap_id in Hnd.
  assert (Hid : forall l : list string, NoDup l -> firstOcc id ∅ l = l).
  { intros l Hl. apply firstOcc_id; [rewrite list_fmap_id; exact Hl|].
    intros x _. set_solver. }
  split; [exact Hnd|]. split; [|split; [|split; [|split]]].
  - intros t. split.
    + intros H. apply firstOcc_elem in H as [H _]. exact H.
    + intros H. pose proof (firstOcc_keys id ss ∅ t H) as Hk.
      rewrite list_fmap_id in Hk. apply Hk. set_solver.
  - apply firstOcc_sublist.
  - apply (firstOcc_cons id).
  - apply Hid.
  - apply Hid. exact Hnd.
Qed.

(** X15.  [UniqueLibraries] keeps, for each [name@version] identifier of
    its argument, the first library that has it and drops the later ones,
    whatever their other fields: the identifiers of the result have no
    duplicates, the result is the argument with elements removed, every
    library of the argument has its identifier in the result, and the
    head of the argument is always kept. *)
Theorem X15_UniqueLibraries_first_by_identifier (lib : types.Library)
    (libs : list types.Library) :
  NoDup (identifierOf <$> utils.UniqueLibraries libs)
  /\ utils.UniqueLibraries libs `sublist_of` libs
  /\ (forall l, l ∈ libs ->
        identifierOf l ∈ identifierOf <$> utils.UniqueLibraries libs)
  /\ utils.UniqueLibraries (lib :: libs)
     = lib :: filter (fun l => identifierOf l <> identifierOf lib)
                     (utils.UniqueLibraries libs)
  /\ (NoDup (identifierOf <$> libs) -> utils.UniqueLibraries libs = libs).
Proof.
  rewrite !UniqueLibraries_firstOcc.
  split; [apply firstOcc_NoDup|]. split; [apply firstOcc_sublist|].
  split; [|split].
  - intros l Hl. apply firstOcc_keys; [exact Hl|set_solver].
  - apply firstOcc_cons.
  - intros Hnd. apply firstOcc_id; [exact Hnd|]. intros x _. set_solver.
Qed.

Lemma firstOcc_seen {A : Type} (key : A -> string) (x : A)
    (pre post : list A) :
  forall seen : gset string,
    key x ∈ seen \/ (exists y, y ∈ pre /\ key y = key x) ->
    firstOcc key seen (pre ++ x :: post) = firstOcc key seen (pre ++ post).
Proof.
  induction pre as [|z pre IH]; intros seen H.
  - destruct H as [H|(y & Hy & _)]; [|inversion Hy].
    cbn [app firstOcc]. rewrite decide_True by exact H. reflexivity.
  - cbn [app firstOcc]. destruct (decide (key z ∈ seen)).
    + apply IH. destruct H as [H|(y & Hy & E)]; [left; exact H|].
      apply elem_of_cons in Hy as [->|Hy].
      * left. rewrite <- E. assumption.
      * right. exists y. split; assumption.
    + f_equal. apply IH. destruct H as [H|(y & Hy & E)].
      * left. set_solver.
      * apply elem_of_cons in Hy as [->|Hy].
        -- left. rewrite <- E. set_solver.
        -- right. exists y. split; assumption.
Qed.

Lemma atFree_cons (c : ascii) (s : string) :
  atFree (String c s) = true -> c <> "@"%char /\ atFree s = true.
Proof.
  cbn [atFree]. intros H. apply andb_true_iff in H as [H1 H2].
  split; [|exact H2]. intros ->. discriminate H1.
Qed.

(** X16.  [PackageID] tells two packages apart when their names have no
    [@]: equal identifiers then mean equal names and equal versions. *)
Theorem X16_PackageID_injective_without_at (n1 v1 n2 v2 : string) :
  atFree n1 = true -> atFree n2 = true ->
  utils.PackageID n1 v1 = utils.PackageID n2 v2 -> n1 = n2 /\ v1 = v2.
Proof.
  assert (Hnil : forall v, utils.PackageID EmptyString v = String "@" v)
    by reflexivity.
  assert (Hcons : forall c n v,
             utils.PackageID (String c n) v = String c (utils.PackageID n v))
    by reflexivity.
  revert n2.
  induction n1 as [|c n1 IH]; intros [|d n2] H1 H2 E.
  - rewrite !Hnil in E. injection E as ->. split; reflexivity.
  - rewrite Hnil, Hcons in E. injection E as <- _.
    apply atFree_cons in H2 as [H2 _]. contradiction.
  - rewrite Hnil, Hcons in E. injection E as -> _.
    apply atFree_cons in H1 as [H1 _]. contradiction.
  - rewrite !Hcons in E. injection E as -> E.
    apply atFree_cons in H1 as [_ H1]. apply atFree_cons in H2 as [_ H2].
    destruct (IH n2 H1 H2 E) as [-> ->]. split; reflexivity.
Qed.

Lemma X16_witness :
  "golang.org/x/sys"%string = "golang.org/x/sys"%string
  /\ "v0.1.0"%string = "v0.1.0"%string.
Proof.
  apply (X16_PackageID_injective_without_at
           "golang.org/x/sys" "v0.1.0" "golang.org/x/sys" "v0.1.0");
    reflexivity.
Defined.

Lemma append_assoc3 (a b c : string) :
  ((a ++ b) ++ c)%string = (a ++ (b ++ c))%string.
Proof.
  induction a as [|x a IH]; [reflexivity|].
  rewrite !append_cons, IH. reflexivity.
Qed.

Lemma append_length_neq (a b : string) :
  b <> EmptyString -> (a ++ b)%string <> a.
Proof.
  intros Hb E. apply (f_equal String.length) in E.
  rewrite string_length_app in E. destruct b; [contradiction|].
  cbn [String.length] in E. lia.
Qed.

(** X17.  With an [@] in a name or a version the identifiers of different
    packages collide, and [UniqueLibraries] then drops a library that no
    earlier library equals in name and version: a library named [n] at
    version [v@w] is ignored after one named [n@v] at version [w]. *)
Theorem X17_identifier_collision_drops_library (n v w : string)
    (lib1 lib2 : types.Library) (pre post : list types.Library) :
  lib1 ∈ pre ->
  types.Name lib1 = (n ++ "@" ++ v)%string -> types.Version lib1 = w ->
  types.Name lib2 = n -> types.Version lib2 = (v ++ "@" ++ w)%string ->
  types.Name lib1 <> types.Name lib2
  /\ utils.UniqueLibraries (pre ++ lib2 :: post)
     = utils.UniqueLibraries (pre ++ post).
Proof.
  intros Hin N1 V1 N2 V2. split.
  - rewrite N1, N2. apply append_length_neq. discriminate.
  - rewrite !UniqueLibraries_firstOcc. apply firstOcc_seen. right.
    exists lib1. split; [exact Hin|].
    unfold identifierOf, utils.PackageID. rewrite N1, V1, N2, V2.
    rewrite append_assoc3. reflexivity.
Qed.

Lemma X17_witness :
  "a@b"%string <> "a"%string
  /\ utils.UniqueLibraries
       ([types.mkLibrary "a@b" "c" [] []]
        ++ types.mkLibrary "a" "b@c" [] [] :: [])
     = utils.UniqueLibraries ([types.mkLibrary "a@b" "c" [] []] ++ []).
Proof.
  apply (X17_identifier_collision_drops_library "a" "b" "c"
           (types.mkLibrary "a@b" "c" [] [])
           (types.mkLibrary "a" "b@c" [] [])
           [types.mkLibrary "a@b" "c" [] []] []);
    try reflexivity.
  left.
Defined.

(** ** [MergeMaps] *)

Lemma merge_fold_union (parent child : gmap string string) :
  map_fold (fun k v (t : gmap string string) => <[k := v]> t) parent child
  = child ∪ parent.
Proof.
  apply (map_fold_weak_ind
           (fun (r : gmap string string) (m : gmap string string) => r = m ∪ parent)).
  - rewrite (left_id_L ∅ (∪)). reflexivity.
  - intros i x m r _ ->. apply insert_union_l.
Qed.

Lemma entries_alloc (σ : gmap nat (gmap string string)) (a : nat)
    (t : gmap string string) :
  σ !! a = Some t -> utils.entries σ (Some a) = t.
Proof. intros H. unfold utils.entries. rewrite H. reflexivity. Qed.

(** X18.  [MergeMaps] with a [nil] parent returns the child itself and
    touches nothing.  With a parent it returns the parent, updated in
    place: afterwards the parent maps a key to the child's value when the
    child has the key and to its old value otherwise; no other map of the
    store is modified, and the child keeps its entries (also when the two
    arguments are the same map). *)
Theorem X18_MergeMaps_child_wins_in_place (σ : gmap nat (gmap string string))
    (parent child : option nat) :
  (parent = None -> utils.MergeMaps σ parent child = (σ, child))
  /\ (forall p t, parent = Some p -> σ !! p = Some t ->
        let '(σ', r) := utils.MergeMaps σ parent child in
        r = parent
        /\ (forall k,
              utils.entries σ' parent !! k
              = match utils.entries σ child !! k with
                | Some v => Some v
                | None => utils.entries σ parent !! k
                end)
        /\ (forall a, a <> p -> σ' !! a = σ !! a)
        /\ utils.entries σ' child = utils.entries σ child).
Proof.
  split; [intros ->; reflexivity|].
  intros p t -> Hp. unfold utils.MergeMaps. rewrite merge_fold_union.
  rewrite (entries_alloc σ p t Hp).
  set (σ' := <[p := utils.entries σ child ∪ t]> σ).
  assert (Hp' : utils.entries σ' (Some p) = utils.entries σ child ∪ t)
    by (apply entries_alloc; apply lookup_insert_eq).
  split; [reflexivity|]. split; [|split].
  - intros k. rewrite Hp'.
    destruct (utils.entries σ child !! k) as [v|] eqn:E.
    + apply lookup_union_Some_l. exact E.
    + apply lookup_union_r. exact E.
  - intros a Ha. apply lookup_insert_ne. congruence.
  - destruct child as [c|]; [|reflexivity].
    destruct (decide (c = p)) as [->|Hne].
    + rewrite Hp', (entries_alloc σ p t Hp). apply (idemp_L (∪)).
    + unfold utils.entries, σ'. rewrite lookup_insert_ne by congruence.
      reflexivity.
Qed.

(** * Properties of the section-based parser *)

Section LegacyParser.

Variable elf_NewFile : handle -> (error + list legacy.Section_) * handle.
Variable buildinfo_Read : list byte -> error + debug.BuildInfo.

Lemma findBuildID_skip (pre rest : list legacy.Section_) :
  Forall (fun s => legacy.SName s <> ".note.go.buildid"%string) pre ->
  legacy.findBuildID (pre ++ rest) = legacy.findBuildID rest.
Proof.
  induction 1 as [|s pre Hs _ IH]; [reflexivity|].
  cbn [app legacy.findBuildID].
  destruct (String.eqb_spec (legacy.SName s) ".note.go.buildid");
    [contradiction|exact IH].
Qed.

(** X19.  The section-based [getBuildID] takes the first section named
    [.note.go.buildid], whatever follows it, and returns its bytes from
    offset 16 on without looking at the note header; it panics when that
    section has fewer than 16 bytes.  The handle is the one the decoder
    left. *)
Theorem X19_first_buildid_section (r r1 : handle)
    (pre post : list legacy.Section_) (s : legacy.Section_) :
  elf_NewFile r = (inr (pre ++ s :: post), r1) ->
  Forall (fun s' => legacy.SName s' <> ".note.go.buildid"%string) pre ->
  legacy.SName s = ".note.go.buildid"%string ->
  legacy.getBuildID elf_NewFile r
  = (if len (legacy.SData s) <? 16 then Panicked
     else Returned (drop 16 (legacy.SData s), None),
     r1).
Proof.
  intros Hfile Hpre Hs. unfold legacy.getBuildID. rewrite Hfile.
  rewrite findBuildID_skip by exact Hpre. cbn [legacy.findBuildID].
  rewrite Hs. rewrite String.eqb_refl.
  destruct (Z.ltb_spec (len (legacy.SData s)) 16).
  - unfold sliceFrom. rewrite slice_panics by lia. reflexivity.
  - rewrite sliceFrom_ok by (pose proof (len_nonneg (legacy.SData s)); lia).
    reflexivity.
Qed.

(** Once the build ID is resolved the loop only appends records and
    leaves the handle alone. *)
Lemma parseLoop_resolved (deps : list debug.Module_) :
  forall (st : legacy.loopState) (r : handle),
    legacy.checkBuildID st = true ->
    legacy.parseLoop elf_NewFile st r deps
    = (Returned
         (legacy.mkLoop
            (legacy.libs st
             ++ map (libraryOf (legacy.buildID st) (legacy.warnings st))
                    (List.filter hasPath deps))
            true (legacy.buildID st) (legacy.warnings st)),
       r).
Proof.
  induction deps as [|dep deps IH]; intros [ls c id ws] r Hc;
    cbn [legacy.checkBuildID legacy.libs legacy.buildID legacy.warnings] in *;
    subst c; cbn [legacy.parseLoop List.filter map].
  - rewrite app_nil_r. reflexivity.
  - unfold legacy.parseStep, hasPath.
    destruct (String.eqb (debug.Path dep) ""); cbn [negb].
    + apply IH. reflexivity.
    + cbn [legacy.checkBuildID legacy.libs legacy.buildID legacy.warnings
           negb].
      rewrite !bind_Returned. rewrite IH by reflexivity.
      cbn [legacy.libs legacy.buildID legacy.warnings map].
      rewrite <- app_assoc. reflexivity.
Qed.

Lemma parseLoop_lazy (deps : list debug.Module_) :
  forall (ls : list types.Library) (r : handle),
    legacy.parseLoop elf_NewFile (legacy.mkLoop ls false [] []) r deps
    = if existsb hasPath deps
      then
        (fst (legacy.getBuildID elf_NewFile r) ≫= (fun res =>
           Returned
             (legacy.mkLoop
                (ls ++ map (libraryOf (fst res) (warningsOf (snd res)))
                           (List.filter hasPath deps))
                true (fst res) (warningsOf (snd res)))),
         snd (legacy.getBuildID elf_NewFile r))
      else (Returned (legacy.mkLoop ls false [] []), r).
Proof.
  induction deps as [|dep deps IH]; intros ls r;
    cbn [legacy.parseLoop existsb List.filter]; [reflexivity|].
  unfold legacy.parseStep, hasPath.
  destruct (String.eqb (debug.Path dep) ""); cbn [negb orb].
  - apply IH.
  - cbn [legacy.checkBuildID legacy.libs legacy.buildID legacy.warnings negb].
    destruct (legacy.getBuildID elf_NewFile r) as [[[id err]| |] r1];
      cbn [fst snd]; [|reflexivity|reflexivity].
    rewrite !bind_Returned. cbn [fst snd].
    rewrite parseLoop_resolved by reflexivity.
    cbn [legacy.libs legacy.buildID legacy.warnings map].
    rewrite <- app_assoc. destruct err; reflexivity.
Qed.

(** X20.  The section-based [Parse] resolves the build ID lazily and
    once.  When the metadata is read and some dependency has a non-empty
    path, its result is built from the result of one call of
    [getBuildID] on the handle as [Parse] received it (every record
    carries that build ID and warning list, and a panic of the call is a
    panic of [Parse]), and the handle is left as that one call left it:
    as the decoder left it after being run once, however many
    dependencies there are.  When no dependency has a non-empty path
    [Parse] returns the empty list and the handle is untouched: neither
    [getBuildID] nor the decoder is run. *)
Theorem X20_legacy_Parse_resolves_lazily (r : handle)
    (info : debug.BuildInfo) :
  buildinfo_Read (content r) = inr info ->
  legacy.Parse elf_NewFile buildinfo_Read r
  = (if existsb hasPath (debug.Deps info)
     then
       (fst (legacy.getBuildID elf_NewFile r) ≫= (fun res =>
          Returned (inl (map (libraryOf (fst res) (warningsOf (snd res)))
                             (List.filter hasPath (debug.Deps info))))),
        snd (legacy.getBuildID elf_NewFile r))
     else (Returned (inl []), r))
  /\ snd (legacy.Parse elf_NewFile buildinfo_Read r)
     = if existsb hasPath (debug.Deps info) then snd (elf_NewFile r) else r.
Proof.
  intros Hread.
  assert (Hrun : legacy.Parse elf_NewFile buildinfo_Read r
    = (if existsb hasPath (debug.Deps info)
       then
         (fst (legacy.getBuildID elf_NewFile r) ≫= (fun res =>
            Returned (inl (map (libraryOf (fst res) (warningsOf (snd res)))
                               (List.filter hasPath (debug.Deps info))))),
          snd (legacy.getBuildID elf_NewFile r))
       else (Returned (inl []), r))).
  { unfold legacy.Parse. rewrite Hread, parseLoop_lazy.
    destruct (existsb hasPath (debug.Deps info)); [|reflexivity].
    destruct (legacy.getBuildID elf_NewFile r) as [[res| |] r1]; reflexivity. }
  split; [exact Hrun|]. rewrite Hrun.
  destruct (existsb hasPath (debug.Deps info)); [|reflexivity].
  cbn [snd]. unfold legacy.getBuildID.
  destruct (elf_NewFile r) as [[err|sections] r1]; reflexivity.
Qed.

End LegacyParser.

Lemma X19_witness :
  legacy.getBuildID sampleOpen (openFile [])
  = (Returned (["a"; "b"; "c"]%byte, None),
     mkHandle [] 0 [EvReadAt 0 64]).
Proof.
  apply (X19_first_buildid_section sampleOpen (openFile [])
           (mkHandle [] 0 [EvReadAt 0 64])
           [legacy.mkSection ".shstrtab" [x00; x01]]
           [legacy.mkSection ".note.go.buildid" [x00]]
           (legacy.mkSection ".note.go.buildid"
              (zeros 16 ++ ["a"; "b"; "c"]%byte))).
  - reflexivity.
  - constructor; [discriminate|constructor].
  - reflexivity.
Defined.

(** Two dependencies with a path, one run of the decoder. *)
Lemma X20_witness :
  legacy.Parse sampleOpen sampleRead (openFile [])
  = (Returned
       (inl [types.mkLibrary "github.com/a/b" "v1.2.3" ["a"; "b"; "c"]%byte [];
             types.mkLibrary "github.com/fork/d" "v0.1.1"
               ["a"; "b"; "c"]%byte []]),
     mkHandle [] 0 [EvReadAt 0 64])
  /\ snd (legacy.Parse sampleOpen sampleRead (openFile []))
     = mkHandle [] 0 [EvReadAt 0 64].
Proof.
  apply (X20_legacy_Parse_resolves_lazily sampleOpen sampleRead (openFile [])
           (debug.mkBuildInfo "go1.20"
              (debug.mkModule "example.com/m" EmptyString EmptyString None)
              sampleDeps)).
  reflexivity.
Defined.

(** * Termination of the note walk *)

(** An iteration that continues on a record of non-zero computed size
    consumes at least one byte, and moves the offset by what it
    consumes. *)
Lemma iterBody_progress (align : Z) (gnu gnu' : gostring)
    (filesz off filesz' off' : Z) (note note' : list byte)
    (nameSize valSize tag : Z) :
  filesz = len note -> 0 <= off -> off + filesz + align < 2 ^ 64 ->
  align = 0 \/ isPow2 align ->
  u32 (12 + align4 nameSize + align4 valSize) <> 0 ->
  iterBody align gnu filesz off note nameSize valSize tag
  = Returned (IterNext gnu' filesz' off' note') ->
  exists k, 0 < k <= filesz /\ note' = drop (Z.to_nat k) note
            /\ filesz' = filesz - k /\ off' = off + k.
Proof.
  intros Hfs Hoff Hwrap Halign Hsize. unfold iterBody.
  destruct (noteGuard nameSize valSize note && (tag =? elfGoBuildIDTag)
            && bytes_Equal (take 4 (drop 12 note)) elfGoNote).
  { destruct (slice note offsetToNoteData _); discriminate. }
  match goal with
  | |- (?m ≫= _) = _ -> _ => destruct m as [g| |]
  end; [|discriminate|discriminate].
  rewrite bind_Returned. unfold offsetToNoteFields.
  set (s := u32 (12 + align4 nameSize + align4 valSize)) in *.
  assert (0 <= s < 2 ^ 32) as Hs by (apply Z.mod_pos_bound; lia).
  assert (0 <= align) as Hal.
  { destruct Halign as [->|(k & Hk & ->)]; [lia|]. apply Z.pow_nonneg. lia. }
  pose proof (len_nonneg note) as Hlen.
  destruct (Z.leb_spec filesz s) as [|Hmore]; [discriminate|].
  rewrite (u64_small (off + s)) by lia.
  destruct Halign as [->|Hpow].
  - change (0 =? 0) with true. cbv iota beta.
    rewrite (u64_small (filesz - s)) by lia.
    rewrite sliceFrom_ok by lia. rewrite bind_Returned.
    intros [= _ <- <- <-]. exists s. repeat split; lia.
  - assert (0 < align) as Hpos.
    { destruct Hpow as (k & Hk & ->). apply Z.pow_pos_nonneg; lia. }
    destruct (Z.eqb_spec align 0) as [|_]; [lia|].
    rewrite alignedOff_roundUp by (try exact Hpow; lia).
    pose proof (roundUp_bounds align (off + s) Hpos) as Hr.
    set (a := roundUp align (off + s)) in *.
    rewrite (u64_small (a - (off + s))) by lia.
    rewrite (u64_small (s + (a - (off + s)))) by lia.
    destruct (sliceFrom note (s + (a - (off + s)))) as [n'| |] eqn:Hsl;
      [|discriminate|discriminate].
    apply sliceFrom_inv in Hsl as [Hk ->]. rewrite bind_Returned.
    rewrite (u64_small (filesz - (s + (a - (off + s))))) by lia.
    intros [= _ <- <- <-]. exists (s + (a - (off + s))).
    repeat split; lia.
Qed.

Lemma slice_fuel (s : list byte) (lo hi : Z) : slice s lo hi <> OutOfFuel.
Proof. unfold slice. destruct (_ && _); discriminate. Qed.

(** An iteration needs no fuel. *)
Lemma iterBody_fuel (align : Z) (gnu : gostring) (filesz off : Z)
    (note : list byte) (nameSize valSize tag : Z) :
  iterBody align gnu filesz off note nameSize valSize tag <> OutOfFuel.
Proof.
  unfold iterBody.
  destruct (noteGuard nameSize valSize note && (tag =? elfGoBuildIDTag)
            && bytes_Equal (take 4 (drop 12 note)) elfGoNote).
  { pose proof (slice_fuel note offsetToNoteData
                  (u32 (offsetToNoteData + valSize))) as H.
    destruct (slice note offsetToNoteData _); [discriminate|discriminate|].
    contradiction. }
  match goal with
  | |- (?m ≫= _) <> _ =>
      assert (m <> OutOfFuel) as Hg
        by (destruct (_ && _); [apply slice_fuel|discriminate]);
      destruct m as [g| |]
  end; [|discriminate|contradiction].
  rewrite bind_Returned. cbv zeta.
  destruct (filesz <=? _); [discriminate|].
  destruct (if align =? 0 then _ else _) as [notesz off1].
  pose proof (slice_fuel note notesz (len note)) as H.
  unfold sliceFrom. destruct (slice note notesz (len note));
    [discriminate|discriminate|contradiction].
Qed.

(** X21.  The note walk ends within one iteration per byte of the
    segment unless the note bytes hold a record header whose computed size
    [12 + align4(nameSize) + align4(valSize)] is 0 in 32 bits: for a
    segment whose alignment is 0 or a power of two and whose end does not
    wrap around, a walk that is still running after [filesz] iterations has
    met such a header. *)
Theorem X21_walk_ends_unless_zero_size (bo : ByteOrder) (align : Z)
    (fuel : nat) :
  forall (gnu : gostring) (filesz off : Z) (note : list byte),
    filesz = len note -> filesz <= Z.of_nat fuel ->
    0 <= off -> off + filesz + align < 2 ^ 64 ->
    align = 0 \/ isPow2 align ->
    noteLoop fuel bo align gnu filesz off note <> OutOfFuel
    \/ exists k nameSize valSize,
         0 <= k /\ k + 16 <= len note
         /\ Uint32 bo (drop (Z.to_nat k) note) = Returned nameSize
         /\ Uint32 bo (drop (Z.to_nat (k + 4)) note) = Returned valSize
         /\ u32 (12 + align4 nameSize + align4 valSize) = 0.
Proof.
  induction fuel as [|fuel IH]; intros gnu filesz off note Hfs Hfuel Hoff
    Hwrap Halign.
  { left. cbn [noteLoop]. unfold offsetToNoteData.
    destruct (Z.ltb_spec filesz 16); [discriminate|lia]. }
  destruct (Z.lt_ge_cases filesz 16) as [Hshort|H16].
  { left. cbn [noteLoop]. unfold offsetToNoteData.
    destruct (Z.ltb_spec filesz 16); [discriminate|lia]. }
  destruct (Uint32_returns bo note ltac:(lia)) as [ns U1].
  destruct (Uint32_returns bo (drop 4 note)) as [vs U2].
  { change 4%nat with (Z.to_nat 4). rewrite len_drop; lia. }
  destruct (Uint32_returns bo (drop 8 note)) as [tag U3].
  { change 8%nat with (Z.to_nat 8). rewrite len_drop; lia. }
  destruct (Z.eq_dec (u32 (12 + align4 ns + align4 vs)) 0) as [Hz|Hnz].
  { right. exists 0, ns, vs. repeat split; try lia; assumption. }
  rewrite noteLoop_step by exact H16.
  rewrite (noteIter_fields bo align gnu filesz off note ns vs tag)
    by (try assumption; lia).
  pose proof (iterBody_fuel align gnu filesz off note ns vs tag) as Hnf.
  destruct (iterBody align gnu filesz off note ns vs tag)
    as [[v|g|g fs o n']| |] eqn:Hit;
    [left; discriminate|left; discriminate| |left; discriminate|contradiction].
  rewrite bind_Returned.
  destruct (iterBody_progress align gnu g filesz off fs o note n' ns vs tag
              Hfs Hoff Hwrap Halign Hnz Hit) as (k0 & Hk0 & -> & -> & ->).
  assert (Hlen' : filesz - k0 = len (drop (Z.to_nat k0) note))
    by (rewrite len_drop by lia; lia).
  assert (Hfuel' : filesz - k0 <= Z.of_nat fuel) by lia.
  assert (Hoff' : 0 <= off + k0) by lia.
  assert (Hwrap' : off + k0 + (filesz - k0) + align < 2 ^ 64) by lia.
  destruct (IH g (filesz - k0) (off + k0) (drop (Z.to_nat k0) note)
              Hlen' Hfuel' Hoff' Hwrap' Halign)
    as [Hend|(k & ns' & vs' & Hk & Hk16 & V1 & V2 & Hzero)].
  - left. exact Hend.
  - right. rewrite len_drop in Hk16 by lia. rewrite drop_drop in V1, V2.
    exists (k0 + k), ns', vs'.
    replace (Z.to_nat (k0 + k)) with (Z.to_nat k0 + Z.to_nat k)%nat by lia.
    replace (Z.to_nat (k0 + k + 4)) with (Z.to_nat k0 + Z.to_nat (k + 4))%nat
      by lia.
    repeat split; try lia; assumption.
Qed.

Lemma X21_witness :
  noteLoop 52 LittleEndian 4 [] 52 120 bothNotes <> OutOfFuel
  \/ exists k nameSize valSize,
       0 <= k /\ k + 16 <= len bothNotes
       /\ Uint32 LittleEndian (drop (Z.to_nat k) bothNotes) = Returned nameSize
       /\ Uint32 LittleEndian (drop (Z.to_nat (k + 4)) bothNotes)
          = Returned valSize
       /\ u32 (12 + align4 nameSize + align4 valSize) = 0.
Proof.
  apply (X21_walk_ends_unless_zero_size LittleEndian 4 52 [] 52 120 bothNotes).
  - reflexivity.
  - lia.
  - lia.
  - lia.
  - right. exists 2. split; [lia|reflexivity].
Defined.
